(** * HRTF data sets of OpenAL Soft: decoders, interpolation, B-Format builder,
      catalogue

    A shallow embedding of [Alc/hrtf.c]: the two binary decoders
    [LoadHrtf00] and [LoadHrtf01], the grid indexers [CalcEvIndices] and
    [CalcAzIndices], the interpolator [GetLerpedHrtfCoeffs], the
    ambisonic builder [BuildBFormatHrtf], and the catalogue functions
    [AddFileEntry], [AddBuiltInEntry], [EnumerateHrtf] and [FreeHrtfs]
    with the registry [LoadedHrtfs] they share.

    Conventions.
    - C integers are [Z] with the wrap-around of their width written out
      ([u8], [u16], [u32], [i16]).
    - [ALfloat] arithmetic is carried out over the rationals [Q]: rounding
      of binary32 is abstracted away, every operation is exact.
    - A read outside an array is undefined behaviour in C; here it makes
      the computation return [None].
    - [malloc] and [al_calloc] are taken to succeed, so the "Out of memory"
      branches are not represented. *)

From Stdlib Require Import ZArith QArith Qround Lia Lqa.
From Stdlib Require Import Strings.Byte Strings.Ascii.

From stdpp Require Import base option list strings pretty.

Local Open Scope Z_scope.

(** ** Machine integers *)

Definition u8 (x : Z) : Z := x mod 2 ^ 8.
Definition u16 (x : Z) : Z := x mod 2 ^ 16.
Definition u32 (x : Z) : Z := x mod 2 ^ 32.
(** Conversion to [ALshort] (two's complement). *)
Definition i16 (x : Z) : Z := (x + 2 ^ 15) mod 2 ^ 16 - 2 ^ 15.

(** The value of an [ALubyte] read from the input. *)
Definition ubyte (b : byte) : Z := Z.of_N (Byte.to_N b).

Definition minu (a b : Z) : Z := if b <? a then b else a.
Definition maxu (a b : Z) : Z := if a <? b then b else a.

(** ** Data set limits *)

Definition MIN_IR_SIZE : Z := 8.
Definition MAX_IR_SIZE : Z := 128.
Definition MOD_IR_SIZE : Z := 8.
Definition MIN_EV_COUNT : Z := 5.
Definition MAX_EV_COUNT : Z := 128.
Definition MIN_AZ_COUNT : Z := 1.
Definition MAX_AZ_COUNT : Z := 128.

(** ** The data set

    Modelled from the spec: [struct Hrtf] is declared in [hrtf.h], which is
    not among the sources; the fields are those the decoders fill in and
    the spec's data model lists.  The [next] link of the registry is left
    out.  [irCount] is not stored: it is the number of delays. *)
Record Hrtf := mkHrtf {
  sampleRate : Z;
  irSize : Z;
  evCount : Z;
  azCount : list Z;
  evOffset : list Z;
  coeffs : list Z;
  delays : list Z;
  filename : string
}.

Definition irCount (h : Hrtf) : Z := Z.of_nat (length (delays h)).

(** ** The decoders' effects *)

(** One constructor per [ERR] message of the decoders. *)
Inductive err :=
| UnexpectedEnd (req rem : Z)
| UnsupportedIrSize (sz : Z)
| UnsupportedEvCount (n : Z)
| InvalidEvOffset (i v last : Z)
| InvalidIrCount (i v n : Z)
| UnsupportedAzCount (i v : Z)
| InvalidDelay (i v : Z).

(** The cursor [data] is the part of the buffer the pointer still has in
    front of it, [datalen] the explicit counter the C code keeps beside it,
    [failed] the flag of the same name and [log] the [ERR] lines so far. *)
Record dstate := mkDstate {
  data : list byte;
  datalen : Z;
  failed : bool;
  log : list err
}.

(** A decoding step: [None] is a read past the end of the buffer. *)
Definition dec (A : Type) : Type := dstate → option (A * dstate).

Global Instance dec_ret : MRet dec := λ A x s, Some (x, s).
Global Instance dec_bind : MBind dec := λ A B f m s,
  match m s with
  | Some (a, s') => f a s'
  | None => None
  end.

(** [*(data++)] *)
Definition next : dec Z := λ s,
  match data s with
  | b :: d => Some (ubyte b, mkDstate d (datalen s) (failed s) (log s))
  | [] => None
  end.

(** [p[i]] for a pointer [p] into the buffer *)
Definition index (p : list byte) (i : Z) : dec Z := λ s,
  match p !! Z.to_nat i with
  | Some b => Some (ubyte b, s)
  | None => None
  end.

(** [datalen -= n] *)
Definition consume (n : Z) : dec unit := λ s,
  Some (tt, mkDstate (data s) (datalen s - n) (failed s) (log s)).

(** [data += n] *)
Definition skip (n : Z) : dec unit := λ s,
  Some (tt, mkDstate (drop (Z.to_nat n) (data s)) (datalen s) (failed s) (log s)).

Definition get_data : dec (list byte) := λ s, Some (data s, s).
Definition get_datalen : dec Z := λ s, Some (datalen s, s).
Definition get_failed : dec bool := λ s, Some (failed s, s).

Definition ERR (e : err) : dec unit := λ s,
  Some (tt, mkDstate (data s) (datalen s) (failed s) (log s ++ [e])).

(** [failed = AL_TRUE] *)
Definition set_failed : dec unit := λ s,
  Some (tt, mkDstate (data s) (datalen s) true (log s)).

(** [if(!failed) { ... }]: the variables the block assigns keep their
    initial value [d] when it is skipped. *)
Definition unless_failed {A} (d : A) (m : dec A) : dec A :=
  f ← get_failed; if (f : bool) then mret d else m.

(** [x = lo; x |= hi<<8;] *)
Definition le16 (lo hi : Z) : Z := Z.lor lo (Z.shiftl hi 8).

(** [x = *(data++); x |= *(data++)<<8; datalen -= 2;] *)
Definition next_le16 : dec Z :=
  lo ← next; hi ← next; consume 2;; mret (le16 lo hi).

(** What a decoder hands back: a data set, [NULL] (with the lines it
    logged), or undefined behaviour by a read outside the buffer. *)
Inductive outcome :=
| Loaded (h : Hrtf)
| Rejected (l : list err)
| OutOfBounds.

Definition result_of (r : option (option Hrtf * dstate)) : outcome :=
  match r with
  | Some (Some h, _) => Loaded h
  | Some (None, s) => Rejected (log s)
  | None => OutOfBounds
  end.

(** A call [LoadHrtf0x(data, datalen, filename)] on the whole of [buf]. *)
Definition run (buf : list byte) (m : dec (option Hrtf)) : outcome :=
  result_of (m (mkDstate buf (Z.of_nat (length buf)) false [])).

Section Hrtf.

(** [HRTF_HISTORY_LENGTH], [HRTFDELAY_BITS], [HRIR_LENGTH] and the binary32
    constant [F_PI] come from headers that are not among the sources; they
    are parameters of the development. *)
Variable HRTF_HISTORY_LENGTH : Z.
Variable HRTFDELAY_BITS : Z.
Variable HRIR_LENGTH : Z.
Variable F_PI : Q.

(** [const ALubyte maxDelay = HRTF_HISTORY_LENGTH-1;] *)
Definition maxDelay : Z := u8 (HRTF_HISTORY_LENGTH - 1).

(** [irSize < MIN_IR_SIZE || irSize > MAX_IR_SIZE || (irSize%MOD_IR_SIZE)] *)
Definition bad_irSize (irSize : Z) : bool :=
  (irSize <? MIN_IR_SIZE) || (MAX_IR_SIZE <? irSize)
  || negb (irSize mod MOD_IR_SIZE =? 0).

(** [evCount < MIN_EV_COUNT || evCount > MAX_EV_COUNT] *)
Definition bad_evCount (evCount : Z) : bool :=
  (evCount <? MIN_EV_COUNT) || (MAX_EV_COUNT <? evCount).

(** [azCount[i] < MIN_AZ_COUNT || azCount[i] > MAX_AZ_COUNT] *)
Definition bad_azCount (az : Z) : bool :=
  (az <? MIN_AZ_COUNT) || (MAX_AZ_COUNT <? az).

(** An [ERR] line followed by [failed = AL_TRUE]. *)
Definition flag (e : err) : dec unit := ERR e;; set_failed.

Definition check_irSize (irSize : Z) : dec unit :=
  if bad_irSize irSize then flag (UnsupportedIrSize irSize) else mret tt.

Definition check_evCount (evCount : Z) : dec unit :=
  if bad_evCount evCount then flag (UnsupportedEvCount evCount) else mret tt.

Definition check_azCount (i az : Z) : dec unit :=
  if bad_azCount az then flag (UnsupportedAzCount i az) else mret tt.

(** The inner loop over [j]: one impulse response of [irSize] samples. *)
Fixpoint read_ir (n : nat) : dec (list Z) :=
  match n with
  | O => mret []
  | S n' =>
      c ← next_le16;
      cs ← read_ir n';
      mret (i16 c :: cs)
  end.

(** The outer loop over [i]: it runs [irCount] times, [i] stepping by
    [irSize] up to [irCount*irSize]. *)
Fixpoint read_coeffs (n : nat) (irSize : nat) : dec (list Z) :=
  match n with
  | O => mret []
  | S n' =>
      ir ← read_ir irSize;
      rest ← read_coeffs n' irSize;
      mret (ir ++ rest)
  end.

(** [for(i = 0;i < irCount;i++) if(delays[i] > maxDelay) ...] *)
Fixpoint check_delays (delays : list byte) (n : nat) (i : Z) : dec unit :=
  match n with
  | O => mret tt
  | S n' =>
      d ← index delays i;
      (if maxDelay <? d then flag (InvalidDelay i d) else mret tt);;
      check_delays delays n' (i + 1)
  end.

(** [size_t reqsize = 2*irSize*irCount + irCount;] *)
Definition reqsize (irSize irCount : Z) : Z :=
  u32 (u32 (2 * irSize * irCount) + irCount).

(** The part both decoders share word for word: the size check, the
    coefficients, the delays and the construction of the data set. *)
Definition load_tail (rate irCount irSize evCount : Z)
    (azCount evOffset : list Z) (filename : string) : dec (option Hrtf) :=
  unless_failed tt (
    datalen ← get_datalen;
    if datalen <? reqsize irSize irCount
    then flag (UnexpectedEnd (reqsize irSize irCount) datalen)
    else mret tt);;
  '(coeffs, delays) ← unless_failed ([], []) (
    coeffs ← read_coeffs (Z.to_nat irCount) (Z.to_nat irSize);
    delays ← get_data;
    skip irCount;;
    consume irCount;;
    check_delays delays (Z.to_nat irCount) 0;;
    mret (coeffs, delays));
  f ← get_failed;
  if (f : bool) then mret None
  else mret (Some (mkHrtf rate irSize evCount azCount evOffset coeffs
                     (ubyte <$> take (Z.to_nat irCount) delays) filename)).

(** The header checks both decoders start with. *)
Definition check_header (irSize evCount : Z) : dec unit :=
  check_irSize irSize;; check_evCount evCount.

(** [rate = *(data++); rate |= *(data++)<<8; ...; datalen -= 4;] *)
Definition next_le32 : dec Z :=
  r0 ← next; r1 ← next; r2 ← next; r3 ← next; consume 4;;
  mret (u32 (Z.lor (Z.lor (Z.lor r0 (Z.shiftl r1 8)) (Z.shiftl r2 16))
               (Z.shiftl r3 24))).

(** *** Format v0 *)

Definition read_header00 : dec (Z * Z * Z * Z) :=
  rate ← next_le32;
  irCount ← next_le16;
  irSize ← next_le16;
  evCount ← next; consume 1;;
  mret (rate, irCount, irSize, evCount).

(** The loop over [i >= 1] of [LoadHrtf00]; [last] is [evOffset[i-1]].  It
    yields [evOffset[i..]], [azCount[i-1..]] and the last offset read. *)
Fixpoint read_evOffset00 (n : nat) (i last : Z) : dec (list Z * list Z * Z) :=
  match n with
  | O => mret ([], [], last)
  | S n' =>
      v ← next_le16;
      (if v <=? last then flag (InvalidEvOffset i v last) else mret tt);;
      let az := u8 (v - last) in
      check_azCount (i - 1) az;;
      '(evs, azs, last') ← read_evOffset00 n' (i + 1) v;
      mret (v :: evs, az :: azs, last')
  end.

(** The block that fills [evOffset] and derives [azCount] from it. *)
Definition read_table00 (irCount evCount : Z) : dec (list Z * list Z) :=
  e0 ← next_le16;
  '(evs, azs, last) ← read_evOffset00 (Z.to_nat evCount - 1) 1 e0;
  (if irCount <=? last
   then flag (InvalidIrCount (evCount - 1) last irCount)
   else mret tt);;
  let az := u8 (u32 (irCount - last)) in
  check_azCount (evCount - 1) az;;
  mret (e0 :: evs, azs ++ [az]).

(** What follows the header. *)
Definition load_body00 (filename : string) (rate irCount irSize evCount : Z)
    : dec (option Hrtf) :=
  check_header irSize evCount;;
  f ← get_failed;
  if (f : bool) then mret None else
  datalen ← get_datalen;
  if datalen <? evCount * 2
  then ERR (UnexpectedEnd (evCount * 2) datalen);; mret None else
  '(evOffset, azCount) ← unless_failed ([], []) (read_table00 irCount evCount);
  load_tail rate irCount irSize evCount azCount evOffset filename.

Definition LoadHrtf00 (buf : list byte) (filename : string) : outcome :=
  run buf (
    datalen ← get_datalen;
    if datalen <? 9 then ERR (UnexpectedEnd 9 datalen);; mret None else
    '(rate, irCount, irSize, evCount) ← read_header00;
    load_body00 filename rate irCount irSize evCount).

(** *** Format v1 *)

Definition read_header01 : dec (Z * Z * Z) :=
  rate ← next_le32;
  irSize ← next; consume 1;;
  evCount ← next; consume 1;;
  mret (rate, irSize, evCount).

(** [for(i = 0;i < evCount;i++) if(azCount[i] < MIN_AZ_COUNT || ...)] *)
Fixpoint check_azCount01 (azCount : list byte) (n : nat) (i : Z) : dec unit :=
  match n with
  | O => mret tt
  | S n' =>
      az ← index azCount i;
      check_azCount i az;;
      check_azCount01 azCount n' (i + 1)
  end.

(** The prefix sums of [LoadHrtf01]: [last] is [evOffset[i-1]]; it yields
    [evOffset[i..]] and the final [irCount]. *)
Fixpoint sum_azCount01 (azCount : list byte) (n : nat) (i last irCount : Z)
    : dec (list Z * Z) :=
  match n with
  | O => mret ([], irCount)
  | S n' =>
      azp ← index azCount (i - 1);
      let off := u16 (last + azp) in
      az ← index azCount i;
      '(offs, total) ← sum_azCount01 azCount n' (i + 1) off (u32 (irCount + az));
      mret (off :: offs, total)
  end.

(** The block that derives [evOffset] and [irCount] from [azCount]. *)
Definition read_table01 (azCount : list byte) (evCount : Z) : dec (list Z * Z) :=
  az0 ← index azCount 0;
  '(offs, total) ← sum_azCount01 azCount (Z.to_nat evCount - 1) 1 0 az0;
  mret (0 :: offs, total).

(** What follows the header. *)
Definition load_body01 (filename : string) (rate irSize evCount : Z)
    : dec (option Hrtf) :=
  check_header irSize evCount;;
  f ← get_failed;
  if (f : bool) then mret None else
  datalen ← get_datalen;
  if datalen <? evCount
  then ERR (UnexpectedEnd evCount datalen);; mret None else
  azCount ← get_data;
  skip evCount;;
  consume evCount;;
  unless_failed tt (check_azCount01 azCount (Z.to_nat evCount) 0);;
  '(evOffset, irCount) ← unless_failed ([], 0) (read_table01 azCount evCount);
  load_tail rate irCount irSize evCount
    (ubyte <$> take (Z.to_nat evCount) azCount) evOffset filename.

Definition LoadHrtf01 (buf : list byte) (filename : string) : outcome :=
  run buf (
    datalen ← get_datalen;
    if datalen <? 6 then ERR (UnexpectedEnd 6 datalen);; mret None else
    '(rate, irSize, evCount) ← read_header01;
    load_body01 filename rate irSize evCount).

Local Open Scope Q_scope.

(** ** Floating-point helpers *)

Definition F_PI_2 : Q := F_PI / 2.
Definition F_TAU : Q := F_PI * 2.
Definition DEG2RAD (x : Q) : Q := x * (F_PI / 180).

(** Modelled from the spec: [fastf2i] and [fastf2u] are inline functions of
    [alu.h], which is not among the sources.  The conversion truncates (the
    FPU is kept in round-to-zero mode); [fastf2u] returns the [ALint] of
    [fastf2i] as an [ALuint], so a negative value wraps around. *)
Definition fastf2i (f : Q) : Z := Z.quot (Qnum f) (Z.pos (Qden f)).
Definition fastf2u (f : Q) : Z := u32 (fastf2i f).

Definition floorf (f : Q) : Q := inject_Z (Qfloor f).

(** Modelled from the spec: [lerp] of [alu.h], the linear interpolation
    between [val1] and [val2] with mix factor [mu]. *)
Definition lerp (val1 val2 mu : Q) : Q := val1 + (val2 - val1) * mu.

Definition PassthruCoeff : Q := 32767 * 0.707106781187.

(** [a[i]] for an array of the data set; [None] outside of it. *)
Definition at_ {A} (a : list A) (i : Z) : option A := a !! Z.to_nat i.

(** [a[i] = x] for a caller-supplied array; [None] outside of it. *)
Definition store {A} (a : list A) (i : Z) (x : A) : option (list A) :=
  if decide (Z.to_nat i < length a)%nat then Some (<[Z.to_nat i := x]> a) else None.

(** ** The grid indexers *)

Definition CalcEvIndices (evcount : Z) (ev : Q) : Z * Z * Q :=
  let ev := (F_PI_2 + ev) * inject_Z (u32 (evcount - 1)) / F_PI in
  let evidx0 := fastf2u ev in
  let evidx1 := minu (u32 (evidx0 + 1)) (u32 (evcount - 1)) in
  (evidx0, evidx1, ev - inject_Z evidx0).

(** [% azcount] is undefined for [azcount = 0]. *)
Definition CalcAzIndices (azcount : Z) (az : Q) : option (Z * Z * Q) :=
  if azcount =? 0 then None else
  let az := (F_TAU + az) * inject_Z azcount / F_TAU in
  let azidx0 := (fastf2u az mod azcount)%Z in
  let azidx1 := (u32 (azidx0 + 1) mod azcount)%Z in
  Some (azidx0, azidx1, az - floorf az).

(** ** The interpolator *)

(** The body of the loop over the two elevations: the linear indices of
    the left and right responses and the azimuth factor. *)
Definition lerp_indices (Hrtf : Hrtf) (azimuth : Q) (evidx : Z)
    : option (Z * Z * Z * Z * Q) :=
  azcount ← at_ (azCount Hrtf) evidx;
  evoffset ← at_ (evOffset Hrtf) evidx;
  '(azidx0, azidx1, mu) ← CalcAzIndices azcount azimuth;
  Some (u32 (evoffset + azidx0), u32 (evoffset + azidx1),
        u32 (evoffset + u32 (azcount - azidx0) mod azcount)%Z,
        u32 (evoffset + u32 (azcount - azidx1) mod azcount)%Z, mu).

(** [a[i0]*blend[0] + a[i1]*blend[1] + a[i2]*blend[2] + a[i3]*blend[3]] *)
Definition blended (a : list Z) (idx : Z * Z * Z * Z) (blend : Q * Q * Q * Q)
    : option Q :=
  let '(i0, i1, i2, i3) := idx in
  let '(b0, b1, b2, b3) := blend in
  v0 ← at_ a i0; v1 ← at_ a i1; v2 ← at_ a i2; v3 ← at_ a i3;
  Some (inject_Z v0 * b0 + inject_Z v1 * b1 + inject_Z v2 * b2 + inject_Z v3 * b3).

Definition offset4 (idx : Z * Z * Z * Z) (i : Z) : Z * Z * Z * Z :=
  let '(i0, i1, i2, i3) := idx in
  (u32 (i0 + i), u32 (i1 + i), u32 (i2 + i), u32 (i3 + i))%Z.

Definition scale4 (idx : Z * Z * Z * Z) (k : Z) : Z * Z * Z * Z :=
  let '(i0, i1, i2, i3) := idx in
  (u32 (i0 * k), u32 (i1 * k), u32 (i2 * k), u32 (i3 * k))%Z.

(** One pair [coeffs[i][0]], [coeffs[i][1]]; [base] is [PassthruCoeff] for
    the first sample and 0 for the others. *)
Definition lerp_coeff (Hrtf : Hrtf) (lidx ridx : Z * Z * Z * Z)
    (blend : Q * Q * Q * Q) (dirfact gain base : Q) (i : Z)
    (out : list (Q * Q)) : option (list (Q * Q)) :=
  cl ← blended (coeffs Hrtf) (offset4 lidx i) blend;
  cr ← blended (coeffs Hrtf) (offset4 ridx i) blend;
  store out i (lerp base cl dirfact * gain * (1 / 32767),
               lerp base cr dirfact * gain * (1 / 32767)).

(** [for(i = 1;i < Hrtf->irSize;i++)] *)
Fixpoint lerp_coeffs (Hrtf : Hrtf) (lidx ridx : Z * Z * Z * Z)
    (blend : Q * Q * Q * Q) (dirfact gain : Q) (n : nat) (i : Z)
    (out : list (Q * Q)) : option (list (Q * Q)) :=
  match n with
  | O => Some out
  | S n' =>
      out' ← lerp_coeff Hrtf lidx ridx blend dirfact gain 0 i out;
      lerp_coeffs Hrtf lidx ridx blend dirfact gain n' (i + 1)%Z out'
  end.

(** [for(i = 0;i < Hrtf->irSize;i++) coeffs[i][0] = coeffs[i][1] = 0.0f] *)
Fixpoint zero_coeffs (n : nat) (i : Z) (out : list (Q * Q)) : option (list (Q * Q)) :=
  match n with
  | O => Some out
  | S n' => out' ← store out i (0, 0); zero_coeffs n' (i + 1)%Z out'
  end.

(** [fastf2u(... * dirfact + 0.5f) << HRTFDELAY_BITS] *)
Definition lerp_delay (Hrtf : Hrtf) (idx : Z * Z * Z * Z) (blend : Q * Q * Q * Q)
    (dirfact : Q) : option Z :=
  d ← blended (delays Hrtf) idx blend;
  Some (u32 (Z.shiftl (fastf2u (d * dirfact + 0.5)) HRTFDELAY_BITS)).

(** [coeffs] is the caller's buffer as the call finds it; the result is the
    buffer as the call leaves it and the two delays. *)
Definition GetLerpedHrtfCoeffs (Hrtf : Hrtf) (elevation azimuth spread gain : Q)
    (coeffs : list (Q * Q)) : option (list (Q * Q) * (Z * Z)) :=
  let dirfact := 1 - spread / F_TAU in
  let '(evidx0, evidx1, mu2) := CalcEvIndices (evCount Hrtf) elevation in
  '(l0, l1, r0, r1, mu0) ← lerp_indices Hrtf azimuth evidx0;
  '(l2, l3, r2, r3, mu1) ← lerp_indices Hrtf azimuth evidx1;
  let lidx := (l0, l1, l2, l3) in
  let ridx := (r0, r1, r2, r3) in
  let blend := ((1 - mu0) * (1 - mu2), mu0 * (1 - mu2),
                (1 - mu1) * mu2, mu1 * mu2) in
  delay0 ← lerp_delay Hrtf lidx blend dirfact;
  delay1 ← lerp_delay Hrtf ridx blend dirfact;
  let lidx := scale4 lidx (irSize Hrtf) in
  let ridx := scale4 ridx (irSize Hrtf) in
  coeffs' ←
    (if Qle_bool gain 0.0001
     then zero_coeffs (Z.to_nat (irSize Hrtf)) 0 coeffs
     else
       c0 ← lerp_coeff Hrtf lidx ridx blend dirfact gain PassthruCoeff 0 coeffs;
       lerp_coeffs Hrtf lidx ridx blend dirfact gain
         (Z.to_nat (irSize Hrtf - 1)) 1 c0);
  Some (coeffs', (delay0, delay1)).

(** ** The B-Format builder *)

Definition CubePoints : list (Q * Q) :=
  [ (DEG2RAD 35, DEG2RAD (-45)); (DEG2RAD 35, DEG2RAD 45);
    (DEG2RAD 35, DEG2RAD (-135)); (DEG2RAD 35, DEG2RAD 135);
    (DEG2RAD (-35), DEG2RAD (-45)); (DEG2RAD (-35), DEG2RAD 45);
    (DEG2RAD (-35), DEG2RAD (-135)); (DEG2RAD (-35), DEG2RAD 135) ].

(** [CubeMatrix[c][b][i]]: per cube point, per band, per channel. *)
Definition CubeMatrix : list (list (list Q)) :=
  let k := 0.1443375672 in
  let e := 0.125 in
  [ [ [0.25;  k;  k;  k]; [e;  e;  e;  e] ];
    [ [0.25; -k;  k;  k]; [e; -e;  e;  e] ];
    [ [0.25;  k;  k; -k]; [e;  e;  e; -e] ];
    [ [0.25; -k;  k; -k]; [e; -e;  e; -e] ];
    [ [0.25;  k; -k;  k]; [e;  e; -e;  e] ];
    [ [0.25; -k; -k;  k]; [e; -e; -e;  e] ];
    [ [0.25;  k; -k; -k]; [e;  e; -e; -e] ];
    [ [0.25; -k; -k; -k]; [e; -e; -e; -e] ] ].

(** The nearest grid cell of a cube point: its left and right indices. *)
Definition cube_index (Hrtf : Hrtf) (pt : Q * Q) : option (Z * Z) :=
  let evidx := u32 (Qfloor ((F_PI_2 + pt.1) * inject_Z (u32 (evCount Hrtf - 1))
                            / F_PI + 0.5)) in
  let evidx := minu evidx (u32 (evCount Hrtf - 1)) in
  azcount ← at_ (azCount Hrtf) evidx;
  evoffset ← at_ (evOffset Hrtf) evidx;
  if azcount =? 0 then None else
  let azidx := (u32 (Qfloor ((F_TAU + pt.2) * inject_Z azcount / F_TAU + 0.5))
                mod azcount)%Z in
  Some (u32 (evoffset + azidx), u32 (evoffset + u32 (azcount - azidx) mod azcount)%Z).

(** The first loop over the cube points: [lidx], [ridx] and [min_delay]. *)
Fixpoint cube_indices (Hrtf : Hrtf) (pts : list (Q * Q)) (min_delay : Z)
    : option (list Z * list Z * Z) :=
  match pts with
  | [] => Some ([], [], min_delay)
  | pt :: pts' =>
      '(l, r) ← cube_index Hrtf pt;
      dl ← at_ (delays Hrtf) l;
      dr ← at_ (delays Hrtf) r;
      '(ls, rs, md) ← cube_indices Hrtf pts' (minu min_delay (minu dl dr));
      Some (l :: ls, r :: rs, md)
  end.

(** [for(i = 0;i < Hrtf->irSize;i++) temps[0][i] = fir[i] / 32767.0f;] *)
Fixpoint load_fir (Hrtf : Hrtf) (fir : Z) (n : nat) (i : Z) (temps : list Q)
    : option (list Q) :=
  match n with
  | O => Some temps
  | S n' =>
      c ← at_ (coeffs Hrtf) (fir + i);
      temps' ← store temps i (inject_Z c / 32767);
      load_fir Hrtf fir n' (i + 1)%Z temps'
  end.

(** [for(j = delay;j < HRIR_LENGTH;++j) coeffs[i][j][ear] += temps[b][k++] * w;] *)
Fixpoint add_fir (n : nat) (j k : Z) (w : Q) (ear : bool) (temps : list Q)
    (chan : list (Q * Q)) : option (list (Q * Q)) :=
  match n with
  | O => Some chan
  | S n' =>
      t ← at_ temps k;
      '(l, r) ← at_ chan j;
      chan' ← store chan j (if ear then (l, r + t * w) else (l + t * w, r));
      add_fir n' (j + 1)%Z (k + 1)%Z w ear temps chan'
  end.

(** [for(i = 0;i < NumChannels;++i)] around the loop above, band 0 only
    ([NUM_BANDS] is 1). *)
Fixpoint add_channels (n : nat) (i : Z) (c : Z) (delay : Z) (ear : bool)
    (temps : list Q) (coeffs : list (list (Q * Q))) : option (list (list (Q * Q))) :=
  match n with
  | O => Some coeffs
  | S n' =>
      w ← (row ← at_ CubeMatrix c; band ← at_ row 0; at_ band i);
      chan ← at_ coeffs i;
      chan' ← add_fir (Z.to_nat (HRIR_LENGTH - delay)) delay 0 w ear temps chan;
      coeffs' ← store coeffs i chan';
      add_channels n' (i + 1)%Z c delay ear temps coeffs'
  end.

(** The start position of a contribution: [Hrtf->delays[idx] - min_delay]. *)
Definition shift_of (Hrtf : Hrtf) (min_delay idx : Z) : option Z :=
  d ← at_ (delays Hrtf) idx; Some (u32 (d - min_delay)).

(** One ear of one cube point: convert the response, add it to every
    channel at its delay, and update [max_length]. *)
Definition add_response (Hrtf : Hrtf) (NumChannels : Z) (min_delay : Z) (c : Z)
    (idx : Z) (ear : bool)
    (st : list Q * list (list (Q * Q)) * Z) : option (list Q * list (list (Q * Q)) * Z) :=
  let '(temps, coeffs, max_length) := st in
  temps' ← load_fir Hrtf (u32 (idx * irSize Hrtf)) (Z.to_nat (irSize Hrtf)) 0 temps;
  delay ← shift_of Hrtf min_delay idx;
  coeffs' ← add_channels (Z.to_nat NumChannels) 0 c delay ear temps' coeffs;
  Some (temps', coeffs',
        maxu max_length (minu (u32 (delay + irSize Hrtf)) HRIR_LENGTH)).

(** The second loop over the cube points. *)
Fixpoint add_cube (Hrtf : Hrtf) (NumChannels : Z) (min_delay : Z) (c : Z)
    (lidx ridx : list Z) (st : list Q * list (list (Q * Q)) * Z)
    : option (list Q * list (list (Q * Q)) * Z) :=
  match lidx, ridx with
  | l :: lidx', r :: ridx' =>
      st1 ← add_response Hrtf NumChannels min_delay c l false st;
      st2 ← add_response Hrtf NumChannels min_delay c r true st1;
      add_cube Hrtf NumChannels min_delay (c + 1)%Z lidx' ridx' st2
  | _, _ => Some st
  end.

(** [coeffs] is the caller's bank as the call finds it; the result is the
    bank as the call leaves it and the returned length.  [assert] aborts
    the call, which is [None] as well. *)
Definition BuildBFormatHrtf (Hrtf : Hrtf) (coeffs : list (list (Q * Q)))
    (NumChannels : Z) : option (list (list (Q * Q)) * Z) :=
  if negb (NumChannels =? 4) then None else
  '(lidx, ridx, min_delay) ← cube_indices Hrtf CubePoints HRTF_HISTORY_LENGTH;
  let temps := replicate (Z.to_nat HRIR_LENGTH) (0 : Q) in
  '(_, coeffs', max_length) ←
    add_cube Hrtf NumChannels min_delay 0 lidx ridx (temps, coeffs, 0%Z);
  Some (coeffs', max_length).


Local Close Scope Q_scope.

(** ** The catalogue of data sets

    C strings ([const char*]) are lists of characters without the
    terminating NUL; [al_string] values are [string]s.  The functions
    [al_string_get_cstr] and [al_string_copy_cstr] are the conversions
    between the two. *)

(** Modelled from the spec: [HrtfEntry] is declared in [hrtf.h], which is
    not among the sources: a display name and a pointer to a data set of
    the registry.  The pointer is modelled by the data set it points to; a
    data set is never modified once it is built. *)
Record HrtfEntry := mkHrtfEntry {
  name : string;
  hrtf : Hrtf
}.

(** One constructor per [TRACE], [ERR] and [WARN] line of the catalogue
    functions; [DecoderLine] is a line of the decoder that was called. *)
Inductive line :=
| SkippingDuplicate (fname : string)
| SkippingLoad (fname : string)
| Loading (fname : string)
| CouldNotOpen (fname : string)
| TooShort (fname : string) (len : Z)
| DetectedV1
| DetectedV0
| DecoderLine (e : err)
| InvalidHeader (fname : string) (head : list byte)
| FailedToLoad (fname : string)
| LoadedSupport (rate : Z)
| AddingEntry (n fname : string)
| AddingBuiltIn (n : string)
| DeprecatedOption
| DefaultNotFound (n : string).

(** The global [LoadedHrtfs], a list linked through [next] with the newest
    data set first, and the lines logged so far. *)
Record registry := mkRegistry {
  LoadedHrtfs : list Hrtf;
  lines : list line
}.

Definition say (l : line) (R : registry) : registry :=
  mkRegistry (LoadedHrtfs R) (lines R ++ [l]).

(** [hrtf->next = LoadedHrtfs; LoadedHrtfs = hrtf;] *)
Definition push (h : Hrtf) (R : registry) : registry :=
  mkRegistry (h :: LoadedHrtfs R) (lines R).

Definition magicMarker00 : list byte := String.list_byte_of_string "MinPHR00".
Definition magicMarker01 : list byte := String.list_byte_of_string "MinPHR01".

(** [memcmp(p, q, n) == 0] where both have [n] bytes. *)
Definition memcmp_eq (p q : list byte) (n : nat) : bool :=
  bool_decide (Byte.to_N <$> take n p = Byte.to_N <$> take n q).

(** [VECTOR_FIND_IF]: the first element that satisfies the predicate, with
    its position; [None] is [VECTOR_END]. *)
Definition VECTOR_FIND_IF {A} (p : A → bool) (l : list A) : option (nat * A) :=
  list_find (λ x, Is_true (p x)) l.

(** [al_string_cmp_cstr( *filename, (i)->hrtf->filename) == 0] *)
Definition MATCH_FNAME (fname : string) (i : HrtfEntry) : bool :=
  String.eqb fname (filename (hrtf i)).

(** [al_string_cmp(entry.name, (i)->name) == 0] *)
Definition MATCH_NAME (n : string) (i : HrtfEntry) : bool :=
  String.eqb n (name i).

(** The walk along [LoadedHrtfs] for a data set loaded from [fname]. *)
Fixpoint find_loaded (fname : string) (l : list Hrtf) : option Hrtf :=
  match l with
  | [] => None
  | h :: l' => if String.eqb fname (filename h) then Some h else find_loaded fname l'
  end.

(** The name tried in round [i] of the naming loop: the base name, with
    [snprintf(str, sizeof(str), " #%d", i+1)] appended when [i != 0]. *)
Definition numbered (base : string) (i : nat) : string :=
  if (i =? 0)%nat then base else base +:+ " #" +:+ pretty (S i).

(** The [do ... while(iter != VECTOR_END( *list))] loop that looks for a
    name no entry has yet; [fuel] bounds the number of rounds. *)
Fixpoint pick_name (fuel : nat) (base : string) (entries : list HrtfEntry) (i : nat)
    : option string :=
  match fuel with
  | O => None
  | S fuel' =>
      let n := numbered base i in
      match VECTOR_FIND_IF (MATCH_NAME n) entries with
      | Some _ => pick_name fuel' base entries (S i)
      | None => Some n
      end
  end.

(** From [skip_load:] to [VECTOR_PUSH_BACK( *list, entry)]. *)
Definition push_entry (entries : list HrtfEntry) (base : string) (h : Hrtf)
    (adding : string → line) (R : registry) : option (list HrtfEntry * registry) :=
  n ← pick_name (S (length entries)) base entries 0;
  Some (entries ++ [mkHrtfEntry n h], say (adding n) R).

(** A call of a decoder on what follows the marker. *)
Definition call_decoder (LoadHrtf : list byte → string → outcome)
    (data : list byte) (fname : string) (R : registry)
    : option (option Hrtf * registry) :=
  match LoadHrtf (drop 8 data) fname with
  | Loaded h => Some (Some h, R)
  | Rejected l => Some (None, mkRegistry (LoadedHrtfs R) (lines R ++ (DecoderLine <$> l)))
  | OutOfBounds => None
  end.

(** The chain of [memcmp] tests on a buffer of at least eight bytes. *)
Definition detect_format (data : list byte) (fname : string) (R : registry)
    : option (option Hrtf * registry) :=
  if memcmp_eq data magicMarker01 8
  then call_decoder LoadHrtf01 data fname (say DetectedV1 R)
  else if memcmp_eq data magicMarker00 8
  then call_decoder LoadHrtf00 data fname (say DetectedV0 R)
  else Some (None, say (InvalidHeader fname (take 8 data)) R).

(** [AddBuiltInEntry(list, data, datalen, filename)] with [datalen] the
    length of [data].  [None] is undefined behaviour. *)
Definition AddBuiltInEntry (entries : list HrtfEntry) (data : list byte)
    (fname : string) (R : registry) : option (list HrtfEntry * registry) :=
  match VECTOR_FIND_IF (MATCH_FNAME fname) entries with
  | Some _ => Some (entries, say (SkippingDuplicate fname) R)
  | None =>
      match find_loaded fname (LoadedHrtfs R) with
      | Some h => push_entry entries fname h AddingBuiltIn (say (SkippingLoad fname) R)
      | None =>
          let R := say (Loading fname) R in
          let datalen := Z.of_nat (length data) in
          if datalen <? 8 then Some (entries, say (TooShort fname datalen) R) else
          '(loaded, R) ← detect_format data fname R;
          match loaded with
          | None => Some (entries, say (FailedToLoad fname) R)
          | Some h =>
              push_entry entries fname h AddingBuiltIn
                (say (LoadedSupport (sampleRate h)) (push h R))
          end
      end
  end.

(** [strchr(s, c)] and [strrchr(s, c)] for [c] other than NUL: the rest of
    the string from the first, or the last, [c]; [None] is [NULL]. *)
Fixpoint strchr (s : list ascii) (c : ascii) : option (list ascii) :=
  match s with
  | [] => None
  | a :: s' => if Ascii.eqb a c then Some s else strchr s' c
  end.

Fixpoint strrchr (s : list ascii) (c : ascii) : option (list ascii) :=
  match s with
  | [] => None
  | a :: s' =>
      match strrchr s' c with
      | Some r => Some r
      | None => if Ascii.eqb a c then Some s else None
      end
  end.

(** The characters of [s] in front of the position [e], a pointer into
    [s]: the range [[s, e)]. *)
Definition range (s e : list ascii) : list ascii := take (length s - length e) s.

(** The display name [AddFileEntry] derives from a file name: what follows
    the last ['/'], or else the last backslash, up to the last ['.']. *)
Definition display_name (fname : string) : string :=
  let cstr := String.list_ascii_of_string fname in
  let name :=
    match strrchr cstr "/"%char with
    | Some p => drop 1 p
    | None =>
        match strrchr cstr "\"%char with
        | Some p => drop 1 p
        | None => cstr
        end
    end in
  match strrchr name "."%char with
  | None => String.string_of_list_ascii name
  | Some ext => String.string_of_list_ascii (range name ext)
  end.

(** [while(isspace( *pathlist) || *pathlist == ',') pathlist++;] *)
Fixpoint skip_separators (p : list ascii) : list ascii :=
  match p with
  | c :: p' =>
      if Ascii.is_space c || Ascii.eqb c ","%char then skip_separators p' else p
  | [] => []
  end.

Fixpoint skip_spaces (p : list ascii) : list ascii :=
  match p with
  | c :: p' => if Ascii.is_space c then skip_spaces p' else p
  | [] => []
  end.

(** [while(end != pathlist && isspace( *(end-1))) --end;] on the range
    [[pathlist, end)]. *)
Definition trim_end (r : list ascii) : list ascii :=
  reverse (skip_spaces (reverse r)).

(** The loop over the comma-separated [hrtf-paths]: [act] is what is done
    with a path, [pathlist] the cursor ([None] for [NULL]); the result
    carries [usedefaults].  [fuel] bounds the number of rounds. *)
Fixpoint scan_paths {St} (act : string → St → option St) (fuel : nat)
    (pathlist : option (list ascii)) (usedefaults : bool) (s : St)
    : option (St * bool) :=
  match pathlist with
  | None | Some [] => Some (s, usedefaults)
  | Some p =>
      match fuel with
      | O => None
      | S fuel' =>
          match skip_separators p with
          | [] => scan_paths act fuel' (Some []) usedefaults s
          | p =>
              let next := strchr p ","%char in
              let e := match next with Some n => n | None => [] end in
              let usedefaults := if next is Some _ then usedefaults else false in
              let e := trim_end (range p e) in
              s' ← (match e with
                    | [] => Some s
                    | _ => act (String.string_of_list_ascii e) s
                    end);
              scan_paths act fuel' (drop 1 <$> next) usedefaults s'
          end
      end
  end.

(** The block that moves the preferred entry to the front: [memmove] shifts
    the entries before it up by one. *)
Definition prefer (entries : list HrtfEntry) (defaulthrtf : string) (R : registry)
    : list HrtfEntry * registry :=
  match VECTOR_FIND_IF (λ i, String.eqb (name i) defaulthrtf) entries with
  | Some (S k, entry) => (entry :: take (S k) entries ++ drop (S (S k)) entries, R)
  | _ => (entries, say (DefaultNotFound defaulthrtf) R)
  end.

Definition IDR_DEFAULT_44100_MHR : Z := 0.
Definition IDR_DEFAULT_48000_MHR : Z := 1.

(** [FreeHrtfs()]: every data set is released and the registry is empty. *)
Definition FreeHrtfs (R : registry) : registry := mkRegistry [] (lines R).

Section Catalogue.

(** [MapFileToMem], [SearchDataFiles], [ConfigValueStr] and
    [ConfigValueExists] belong to files that are not among the sources, and
    which of the three definitions of [GetResource] is compiled depends on
    the build: they are parameters.  [MapFileToMem] yields the bytes of a
    file, or [None] for a null mapping; [GetResource] yields the embedded
    bytes, or [None] for a null pointer; [ConfigValueStr devname key]
    yields the configured string, if any. *)
Variable MapFileToMem : string → option (list byte).
Variable SearchDataFiles : string → string → list string.
Variable ConfigValueStr : string → string → option string.
Variable ConfigValueExists : string → string → bool.
Variable GetResource : Z → option (list byte).

(** [AddFileEntry(list, filename)]. *)
Definition AddFileEntry (entries : list HrtfEntry) (fname : string) (R : registry)
    : option (list HrtfEntry * registry) :=
  match VECTOR_FIND_IF (MATCH_FNAME fname) entries with
  | Some _ => Some (entries, say (SkippingDuplicate fname) R)
  | None =>
      match find_loaded fname (LoadedHrtfs R) with
      | Some h =>
          push_entry entries (display_name fname) h (λ n, AddingEntry n fname)
            (say (SkippingLoad fname) R)
      | None =>
          let R := say (Loading fname) R in
          match MapFileToMem fname with
          | None => Some (entries, say (CouldNotOpen fname) R)
          | Some data =>
              let len := Z.of_nat (length data) in
              '(loaded, R) ←
                (if len <? 8 then Some (None, say (TooShort fname len) R)
                 else detect_format data fname R);
              match loaded with
              | None => Some (entries, say (FailedToLoad fname) R)
              | Some h =>
                  push_entry entries (display_name fname) h (λ n, AddingEntry n fname)
                    (say (LoadedSupport (sampleRate h)) (push h R))
              end
          end
      end
  end.

(** [VECTOR_FOR_EACH_PARAMS(al_string, flist, AddFileEntry, &list)] *)
Fixpoint add_files (flist : list string) (entries : list HrtfEntry) (R : registry)
    : option (list HrtfEntry * registry) :=
  match flist with
  | [] => Some (entries, R)
  | f :: flist' =>
      '(entries', R') ← AddFileEntry entries f R;
      add_files flist' entries' R'
  end.

(** [rdata = GetResource(id, &rsize); if(rdata != NULL && rsize > 0) ...] *)
Definition add_resource (id : Z) (ename : string) (entries : list HrtfEntry)
    (R : registry) : option (list HrtfEntry * registry) :=
  match GetResource id with
  | Some rdata =>
      if 0 <? Z.of_nat (length rdata) then AddBuiltInEntry entries rdata ename R
      else Some (entries, R)
  | None => Some (entries, R)
  end.

(** [EnumerateHrtf(devname)]: the catalogue and the registry it leaves. *)
Definition EnumerateHrtf (devname : string) (R : registry)
    : option (list HrtfEntry * registry) :=
  '(entries, R, usedefaults) ←
    match ConfigValueStr devname "hrtf-paths" with
    | Some pathlist =>
        let p := String.list_ascii_of_string pathlist in
        scan_paths
          (λ pname '(entries, R), add_files (SearchDataFiles ".mhr" pname) entries R)
          (S (length p)) (Some p) true ([], R)
    | None =>
        Some ([],
              if ConfigValueExists devname "hrtf_tables"
              then say DeprecatedOption R else R,
              true)
    end;
  '(entries, R) ←
    (if (usedefaults : bool) then
       '(entries, R) ← add_files (SearchDataFiles ".mhr" "openal/hrtf") entries R;
       '(entries, R) ← add_resource IDR_DEFAULT_44100_MHR "Built-In 44100hz" entries R;
       add_resource IDR_DEFAULT_48000_MHR "Built-In 48000hz" entries R
     else Some (entries, R));
  if (1 <? length entries)%nat then
    match ConfigValueStr devname "default-hrtf" with
    | Some defaulthrtf => Some (prefer entries defaulthrtf R)
    | None => Some (entries, R)
    end
  else Some (entries, R).

End Catalogue.

(** ** What a loaded data set satisfies *)

(** A ring of [az] directions that starts at [off] lies inside a table of
    [total] directions. *)
Definition ring_ok (total off az : Z) : Prop :=
  MIN_AZ_COUNT ≤ az ≤ MAX_AZ_COUNT ∧ 0 ≤ off ∧ off + az ≤ total.

Record Hrtf_valid (h : Hrtf) : Prop := {
  valid_irSize : MIN_IR_SIZE ≤ irSize h ≤ MAX_IR_SIZE ∧ irSize h mod MOD_IR_SIZE = 0;
  valid_evCount : MIN_EV_COUNT ≤ evCount h ≤ MAX_EV_COUNT;
  valid_rows : Z.of_nat (length (azCount h)) = evCount h;
  valid_rings : Forall2 (ring_ok (irCount h)) (evOffset h) (azCount h);
  valid_irCount : irCount h ≤ 65535;
  valid_coeffs : Z.of_nat (length (coeffs h)) = irCount h * irSize h;
  valid_delays : Forall (λ d, 0 ≤ d ≤ maxDelay) (delays h)
}.

(** Equality of the rationals that stand for [ALfloat] values is [Qeq]:
    two coefficient pairs, two arrays of them, two sets of weights. *)
Definition pair_eq (p q : Q * Q) : Prop := (p.1 == q.1)%Q ∧ (p.2 == q.2)%Q.



(** [GetLerpedHrtfCoeffs] from the point where the indices are known. *)
Definition lerp_core (Hrtf : Hrtf) (spread gain mu2 : Q)
    (i0 i1 : Z * Z * Z * Z * Q) (coeffs : list (Q * Q))
    : option (list (Q * Q) * (Z * Z)) :=
  let dirfact := (1 - spread / F_TAU)%Q in
  let '(l0, l1, r0, r1, mu0) := i0 in
  let '(l2, l3, r2, r3, mu1) := i1 in
  let lidx := (l0, l1, l2, l3) in
  let ridx := (r0, r1, r2, r3) in
  let blend := ((1 - mu0) * (1 - mu2), mu0 * (1 - mu2),
                (1 - mu1) * mu2, mu1 * mu2)%Q in
  delay0 ← lerp_delay Hrtf lidx blend dirfact;
  delay1 ← lerp_delay Hrtf ridx blend dirfact;
  let lidx := scale4 lidx (irSize Hrtf) in
  let ridx := scale4 ridx (irSize Hrtf) in
  coeffs' ←
    (if Qle_bool gain 0.0001%Q
     then zero_coeffs (Z.to_nat (irSize Hrtf)) 0 coeffs
     else
       c0 ← lerp_coeff Hrtf lidx ridx blend dirfact gain PassthruCoeff 0 coeffs;
       lerp_coeffs Hrtf lidx ridx blend dirfact gain
         (Z.to_nat (irSize Hrtf - 1)) 1 c0);
  Some (coeffs', (delay0, delay1)).

(** The shape of the caller's filter bank: four channels of [HRIR_LENGTH]
    coefficient pairs. *)
Definition bank_ok (coeffs : list (list (Q * Q))) : Prop :=
  length coeffs = 4%nat ∧ Forall (λ ch, length ch = Z.to_nat HRIR_LENGTH) coeffs.

(** Four cells of the table. *)
Definition cells_ok (h : Hrtf) (idx : Z * Z * Z * Z) : Prop :=
  let '(i0, i1, i2, i3) := idx in
  0 ≤ i0 < irCount h ∧ 0 ≤ i1 < irCount h ∧ 0 ≤ i2 < irCount h ∧ 0 ≤ i3 < irCount h.

(** The offsets [os] that follow [o], the ring sizes [azs] that v0 derives
    from them, and the last offset. *)
Fixpoint derived00 (o : Z) (os azs : list Z) (last : Z) : Prop :=
  match os, azs with
  | [], [] => last = o
  | o' :: os', az :: azs' =>
      o < o' ∧ az = u8 (o' - o) ∧ MIN_AZ_COUNT ≤ az ≤ MAX_AZ_COUNT
      ∧ derived00 o' os' azs' last
  | _, _ => False
  end.

(** The offsets that follow [o] when v1 sums the ring sizes [azs]. *)
Fixpoint summed01 (o : Z) (azs : list Z) : list Z :=
  match azs with
  | [] => []
  | az :: azs' => o :: summed01 (o + az) azs'
  end.

(** The number of directions v1 arrives at from [o] by adding [azs]. *)
Fixpoint summed_to (o : Z) (azs : list Z) : Z :=
  match azs with
  | [] => o
  | az :: azs' => summed_to (o + az) azs'
  end.

(** The lines the header checks log. *)
Definition header_errors (irSize evCount : Z) : list err :=
  (if bad_irSize irSize then [UnsupportedIrSize irSize] else [])
  ++ (if bad_evCount evCount then [UnsupportedEvCount evCount] else []).

(** The sample rate of a header. *)
Definition rate_of (r0 r1 r2 r3 : byte) : Z :=
  u32 (Z.lor (Z.lor (Z.lor (ubyte r0) (Z.shiftl (ubyte r1) 8))
                (Z.shiftl (ubyte r2) 16)) (Z.shiftl (ubyte r3) 24)).

(** ** Concrete buffers and data sets *)

(** A byte written as a number. *)
Definition byte_of_Z (x : Z) : byte := default x00 (Byte.of_N (Z.to_N x)).

(** The v1 buffer of the spec's example: 44100 Hz, [irSize] 8, 5 rings of
    4, 8, 8, 8 and 4 directions, every coefficient 257, every delay 3. *)
Definition v1_example : list byte :=
  byte_of_Z <$> ([68; 172; 0; 0; 8; 5; 4; 8; 8; 8; 4]
                 ++ replicate (2 * 8 * 32) 1 ++ replicate 32 3).

Definition hrtf_example : Hrtf :=
  mkHrtf 44100 8 5 [4; 8; 8; 8; 4] [0; 4; 12; 20; 28]
    (replicate (8 * 32) 257) (replicate 32 3) "example".

(** A v1 buffer with 5 rings of 3 directions whose delays are 0 to 14. *)
Definition v1_graded : list byte :=
  byte_of_Z <$> ([68; 172; 0; 0; 8; 5; 3; 3; 3; 3; 3]
                 ++ replicate (2 * 8 * 15) 1
                 ++ [0; 1; 2; 3; 4; 5; 6; 7; 8; 9; 10; 11; 12; 13; 14]).

Definition hrtf_graded : Hrtf :=
  mkHrtf 44100 8 5 [3; 3; 3; 3; 3] [0; 3; 6; 9; 12]
    (replicate (8 * 15) 257) [0; 1; 2; 3; 4; 5; 6; 7; 8; 9; 10; 11; 12; 13; 14]
    "graded".

(** A v0 buffer: [irCount] 261, [irSize] 8, 5 rings at the offsets 0, 257,
    258, 259 and 260. *)
Definition v0_wide : list byte :=
  byte_of_Z <$> ([68; 172; 0; 0; 5; 1; 8; 0; 5; 0; 0; 1; 1; 2; 1; 3; 1; 4; 1]
                 ++ replicate (2 * 8 * 261) 0 ++ replicate 261 0).

(** A v0 buffer: [irCount] 261, [irSize] 8, 5 rings at the offsets 0, 1, 2,
    3 and 4. *)
Definition v0_wide_last : list byte :=
  byte_of_Z <$> ([68; 172; 0; 0; 5; 1; 8; 0; 5; 0; 0; 1; 0; 2; 0; 3; 0; 4; 0]
                 ++ replicate (2 * 8 * 261) 0 ++ replicate 261 0).

(** A v0 buffer: [irCount] 8, [irSize] 8, 5 rings at the offsets 3, 4, 5, 6
    and 7. *)
Definition v0_shifted : list byte :=
  byte_of_Z <$> ([68; 172; 0; 0; 8; 0; 8; 0; 5; 3; 0; 4; 0; 5; 0; 6; 0; 7; 0]
                 ++ replicate (2 * 8 * 8) 0 ++ replicate 8 0).

(** A v0 header alone: [irCount] 8, [irSize] 7, [evCount] 5. *)
Definition v0_bad_size : list byte :=
  byte_of_Z <$> [68; 172; 0; 0; 8; 0; 7; 0; 5].

(** The binary32 number next to π, and an output buffer of eight pairs. *)
Definition pi32 : Q := 13176795 # 4194304.

Definition out8 : list (Q * Q) := replicate 8 (7%Q, 7%Q).

(** An empty filter bank of four channels of 128 pairs. *)
Definition bank128 : list (list (Q * Q)) := replicate 4 (replicate 128 (0%Q, 0%Q)).

(** A decoding step that logs nothing but lines satisfying [P]. *)
Definition logs_only (P : err → Prop) {A} (m : dec A) : Prop :=
  ∀ s a s', m s = Some (a, s') → ∃ extra, log s' = log s ++ extra ∧ Forall P extra.

(** The lines other than the one about the size of the responses. *)
Definition not_irSize_line (e : err) : Prop :=
  match e with UnsupportedIrSize _ => False | _ => True end.

(** ** The layout of the two formats

    What the decoders compute, written as functions of the whole buffer. *)

(** The signed and the unsigned little-endian 16-bit values of a run of
    bytes. *)
Fixpoint shorts (l : list byte) : list Z :=
  match l with
  | lo :: hi :: l' => i16 (le16 (ubyte lo) (ubyte hi)) :: shorts l'
  | _ => []
  end.

Fixpoint words (l : list byte) : list Z :=
  match l with
  | lo :: hi :: l' => le16 (ubyte lo) (ubyte hi) :: words l'
  | _ => []
  end.

Definition delays_ok (ds : list byte) : bool :=
  forallb (λ b, ubyte b <=? maxDelay) ds.

Definition rings_ok (azs : list Z) : bool :=
  forallb (λ az, negb (bad_azCount az)) azs.

(** The coefficients and the delays that follow the tables. *)
Definition tail_of (rate irCount irSize evCount : Z) (azCount evOffset : list Z)
    (name : string) (body : list byte) : option Hrtf :=
  let n := Z.to_nat irCount in
  let m := Z.to_nat irSize in
  let ds := take n (drop (2 * (n * m)) body) in
  if (2 * irSize * irCount + irCount <=? Z.of_nat (length body)) && delays_ok ds
  then Some (mkHrtf rate irSize evCount azCount evOffset
               (shorts (take (2 * (n * m)) body)) (ubyte <$> ds) name)
  else None.

(** Format v1: rate, [irSize], [evCount], the ring sizes, then the tail. *)
Definition layout01 (buf : list byte) (name : string) : option Hrtf :=
  match buf with
  | r0 :: r1 :: r2 :: r3 :: bsz :: bev :: rest =>
      let sz := ubyte bsz in
      let ec := ubyte bev in
      let azs := ubyte <$> take (Z.to_nat ec) rest in
      if negb (bad_irSize sz || bad_evCount ec)
         && (ec <=? Z.of_nat (length rest)) && rings_ok azs
      then tail_of (rate_of r0 r1 r2 r3) (summed_to 0 azs) sz ec azs
             (summed01 0 azs) name (drop (Z.to_nat ec) rest)
      else None
  | _ => None
  end.

(** The ring sizes v0 derives from the offsets that follow [o], each
    narrowed to an [ALubyte], and the test that goes with each. *)
Fixpoint diffs00 (o : Z) (os : list Z) : list Z :=
  match os with
  | [] => []
  | o' :: os' => u8 (o' - o) :: diffs00 o' os'
  end.

Fixpoint rising00 (o : Z) (os : list Z) : bool :=
  match os with
  | [] => true
  | o' :: os' => (o <? o') && negb (bad_azCount (u8 (o' - o))) && rising00 o' os'
  end.

(** Format v0: rate, [irCount], [irSize], [evCount], the offsets, then the
    tail. *)
Definition layout00 (buf : list byte) (name : string) : option Hrtf :=
  match buf with
  | r0 :: r1 :: r2 :: r3 :: c0 :: c1 :: z0 :: z1 :: bev :: rest =>
      let ic := le16 (ubyte c0) (ubyte c1) in
      let sz := le16 (ubyte z0) (ubyte z1) in
      let ec := ubyte bev in
      match words (take (Z.to_nat (2 * ec)) rest) with
      | e0 :: evs =>
          let last := List.last evs e0 in
          let az := u8 (u32 (ic - last)) in
          if negb (bad_irSize sz || bad_evCount ec)
             && (2 * ec <=? Z.of_nat (length rest))
             && rising00 e0 evs && (last <? ic) && negb (bad_azCount az)
          then tail_of (rate_of r0 r1 r2 r3) ic sz ec (diffs00 e0 evs ++ [az])
                 (e0 :: evs) name (drop (Z.to_nat (2 * ec)) rest)
          else None
      | [] => None
      end
  | _ => None
  end.

(** ** What the catalogue functions maintain

    Display names and file names are pairwise distinct, every entry refers
    to a data set of the registry, the registry holds one data set per file
    name, and every data set in it is valid. *)
Definition files (entries : list HrtfEntry) : list string :=
  (λ e, filename (hrtf e)) <$> entries.

Record catalogue_ok (entries : list HrtfEntry) (R : registry) : Prop := {
  names_unique : NoDup (name <$> entries);
  files_unique : NoDup (files entries);
  entries_loaded : Forall (λ e, hrtf e ∈ LoadedHrtfs R) entries;
  loaded_unique : NoDup (filename <$> LoadedHrtfs R);
  loaded_valid : Forall Hrtf_valid (LoadedHrtfs R)
}.

(** ** The path list, written as a function of the whole string *)

(** The comma-separated fields of a string. *)
Fixpoint fields (p : list ascii) : list (list ascii) :=
  match p with
  | [] => [[]]
  | c :: p' =>
      if Ascii.eqb c ","%char then [] :: fields p'
      else match fields p' with
           | f :: fs => (c :: f) :: fs
           | [] => [[c]]
           end
  end.

(** A field without the white space around it. *)
Definition trim (f : list ascii) : list ascii := trim_end (skip_spaces f).

Definition trimmed_fields (p : list ascii) : list (list ascii) := trim <$> fields p.

(** The paths of a list: its fields, trimmed, without the empty ones. *)
Definition paths_of (p : list ascii) : list string :=
  String.string_of_list_ascii <$> filter (λ f, f ≠ []) (trimmed_fields p).

(** Whether the last field is blank: nothing but white space follows the
    last comma. *)
Definition blank_tail (p : list ascii) : bool :=
  match last (trimmed_fields p) with
  | Some (_ :: _) => false
  | _ => true
  end.

(** [act] applied to the items of a list in order. *)
Fixpoint run_all {St} (act : string → St → option St) (items : list string) (s : St)
    : option St :=
  match items with
  | [] => Some s
  | i :: items' => s' ← act i s; run_all act items' s'
  end.

(** What the enumeration keeps while it runs: the invariant, and the data
    sets that were loaded before. *)
Definition kept (R0 : registry) (st : list HrtfEntry * registry) : Prop :=
  catalogue_ok st.1 st.2 ∧ LoadedHrtfs R0 `suffix_of` LoadedHrtfs st.2.

(** A convex combination of four values of a table: what the bilinear
    blend of four grid cells is. *)
Definition mix_of (vals : list Z) (c : Q) : Prop :=
  ∃ v0 v1 v2 v3 b0 b1 b2 b3,
    v0 ∈ vals ∧ v1 ∈ vals ∧ v2 ∈ vals ∧ v3 ∈ vals
    ∧ (0 <= b0)%Q ∧ (0 <= b1)%Q ∧ (0 <= b2)%Q ∧ (0 <= b3)%Q
    ∧ (b0 + b1 + b2 + b3 == 1)%Q
    ∧ c = (inject_Z v0 * b0 + inject_Z v1 * b1 + inject_Z v2 * b2 + inject_Z v3 * b3)%Q.

(** ** A concrete file system and catalogue *)

(** The data set of [v1_example] when it is read from a file. *)
Definition hrtf_file : Hrtf :=
  mkHrtf 44100 8 5 [4; 8; 8; 8; 4] [0; 4; 12; 20; 28]
    (replicate (8 * 32) 257) (replicate 32 3) "dir/example.mhr".

(** A file system with that one file, and an empty one. *)
Definition one_file (fname : string) : option (list byte) :=
  if String.eqb fname "dir/example.mhr" then Some (magicMarker01 ++ v1_example)
  else None.

Definition no_file (fname : string) : option (list byte) := None.

(** The search finds the file in the default directory only. *)
Definition one_dir (ext dir : string) : list string :=
  if String.eqb dir "openal/hrtf" then ["dir/example.mhr"] else [].

Definition no_config (devname key : string) : option string := None.
Definition no_option (devname key : string) : bool := false.

(** The graded data set embedded as the 44100 Hz resource. *)
Definition one_resource (id : Z) : option (list byte) :=
  if id =? 0 then Some (magicMarker01 ++ v1_graded) else None.

Definition empty_registry : registry := mkRegistry [] [].

(** The registry once the file is loaded, and its catalogue entry. *)
Definition file_registry : registry :=
  mkRegistry [hrtf_file]
    [Loading "dir/example.mhr"; DetectedV1; LoadedSupport 44100;
     AddingEntry "example" "dir/example.mhr"].

Definition file_entry : HrtfEntry := mkHrtfEntry "example" hrtf_file.

(** ** Where the entries of a catalogue come from *)

(** [f] is one of the files the search reports for one of [dirs]. *)
Definition found_in (SearchDataFiles : string → string → list string)
    (dirs : list string) (f : string) : Prop :=
  ∃ dir, dir ∈ dirs ∧ f ∈ SearchDataFiles ".mhr" dir.

(** [f] is the name of an embedded resource that is present. *)
Definition built_in (GetResource : Z → option (list byte)) (f : string) : Prop :=
  (f = "Built-In 44100hz" ∧ is_Some (GetResource IDR_DEFAULT_44100_MHR))
  ∨ (f = "Built-In 48000hz" ∧ is_Some (GetResource IDR_DEFAULT_48000_MHR)).

(** The invariant of the enumeration, with the file names of the entries
    drawn from [A]. *)
Definition kept_from (A : string → Prop) (R0 : registry)
    (st : list HrtfEntry * registry) : Prop :=
  kept R0 st ∧ Forall (λ e, A (filename (hrtf e))) st.1.

(** A configuration that asks for the built-in data set first. *)
Definition prefer_built_in (devname key : string) : option string :=
  if String.eqb key "default-hrtf" then Some "Built-In 44100hz" else None.

(** A configuration that lists one directory and nothing else. *)
Definition only_dir (devname key : string) : option string :=
  if String.eqb key "hrtf-paths" then Some " openal/hrtf " else None.

(** * Properties of the decoders *)

(** ** Bytes and words *)

Lemma ubyte_range b : 0 ≤ ubyte b ≤ 255.
Proof. unfold ubyte. pose proof (Byte.to_N_bounded b). lia. Qed.

Lemma le16_range lo hi :
  0 ≤ lo ≤ 255 → 0 ≤ hi ≤ 255 → 0 ≤ le16 lo hi ≤ 65535.
Proof.
  intros Hlo Hhi. unfold le16.
  assert (Hs : Z.shiftl hi 8 = hi * 256) by (rewrite Z.shiftl_mul_pow2; lia).
  rewrite Hs. split.
  - apply Z.lor_nonneg. lia.
  - pose proof (Z.add_lor_land lo (hi * 256)) as Hadd.
    assert (0 ≤ Z.land lo (hi * 256)) by (apply Z.land_nonneg; lia).
    lia.
Qed.

Lemma le16_ubyte lo hi : 0 ≤ le16 (ubyte lo) (ubyte hi) ≤ 65535.
Proof. apply le16_range; apply ubyte_range. Qed.

Lemma u8_small x : 0 ≤ x < 256 → u8 x = x.
Proof. intros. unfold u8. apply Z.mod_small. lia. Qed.

Lemma u16_small x : 0 ≤ x < 65536 → u16 x = x.
Proof. intros. unfold u16. apply Z.mod_small. lia. Qed.

Lemma u32_small x : 0 ≤ x < 4294967296 → u32 x = x.
Proof. intros. unfold u32. apply Z.mod_small. lia. Qed.

Lemma u8_le x : 0 ≤ x → 0 ≤ u8 x ≤ x.
Proof.
  intros. unfold u8. split; [apply Z.mod_pos_bound; lia|].
  apply Z.mod_le; lia.
Qed.

(** ** Single steps *)

Lemma next_cons b d dl f lg :
  next (mkDstate (b :: d) dl f lg) = Some (ubyte b, mkDstate d dl f lg).
Proof. reflexivity. Qed.

Lemma next_le16_cons lo hi d dl f lg :
  next_le16 (mkDstate (lo :: hi :: d) dl f lg)
  = Some (le16 (ubyte lo) (ubyte hi), mkDstate d (dl - 2) f lg).
Proof. reflexivity. Qed.

Lemma flag_eq e d dl f lg :
  flag e (mkDstate d dl f lg) = Some (tt, mkDstate d dl true (lg ++ [e])).
Proof. reflexivity. Qed.

Lemma bind_eq {A B} (m : dec A) (k : A → dec B) s a s' :
  m s = Some (a, s') → (m ≫= k) s = k a s'.
Proof. intros H. unfold mbind, dec_bind. now rewrite H. Qed.

Lemma bind_mret {A B} (a : A) (k : A → dec B) s : (mret a ≫= k) s = k a s.
Proof. reflexivity. Qed.

Lemma bind_assoc {A B C} (m : dec A) (f : A → dec B) (g : B → dec C) s :
  ((m ≫= f) ≫= g) s = (m ≫= λ a, f a ≫= g) s.
Proof. unfold mbind, dec_bind. destruct (m s) as [[a s']|]; reflexivity. Qed.

Lemma bind_get_failed {B} (k : bool → dec B) s :
  (get_failed ≫= k) s = k (failed s) s.
Proof. reflexivity. Qed.

Lemma bind_get_datalen {B} (k : Z → dec B) s :
  (get_datalen ≫= k) s = k (datalen s) s.
Proof. reflexivity. Qed.

Lemma bind_get_data {B} (k : list byte → dec B) s :
  (get_data ≫= k) s = k (data s) s.
Proof. reflexivity. Qed.

Lemma bind_skip {B} n (k : unit → dec B) s :
  (skip n ≫= k) s
  = k tt (mkDstate (drop (Z.to_nat n) (data s)) (datalen s) (failed s) (log s)).
Proof. reflexivity. Qed.

Lemma bind_consume {B} n (k : unit → dec B) s :
  (consume n ≫= k) s = k tt (mkDstate (data s) (datalen s - n) (failed s) (log s)).
Proof. reflexivity. Qed.

Lemma bind_flag {B} e (k : unit → dec B) s :
  (flag e ≫= k) s = k tt (mkDstate (data s) (datalen s) true (log s ++ [e])).
Proof. reflexivity. Qed.

Lemma bind_ERR {B} e (k : unit → dec B) s :
  (ERR e ≫= k) s = k tt (mkDstate (data s) (datalen s) (failed s) (log s ++ [e])).
Proof. reflexivity. Qed.

Lemma bind_unless_failed {A B} (d : A) (m : dec A) (k : A → dec B) s :
  (unless_failed d m ≫= k) s = if failed s then k d s else (m ≫= k) s.
Proof.
  unfold unless_failed. rewrite bind_assoc, bind_get_failed.
  destruct (failed s); reflexivity.
Qed.

Lemma mret_eq {A} (a : A) (s : dstate) : (mret a : dec A) s = Some (a, s).
Proof. reflexivity. Qed.

Lemma flag_run e s :
  flag e s = Some (tt, mkDstate (data s) (datalen s) true (log s ++ [e])).
Proof. reflexivity. Qed.

(** Run the straight-line part of a decoder on a state. *)
Ltac dec_step :=
  repeat first
    [ rewrite bind_assoc | rewrite bind_get_failed | rewrite bind_get_datalen | rewrite bind_get_data
    | rewrite bind_skip | rewrite bind_consume | rewrite bind_flag
    | rewrite bind_ERR | rewrite bind_mret | rewrite bind_unless_failed
    | rewrite mret_eq | rewrite flag_run
    | progress cbn [data datalen failed log] ].

(** Two results that differ in how [datalen] is written. *)
Lemma same_datalen {A} (a : A) d dl dl' f lg :
  dl = dl' → Some (a, mkDstate d dl f lg) = Some (a, mkDstate d dl' f lg).
Proof. now intros ->. Qed.

Ltac same_state := unfold mret, dec_ret; apply same_datalen; lia.

(** ** The coefficient and delay loops *)

Lemma read_ir_app n : ∀ pre suf dl f lg,
  length pre = (2 * n)%nat →
  ∃ cs, length cs = n ∧
    read_ir n (mkDstate (pre ++ suf) dl f lg)
    = Some (cs, mkDstate suf (dl - 2 * Z.of_nat n) f lg).
Proof.
  induction n as [|n IH]; intros pre suf dl f lg Hlen.
  - destruct pre; [|discriminate]. exists []. split; [done|].
    same_state.
  - destruct pre as [|lo [|hi pre]]; simpl in Hlen; try lia.
    destruct (IH pre suf (dl - 2) f lg) as (cs & Hcs & Heq); [lia|].
    exists (i16 (le16 (ubyte lo) (ubyte hi)) :: cs). split; [simpl; lia|].
    cbn [read_ir app]. erewrite bind_eq by apply next_le16_cons.
    erewrite bind_eq by apply Heq. same_state.
Qed.

Lemma read_coeffs_app n m : ∀ pre suf dl f lg,
  length pre = (2 * (n * m))%nat →
  ∃ cs, length cs = (n * m)%nat ∧
    read_coeffs n m (mkDstate (pre ++ suf) dl f lg)
    = Some (cs, mkDstate suf (dl - 2 * Z.of_nat (n * m)) f lg).
Proof.
  induction n as [|n IH]; intros pre suf dl f lg Hlen.
  - destruct pre; [|discriminate]. exists []. split; [done|].
    same_state.
  - assert (Hmul : (S n * m = m + n * m)%nat) by reflexivity.
    rewrite Hmul in *.
    rewrite <- (take_drop (2 * m) pre), <- app_assoc.
    destruct (read_ir_app m (take (2 * m) pre) (drop (2 * m) pre ++ suf) dl f lg)
      as (ir & Hir & Heq1); [rewrite length_take; lia|].
    destruct (IH (drop (2 * m) pre) suf (dl - 2 * Z.of_nat m) f lg)
      as (cs & Hcs & Heq2); [rewrite length_drop; lia|].
    exists (ir ++ cs). split; [rewrite length_app; lia|].
    cbn [read_coeffs]. erewrite bind_eq by apply Heq1.
    erewrite bind_eq by apply Heq2. same_state.
Qed.

Lemma check_delays_spec ds n : ∀ i d dl f lg,
  0 ≤ i → (Z.to_nat i + n ≤ length ds)%nat →
  ∃ f' lg',
    check_delays ds n i (mkDstate d dl f lg) = Some (tt, mkDstate d dl f' lg')
    ∧ (f = true → f' = true)
    ∧ (f' = false →
       lg' = lg ∧ Forall (λ b, ubyte b ≤ maxDelay) (take n (drop (Z.to_nat i) ds))).
Proof.
  induction n as [|n IH]; intros i d dl f lg Hi Hlen.
  - exists f, lg. split; [done|]. split; [done|]. intros _. split; [done|].
    rewrite take_0. constructor.
  - destruct (lookup_lt_is_Some_2 ds (Z.to_nat i)) as [b Hb]; [lia|].
    cbn [check_delays]. unfold index at 1.
    unfold mbind at 1, dec_bind at 1. rewrite Hb.
    rewrite (drop_S _ _ _ Hb). rewrite firstn_cons.
    replace (S (Z.to_nat i)) with (Z.to_nat (i + 1)) by lia.
    destruct (maxDelay <? ubyte b) eqn:Hcmp.
    + erewrite bind_eq by apply flag_eq.
      destruct (IH (i + 1) d dl true (lg ++ [InvalidDelay i (ubyte b)]))
        as (f' & lg' & Heq & Hmono & _); [lia|lia|].
      exists f', lg'. split; [done|]. split; [auto|].
      intros Hf'. rewrite Hmono in Hf' by done. done.
    + destruct (IH (i + 1) d dl f lg) as (f' & lg' & Heq & Hmono & Hok); [lia|lia|].
      exists f', lg'. split; [done|]. split; [done|].
      intros Hf'. destruct (Hok Hf') as [-> Hall]. split; [done|].
      constructor; [lia|done].
Qed.

(** ** The shared tail *)

Lemma reqsize_eq irSize irCount :
  0 ≤ irSize ≤ 128 → 0 ≤ irCount ≤ 65535 →
  reqsize irSize irCount = 2 * irSize * irCount + irCount.
Proof.
  intros Hs Hc. unfold reqsize.
  assert (0 ≤ irSize * irCount ≤ 128 * 65535) by nia.
  rewrite (u32_small (2 * irSize * irCount)) by lia.
  apply u32_small. lia.
Qed.

Lemma load_tail_failed rate irCount irSize evCount azC evO name d dl lg :
  load_tail rate irCount irSize evCount azC evO name (mkDstate d dl true lg)
  = Some (None, mkDstate d dl true lg).
Proof. reflexivity. Qed.

Lemma load_tail_short rate irCount irSize evCount azC evO name d dl lg :
  dl < reqsize irSize irCount →
  load_tail rate irCount irSize evCount azC evO name (mkDstate d dl false lg)
  = Some (None, mkDstate d dl true
                  (lg ++ [UnexpectedEnd (reqsize irSize irCount) dl])).
Proof.
  intros Hlt. unfold load_tail, unless_failed, get_failed, get_datalen.
  unfold mbind, dec_bind. cbn [failed datalen].
  destruct (Z.ltb_spec dl (reqsize irSize irCount)); [|lia].
  reflexivity.
Qed.

Lemma load_tail_long rate irCount irSize evCount azC evO name d lg :
  0 ≤ irSize ≤ 128 → 0 ≤ irCount ≤ 65535 →
  reqsize irSize irCount ≤ Z.of_nat (length d) →
  ∃ cs f' lg' s',
    load_tail rate irCount irSize evCount azC evO name
      (mkDstate d (Z.of_nat (length d)) false lg)
    = Some (if (f' : bool) then None
            else Some (mkHrtf rate irSize evCount azC evO cs
                         (ubyte <$> take (Z.to_nat irCount)
                            (drop (2 * (Z.to_nat irCount * Z.to_nat irSize)) d))
                         name),
            s')
    ∧ log s' = lg' ∧ failed s' = f'
    ∧ Z.of_nat (length cs) = irCount * irSize
    ∧ (Z.to_nat irCount ≤ length (drop (2 * (Z.to_nat irCount * Z.to_nat irSize)) d))%nat
    ∧ (f' = false →
       lg' = lg ∧
       Forall (λ b, ubyte b ≤ maxDelay)
         (take (Z.to_nat irCount) (drop (2 * (Z.to_nat irCount * Z.to_nat irSize)) d))).
Proof.
  intros Hs Hc Hreq. rewrite reqsize_eq in Hreq by done.
  set (n := Z.to_nat irCount). set (m := Z.to_nat irSize).
  assert (Hnm : Z.of_nat (n * m) = irCount * irSize) by (subst n m; nia).
  assert (Hlen : (2 * (n * m) + n ≤ length d)%nat) by (subst n m; nia).
  destruct (read_coeffs_app n m (take (2 * (n * m)) d) (drop (2 * (n * m)) d)
              (Z.of_nat (length d)) false lg) as (cs & Hcs & Hread).
  { rewrite length_take. lia. }
  rewrite take_drop in Hread.
  set (ds := drop (2 * (n * m)) d) in *.
  assert (Hds : (n ≤ length ds)%nat) by (subst ds; rewrite length_drop; lia).
  destruct (check_delays_spec ds n 0
              (drop (Z.to_nat irCount) ds)
              (Z.of_nat (length d) - 2 * Z.of_nat (n * m) - irCount) false lg)
    as (f' & lg' & Hchk & _ & Hok); [lia|simpl; lia|].
  exists cs, f', lg'. eexists. split; [|split; [|split; [|split; [|split]]]].
  - unfold load_tail. dec_step.
    destruct (Z.ltb_spec (Z.of_nat (length d)) (reqsize irSize irCount)) as [Hlt|_].
    { rewrite reqsize_eq in Hlt by done. lia. }
    dec_step. fold n m. erewrite bind_eq by apply Hread.
    dec_step. fold ds. erewrite bind_eq by apply Hchk.
    dec_step. destruct f'; reflexivity.
  - reflexivity.
  - reflexivity.
  - lia.
  - done.
  - intros Hf'. destruct (Hok Hf') as [-> Hall]. split; [done|].
    now rewrite drop_0 in Hall.
Qed.

(** ** The offset table of v0 *)

Lemma bad_azCount_false az :
  bad_azCount az = false ↔ MIN_AZ_COUNT ≤ az ≤ MAX_AZ_COUNT.
Proof. unfold bad_azCount. rewrite orb_false_iff, !Z.ltb_ge. tauto. Qed.

Lemma read_evOffset00_app n : ∀ pre i last f lg,
  length pre = (2 * n)%nat → 0 ≤ last ≤ 65535 →
  ∃ evs azs last' f' lg',
    (∀ suf dl, read_evOffset00 n i last (mkDstate (pre ++ suf) dl f lg)
               = Some ((evs, azs, last'), mkDstate suf (dl - 2 * Z.of_nat n) f' lg'))
    ∧ length evs = n
    ∧ 0 ≤ last' ≤ 65535
    ∧ (f = true → f' = true)
    ∧ (f' = false → lg' = lg ∧ derived00 last evs azs last').
Proof.
  induction n as [|n IH]; intros pre i last f lg Hlen Hlast.
  - destruct pre; [|discriminate]. exists [], [], last, f, lg.
    split; [|done]. intros suf dl. cbn [read_evOffset00 app]. same_state.
  - destruct pre as [|lo [|hi pre]]; simpl in Hlen; try lia.
    set (v := le16 (ubyte lo) (ubyte hi)).
    pose proof (le16_ubyte lo hi) as Hv. fold v in Hv.
    set (f1 := if v <=? last then true else f).
    set (lg1 := if v <=? last then lg ++ [InvalidEvOffset i v last] else lg).
    set (az := u8 (v - last)).
    set (f2 := if bad_azCount az then true else f1).
    set (lg2 := if bad_azCount az then lg1 ++ [UnsupportedAzCount (i - 1) az] else lg1).
    destruct (IH pre (i + 1) v f2 lg2) as (evs & azs & last' & f' & lg' & Heq & Hl & Hr & Hmono & Hok);
      [lia|lia|].
    exists (v :: evs), (az :: azs), last', f', lg'.
    split; [|split; [simpl; lia|split; [done|split]]].
    + intros suf dl. cbn [read_evOffset00 app].
      erewrite bind_eq by apply next_le16_cons. fold v.
      unfold check_azCount. fold az.
      assert (Hstep : ∀ B (k : unit → dec B),
        ((if v <=? last then flag (InvalidEvOffset i v last) else mret ()) ≫=
           λ _, (if bad_azCount az then flag (UnsupportedAzCount (i - 1) az)
                 else mret ()) ≫= k) (mkDstate (pre ++ suf) (dl - 2) f lg)
        = k tt (mkDstate (pre ++ suf) (dl - 2) f2 lg2)).
      { intros B k. subst f2 lg2 f1 lg1.
        destruct (v <=? last); destruct (bad_azCount az); reflexivity. }
      rewrite Hstep. erewrite bind_eq by apply Heq. same_state.
    + intros ->. apply Hmono. subst f2 f1.
      destruct (bad_azCount az); [done|]. now destruct (v <=? last).
    + intros Hf'. destruct (Hok Hf') as [-> Hd].
      assert (Hf2 : f2 = false) by (destruct f2; [now rewrite Hmono in Hf'|done]).
      subst f2 lg2. destruct (bad_azCount az) eqn:Haz; [done|].
      subst f1 lg1. destruct (Z.leb_spec v last); [done|].
      split; [done|]. cbn [derived00]. apply bad_azCount_false in Haz. done.
Qed.

Lemma derived00_rings total az : ∀ os o azs last,
  derived00 o os azs last → 0 ≤ o →
  MIN_AZ_COUNT ≤ az ≤ MAX_AZ_COUNT → last + az ≤ total →
  o ≤ last ∧ Forall2 (ring_ok total) (o :: os) (azs ++ [az]).
Proof.
  induction os as [|o' os IH]; intros o azs last Hd Ho Haz Htot.
  - destruct azs; [|done]. cbn in Hd. subst last. split; [lia|].
    unfold MIN_AZ_COUNT in *. constructor 2; [|constructor 1].
    unfold ring_ok, MIN_AZ_COUNT. lia.
  - destruct azs as [|a azs]; [done|]. cbn [derived00] in Hd.
    destruct Hd as (Hlt & Ha & Hr & Hd).
    destruct (IH o' azs last Hd) as [Hle Hall]; [lia|done|done|].
    split; [lia|]. cbn [app]. constructor 2; [|done].
    pose proof (u8_le (o' - o)). unfold ring_ok, MIN_AZ_COUNT in *. lia.
Qed.

Lemma derived00_length : ∀ os o azs last,
  derived00 o os azs last → length azs = length os.
Proof.
  induction os as [|o' os IH]; intros o [|a azs] last Hd; try done.
  cbn [derived00] in Hd. simpl. f_equal. eapply IH. apply Hd.
Qed.

Lemma read_table00_app irCount evCount pre lg :
  1 ≤ evCount → length pre = Z.to_nat (2 * evCount) → 0 ≤ irCount ≤ 65535 →
  ∃ evO azC f' lg',
    (∀ suf dl, read_table00 irCount evCount (mkDstate (pre ++ suf) dl false lg)
               = Some ((evO, azC), mkDstate suf (dl - 2 * evCount) f' lg'))
    ∧ (f' = false →
       lg' = lg ∧ Z.of_nat (length azC) = evCount
       ∧ Forall2 (ring_ok irCount) evO azC).
Proof.
  intros Hev Hlen Hir.
  destruct pre as [|lo [|hi pre]]; simpl in Hlen; try lia.
  set (e0 := le16 (ubyte lo) (ubyte hi)).
  pose proof (le16_ubyte lo hi) as He0. fold e0 in He0.
  destruct (read_evOffset00_app (Z.to_nat evCount - 1) pre 1 e0 false lg)
    as (evs & azs & last & f1 & lg1 & Heq & Hl & Hr & _ & Hok); [lia|lia|].
  set (az := u8 (u32 (irCount - last))).
  set (f2 := if irCount <=? last then true else f1).
  set (lg2 := if irCount <=? last
              then lg1 ++ [InvalidIrCount (evCount - 1) last irCount] else lg1).
  exists (e0 :: evs), (azs ++ [az]).
  exists (if bad_azCount az then true else f2).
  exists (if bad_azCount az then lg2 ++ [UnsupportedAzCount (evCount - 1) az] else lg2).
  split.
  - intros suf dl. unfold read_table00. cbn [app].
    erewrite bind_eq by apply next_le16_cons. fold e0.
    erewrite bind_eq by apply Heq. unfold check_azCount. fold az.
    subst f2 lg2. destruct (irCount <=? last); destruct (bad_azCount az);
      dec_step; same_state.
  - intros Hf. destruct (bad_azCount az) eqn:Haz; [done|].
    subst f2 lg2. destruct (Z.leb_spec irCount last); [done|].
    destruct (Hok Hf) as [-> Hd]. split; [done|].
    apply bad_azCount_false in Haz.
    assert (Hle : e0 ≤ last ∧ Forall2 (ring_ok irCount) (e0 :: evs) (azs ++ [az])).
    { apply (derived00_rings irCount az evs e0 azs last Hd); [lia|done|].
      subst az. rewrite u32_small by lia. pose proof (u8_le (irCount - last)). lia. }
    split; [|apply Hle].
    rewrite length_app, (derived00_length _ _ _ _ Hd), Hl. simpl. lia.
Qed.

(** ** The ring sizes of v1 *)

Lemma index_app pre suf i s :
  0 ≤ i → (Z.to_nat i < length pre)%nat →
  index (pre ++ suf) i s = index pre i s.
Proof. intros Hi Hlt. unfold index. now rewrite lookup_app_l. Qed.

Lemma index_Some p i b d dl f lg :
  p !! Z.to_nat i = Some b →
  index p i (mkDstate d dl f lg) = Some (ubyte b, mkDstate d dl f lg).
Proof. intros H. unfold index. now rewrite H. Qed.

Lemma check_azCount01_app pre suf n : ∀ i s,
  0 ≤ i → (Z.to_nat i + n ≤ length pre)%nat →
  check_azCount01 (pre ++ suf) n i s = check_azCount01 pre n i s.
Proof.
  induction n as [|n IH]; intros i s Hi Hlen; [done|].
  cbn [check_azCount01]. unfold mbind, dec_bind.
  rewrite index_app by lia. destruct (index pre i s) as [[az s1]|]; [|done].
  destruct (check_azCount i az s1) as [[[] s2]|]; [|done].
  apply IH; lia.
Qed.

Lemma sum_azCount01_app pre suf n : ∀ i last total s,
  1 ≤ i → (Z.to_nat i + n ≤ length pre)%nat →
  sum_azCount01 (pre ++ suf) n i last total s = sum_azCount01 pre n i last total s.
Proof.
  induction n as [|n IH]; intros i last total s Hi Hlen; [done|].
  cbn [sum_azCount01]. unfold mbind, dec_bind.
  rewrite index_app by lia. destruct (index pre (i - 1) s) as [[azp s1]|]; [|done].
  rewrite index_app by lia. destruct (index pre i s1) as [[az s2]|]; [|done].
  rewrite IH by lia. done.
Qed.

Lemma check_azCount01_spec p n : ∀ i f lg,
  0 ≤ i → (Z.to_nat i + n ≤ length p)%nat →
  ∃ f' lg',
    (∀ d dl, check_azCount01 p n i (mkDstate d dl f lg)
             = Some (tt, mkDstate d dl f' lg'))
    ∧ (f = true → f' = true)
    ∧ (f' = false →
       lg' = lg ∧
       Forall (λ b, MIN_AZ_COUNT ≤ ubyte b ≤ MAX_AZ_COUNT)
         (take n (drop (Z.to_nat i) p))).
Proof.
  induction n as [|n IH]; intros i f lg Hi Hlen.
  - exists f, lg. split; [done|]. split; [done|]. intros _. split; [done|].
    rewrite take_0. constructor.
  - destruct (lookup_lt_is_Some_2 p (Z.to_nat i)) as [b Hb]; [lia|].
    rewrite (drop_S _ _ _ Hb). rewrite firstn_cons.
    replace (S (Z.to_nat i)) with (Z.to_nat (i + 1)) by lia.
    destruct (bad_azCount (ubyte b)) eqn:Hbad.
    + destruct (IH (i + 1) true (lg ++ [UnsupportedAzCount i (ubyte b)]))
        as (f' & lg' & Heq & Hmono & _); [lia|lia|].
      exists f', lg'. split; [|split; [auto|]].
      * intros d dl. cbn [check_azCount01].
        erewrite bind_eq by (apply index_Some, Hb).
        unfold check_azCount. rewrite Hbad, bind_flag. apply Heq.
      * intros Hf'. rewrite Hmono in Hf' by done. done.
    + destruct (IH (i + 1) f lg) as (f' & lg' & Heq & Hmono & Hok); [lia|lia|].
      exists f', lg'. split; [|split; [done|]].
      * intros d dl. cbn [check_azCount01].
        erewrite bind_eq by (apply index_Some, Hb).
        unfold check_azCount. rewrite Hbad, bind_mret. apply Heq.
      * intros Hf'. destruct (Hok Hf') as [-> Hall]. split; [done|].
        constructor; [|done]. now apply bad_azCount_false.
Qed.

Lemma sum_azCount01_spec p n : ∀ i last total s azp,
  1 ≤ i → (Z.to_nat i + n ≤ length p)%nat →
  Forall (λ b, MIN_AZ_COUNT ≤ ubyte b ≤ MAX_AZ_COUNT) p →
  p !! Z.to_nat (i - 1) = Some azp → last + ubyte azp = total →
  0 ≤ total ≤ 128 * i → i + Z.of_nat n ≤ 128 →
  sum_azCount01 p n i last total s
  = Some ((summed01 total (ubyte <$> take n (drop (Z.to_nat i) p)),
           summed_to total (ubyte <$> take n (drop (Z.to_nat i) p))), s).
Proof.
  induction n as [|n IH]; intros i last total s azp Hi Hlen Hall Hp Hsum Htot Hn.
  - rewrite take_0. reflexivity.
  - destruct (lookup_lt_is_Some_2 p (Z.to_nat i)) as [b Hb]; [lia|].
    assert (Hbr : MIN_AZ_COUNT ≤ ubyte b ≤ MAX_AZ_COUNT).
    { rewrite Forall_lookup in Hall. apply (Hall _ _ Hb). }
    unfold MIN_AZ_COUNT, MAX_AZ_COUNT in Hbr.
    destruct s as [d dl f lg].
    cbn [sum_azCount01]. erewrite bind_eq by (apply index_Some, Hp).
    erewrite bind_eq by (apply index_Some, Hb).
    rewrite Hsum, (u16_small total), (u32_small (total + ubyte b)) by lia.
    erewrite bind_eq.
    2:{ apply (IH (i + 1) total (total + ubyte b) _ b); try lia; try done.
        replace (i + 1 - 1) with i by lia. done. }
    rewrite (drop_S _ _ _ Hb). rewrite firstn_cons.
    replace (S (Z.to_nat i)) with (Z.to_nat (i + 1)) by lia.
    reflexivity.
Qed.

Lemma summed_rings : ∀ azs o,
  0 ≤ o → Forall (λ az, MIN_AZ_COUNT ≤ az ≤ MAX_AZ_COUNT) azs →
  o ≤ summed_to o azs ≤ o + 128 * Z.of_nat (length azs)
  ∧ Forall2 (ring_ok (summed_to o azs)) (summed01 o azs) azs.
Proof.
  induction azs as [|az azs IH]; intros o Ho Hall.
  - cbn. split; [lia|constructor 1].
  - apply Forall_cons in Hall as [Haz Hall].
    unfold MIN_AZ_COUNT, MAX_AZ_COUNT in Haz.
    destruct (IH (o + az)) as [Hle Hr]; [lia|done|].
    cbn [summed_to summed01 length]. split; [lia|].
    constructor 2; [|done]. unfold ring_ok, MIN_AZ_COUNT, MAX_AZ_COUNT. lia.
Qed.

Lemma read_table01_spec p evCount d dl f lg :
  1 ≤ evCount ≤ 128 → length p = Z.to_nat evCount →
  Forall (λ b, MIN_AZ_COUNT ≤ ubyte b ≤ MAX_AZ_COUNT) p →
  read_table01 p evCount (mkDstate d dl f lg)
  = Some ((summed01 0 (ubyte <$> p), summed_to 0 (ubyte <$> p)), mkDstate d dl f lg).
Proof.
  intros Hev Hlen Hall. destruct p as [|b p]; [simpl in Hlen; lia|].
  simpl in Hlen. unfold read_table01.
  erewrite bind_eq by (apply index_Some; reflexivity).
  assert (Hb : MIN_AZ_COUNT ≤ ubyte b ≤ MAX_AZ_COUNT) by (now inversion Hall).
  unfold MIN_AZ_COUNT, MAX_AZ_COUNT in Hb.
  erewrite bind_eq.
  2:{ apply (sum_azCount01_spec (b :: p) (Z.to_nat evCount - 1) 1 0 (ubyte b) _ b);
        try done; try lia. simpl. lia. }
  change (drop (Z.to_nat 1) (b :: p)) with p.
  rewrite take_ge by lia. reflexivity.
Qed.

(** ** The header *)

Lemma check_header_eq irSize evCount d dl lg :
  check_header irSize evCount (mkDstate d dl false lg)
  = Some (tt, mkDstate d dl (bad_irSize irSize || bad_evCount evCount)
                (lg ++ header_errors irSize evCount)).
Proof.
  unfold check_header, check_irSize, check_evCount, header_errors.
  destruct (bad_irSize irSize), (bad_evCount evCount); dec_step; cbn [orb app];
    rewrite <- ?app_assoc, ?app_nil_r; reflexivity.
Qed.

Lemma header_errors_nil irSize evCount :
  bad_irSize irSize || bad_evCount evCount = false →
  header_errors irSize evCount = [].
Proof.
  unfold header_errors. intros [-> ->]%orb_false_iff. reflexivity.
Qed.

Lemma bad_irSize_false irSize :
  bad_irSize irSize = false ↔
  MIN_IR_SIZE ≤ irSize ≤ MAX_IR_SIZE ∧ irSize mod MOD_IR_SIZE = 0.
Proof.
  unfold bad_irSize. rewrite !orb_false_iff, negb_false_iff, !Z.ltb_ge, Z.eqb_eq.
  tauto.
Qed.

Lemma bad_evCount_false evCount :
  bad_evCount evCount = false ↔ MIN_EV_COUNT ≤ evCount ≤ MAX_EV_COUNT.
Proof. unfold bad_evCount. rewrite orb_false_iff, !Z.ltb_ge. tauto. Qed.

(** ** Walking through [LoadHrtf00] *)

Lemma LoadHrtf00_short buf name :
  Z.of_nat (length buf) < 9 →
  LoadHrtf00 buf name = Rejected [UnexpectedEnd 9 (Z.of_nat (length buf))].
Proof.
  intros Hlt. unfold LoadHrtf00, run. dec_step.
  destruct (Z.ltb_spec (Z.of_nat (length buf)) 9); [|lia]. reflexivity.
Qed.

Lemma LoadHrtf00_cons r0 r1 r2 r3 c0 c1 z0 z1 ev rest name :
  LoadHrtf00 (r0 :: r1 :: r2 :: r3 :: c0 :: c1 :: z0 :: z1 :: ev :: rest) name
  = result_of
      (load_body00 name (rate_of r0 r1 r2 r3) (le16 (ubyte c0) (ubyte c1))
         (le16 (ubyte z0) (ubyte z1)) (ubyte ev)
         (mkDstate rest (Z.of_nat (length rest)) false [])).
Proof.
  unfold LoadHrtf00, run. dec_step.
  set (buf := r0 :: r1 :: r2 :: r3 :: c0 :: c1 :: z0 :: z1 :: ev :: rest).
  assert (Hlen : Z.of_nat (length buf) = Z.of_nat (length rest) + 9).
  { subst buf. cbn [length]. lia. }
  destruct (Z.ltb_spec (Z.of_nat (length buf)) 9); [lia|].
  rewrite Hlen. subst buf.
  replace (Z.of_nat (length rest)) with (Z.of_nat (length rest) + 9 - 4 - 2 - 2 - 1) at 2 by lia.
  reflexivity.
Qed.

Lemma load_body00_bad name rate irCount irSize evCount d dl :
  bad_irSize irSize || bad_evCount evCount = true →
  load_body00 name rate irCount irSize evCount (mkDstate d dl false [])
  = Some (None, mkDstate d dl true (header_errors irSize evCount)).
Proof.
  intros Hbad. unfold load_body00.
  erewrite bind_eq by apply check_header_eq. rewrite Hbad. reflexivity.
Qed.

Lemma load_body00_short name rate irCount irSize evCount d dl :
  bad_irSize irSize || bad_evCount evCount = false → dl < evCount * 2 →
  load_body00 name rate irCount irSize evCount (mkDstate d dl false [])
  = Some (None, mkDstate d dl false [UnexpectedEnd (evCount * 2) dl]).
Proof.
  intros Hok Hlt. unfold load_body00.
  erewrite bind_eq by apply check_header_eq.
  rewrite Hok, header_errors_nil by done. dec_step.
  destruct (Z.ltb_spec dl (evCount * 2)); [|lia]. reflexivity.
Qed.

Lemma load_body00_table name rate irCount irSize evCount pre suf evO azC f lg :
  bad_irSize irSize || bad_evCount evCount = false →
  length pre = Z.to_nat (2 * evCount) →
  (∀ suf dl, read_table00 irCount evCount (mkDstate (pre ++ suf) dl false [])
             = Some ((evO, azC), mkDstate suf (dl - 2 * evCount) f lg)) →
  load_body00 name rate irCount irSize evCount
    (mkDstate (pre ++ suf) (Z.of_nat (length (pre ++ suf))) false [])
  = load_tail rate irCount irSize evCount azC evO name
      (mkDstate suf (Z.of_nat (length suf)) f lg).
Proof.
  intros Hok Hlen Htab. unfold load_body00.
  erewrite bind_eq by apply check_header_eq.
  rewrite Hok, header_errors_nil by done. dec_step.
  apply orb_false_iff in Hok as [_ Hev%bad_evCount_false].
  unfold MIN_EV_COUNT in Hev.
  assert (Hl : Z.of_nat (length (pre ++ suf)) = Z.of_nat (length suf) + 2 * evCount).
  { rewrite length_app. lia. }
  destruct (Z.ltb_spec (Z.of_nat (length (pre ++ suf))) (evCount * 2)); [lia|].
  dec_step. erewrite bind_eq by apply Htab. rewrite Hl.
  replace (Z.of_nat (length suf) + 2 * evCount - 2 * evCount)
    with (Z.of_nat (length suf)) by lia.
  reflexivity.
Qed.

(** ** Walking through [LoadHrtf01] *)

Lemma LoadHrtf01_short buf name :
  Z.of_nat (length buf) < 6 →
  LoadHrtf01 buf name = Rejected [UnexpectedEnd 6 (Z.of_nat (length buf))].
Proof.
  intros Hlt. unfold LoadHrtf01, run. dec_step.
  destruct (Z.ltb_spec (Z.of_nat (length buf)) 6); [|lia]. reflexivity.
Qed.

Lemma LoadHrtf01_cons r0 r1 r2 r3 sz ev rest name :
  LoadHrtf01 (r0 :: r1 :: r2 :: r3 :: sz :: ev :: rest) name
  = result_of
      (load_body01 name (rate_of r0 r1 r2 r3) (ubyte sz) (ubyte ev)
         (mkDstate rest (Z.of_nat (length rest)) false [])).
Proof.
  unfold LoadHrtf01, run. dec_step.
  set (buf := r0 :: r1 :: r2 :: r3 :: sz :: ev :: rest).
  assert (Hlen : Z.of_nat (length buf) = Z.of_nat (length rest) + 6).
  { subst buf. cbn [length]. lia. }
  destruct (Z.ltb_spec (Z.of_nat (length buf)) 6); [lia|].
  rewrite Hlen. subst buf.
  replace (Z.of_nat (length rest)) with (Z.of_nat (length rest) + 6 - 4 - 1 - 1) at 2 by lia.
  reflexivity.
Qed.

Lemma load_body01_bad name rate irSize evCount d dl :
  bad_irSize irSize || bad_evCount evCount = true →
  load_body01 name rate irSize evCount (mkDstate d dl false [])
  = Some (None, mkDstate d dl true (header_errors irSize evCount)).
Proof.
  intros Hbad. unfold load_body01.
  erewrite bind_eq by apply check_header_eq. rewrite Hbad. reflexivity.
Qed.

Lemma load_body01_short name rate irSize evCount d dl :
  bad_irSize irSize || bad_evCount evCount = false → dl < evCount →
  load_body01 name rate irSize evCount (mkDstate d dl false [])
  = Some (None, mkDstate d dl false [UnexpectedEnd evCount dl]).
Proof.
  intros Hok Hlt. unfold load_body01.
  erewrite bind_eq by apply check_header_eq.
  rewrite Hok, header_errors_nil by done. dec_step.
  destruct (Z.ltb_spec dl evCount); [|lia]. reflexivity.
Qed.

Lemma read_table01_app pre suf evCount s :
  1 ≤ evCount → length pre = Z.to_nat evCount →
  read_table01 (pre ++ suf) evCount s = read_table01 pre evCount s.
Proof.
  intros Hev Hlen. unfold read_table01, mbind, dec_bind.
  rewrite index_app by lia. destruct (index pre 0 s) as [[az0 s1]|]; [|done].
  rewrite sum_azCount01_app by lia. done.
Qed.

Lemma load_body01_table name rate irSize evCount pre :
  bad_irSize irSize || bad_evCount evCount = false →
  length pre = Z.to_nat evCount →
  ∃ f lg,
    (f = false → Forall (λ b, MIN_AZ_COUNT ≤ ubyte b ≤ MAX_AZ_COUNT) pre)
    ∧ ∀ suf,
        load_body01 name rate irSize evCount
          (mkDstate (pre ++ suf) (Z.of_nat (length (pre ++ suf))) false [])
        = if (f : bool)
          then Some (None, mkDstate suf (Z.of_nat (length suf)) true lg)
          else load_tail rate (summed_to 0 (ubyte <$> pre)) irSize evCount
                 (ubyte <$> pre) (summed01 0 (ubyte <$> pre)) name
                 (mkDstate suf (Z.of_nat (length suf)) false []).
Proof.
  intros Hok Hlen.
  pose proof Hok as [_ Hev%bad_evCount_false]%orb_false_iff.
  unfold MIN_EV_COUNT, MAX_EV_COUNT in Hev.
  destruct (check_azCount01_spec pre (Z.to_nat evCount) 0 false [])
    as (f & lg & Hchk & _ & Hrange); [lia|simpl; lia|].
  exists f, lg. split.
  { intros Hf. destruct (Hrange Hf) as [_ Hall].
    now rewrite drop_0, take_ge in Hall by lia. }
  intros suf. unfold load_body01.
  erewrite bind_eq by apply check_header_eq.
  rewrite Hok, header_errors_nil by done. dec_step.
  assert (Hl : Z.of_nat (length (pre ++ suf)) = Z.of_nat (length suf) + evCount).
  { rewrite length_app. lia. }
  destruct (Z.ltb_spec (Z.of_nat (length (pre ++ suf))) evCount); [lia|].
  dec_step. cbn [app]. rewrite drop_app_length' by done.
  rewrite take_app_length' by done.
  erewrite bind_eq.
  2:{ rewrite check_azCount01_app by (simpl; lia). apply Hchk. }
  dec_step. destruct f.
  - rewrite Hl. replace (Z.of_nat (length suf) + evCount - evCount)
      with (Z.of_nat (length suf)) by lia.
    reflexivity.
  - destruct (Hrange eq_refl) as [-> Hall].
    rewrite drop_0, take_ge in Hall by lia.
    erewrite bind_eq.
    2:{ rewrite read_table01_app by lia. apply read_table01_spec; [lia|done|done]. }
    rewrite Hl. replace (Z.of_nat (length suf) + evCount - evCount)
      with (Z.of_nat (length suf)) by lia.
    reflexivity.
Qed.

(** ** What [LoadHrtf00] does on any buffer *)

Lemma LoadHrtf00_inv buf name :
  LoadHrtf00 buf name ≠ OutOfBounds
  ∧ ∀ h, LoadHrtf00 buf name = Loaded h →
    ∃ r0 r1 r2 r3 c0 c1 z0 z1 ev pre suf,
      buf = r0 :: r1 :: r2 :: r3 :: c0 :: c1 :: z0 :: z1 :: ev :: pre ++ suf
      ∧ bad_irSize (irSize h) || bad_evCount (evCount h) = false
      ∧ irSize h = le16 (ubyte z0) (ubyte z1)
      ∧ evCount h = ubyte ev
      ∧ irCount h = le16 (ubyte c0) (ubyte c1)
      ∧ length pre = Z.to_nat (2 * evCount h)
      ∧ (∀ suf dl, read_table00 (irCount h) (evCount h) (mkDstate (pre ++ suf) dl false [])
                   = Some ((evOffset h, azCount h),
                           mkDstate suf (dl - 2 * evCount h) false []))
      ∧ reqsize (irSize h) (irCount h) ≤ Z.of_nat (length suf)
      ∧ Hrtf_valid h.
Proof.
  destruct (Z.lt_ge_cases (Z.of_nat (length buf)) 9) as [Hshort|Hlong].
  { rewrite LoadHrtf00_short by done. split; [done|]. intros h [=]. }
  destruct buf as [|r0 [|r1 [|r2 [|r3 [|c0 [|c1 [|z0 [|z1 [|ev rest]]]]]]]]];
    try (simpl in Hlong; lia).
  clear Hlong. rewrite LoadHrtf00_cons.
  set (ic := le16 (ubyte c0) (ubyte c1)).
  set (sz := le16 (ubyte z0) (ubyte z1)).
  set (ec := ubyte ev). set (rate := rate_of r0 r1 r2 r3).
  pose proof (le16_ubyte c0 c1) as Hic. fold ic in Hic.
  destruct (bad_irSize sz || bad_evCount ec) eqn:Hhdr.
  { rewrite load_body00_bad by done. split; [done|]. intros h [=]. }
  pose proof Hhdr as [Hsz%bad_irSize_false Hev%bad_evCount_false]%orb_false_iff.
  unfold MIN_IR_SIZE, MAX_IR_SIZE, MIN_EV_COUNT, MAX_EV_COUNT in Hsz, Hev.
  destruct (Z.lt_ge_cases (Z.of_nat (length rest)) (ec * 2)) as [Htab|Htab].
  { rewrite load_body00_short by done. split; [done|]. intros h [=]. }
  rewrite <- (take_drop (Z.to_nat (2 * ec)) rest).
  set (pre := take (Z.to_nat (2 * ec)) rest).
  set (suf := drop (Z.to_nat (2 * ec)) rest).
  assert (Hpre : length pre = Z.to_nat (2 * ec)).
  { subst pre. rewrite length_take. lia. }
  destruct (read_table00_app ic ec pre []) as (evO & azC & f & lg & Heq & Hok);
    [lia|done|lia|].
  rewrite (load_body00_table name rate ic sz ec pre suf evO azC f lg) by done.
  destruct f.
  { rewrite load_tail_failed. split; [done|]. intros h [=]. }
  destruct (Hok eq_refl) as (-> & Hrows & Hrings).
  destruct (Z.lt_ge_cases (Z.of_nat (length suf)) (reqsize sz ic)) as [Hreq|Hreq].
  { rewrite load_tail_short by done. split; [done|]. intros h [=]. }
  destruct (load_tail_long rate ic sz ec azC evO name suf [])
    as (cs & f' & lg' & s' & Hrun & Hlog & Hfail & Hcs & Hds & Hdel); [lia|lia|done|].
  rewrite Hrun. destruct f'; [split; [done|]; intros h [=]|].
  destruct (Hdel eq_refl) as [_ Hall].
  set (ds := take (Z.to_nat ic) (drop (2 * (Z.to_nat ic * Z.to_nat sz)) suf)) in *.
  set (h := mkHrtf rate sz ec azC evO cs (ubyte <$> ds) name).
  split; [done|]. intros h' Hh'. assert (h' = h) as -> by (cbn in Hh'; congruence).
  assert (Hn : irCount h = ic).
  { unfold irCount, h. cbn [delays]. subst ds. rewrite length_fmap, length_take. lia. }
  exists r0, r1, r2, r3, c0, c1, z0, z1, ev, pre, suf.
  rewrite Hn. change (irSize h) with sz. change (evCount h) with ec.
  change (evOffset h) with evO. change (azCount h) with azC.
  split; [done|]. split; [done|]. split; [done|]. split; [done|]. split; [done|].
  split; [done|]. split; [done|]. split; [done|].
  split; rewrite ?Hn; try done; try lia.
  change (delays h) with (ubyte <$> ds).
  rewrite Forall_fmap. eapply Forall_impl; [apply Hall|].
  intros b Hb. unfold compose. cbv beta in Hb. pose proof (ubyte_range b). lia.
Qed.

(** ** What [LoadHrtf01] does on any buffer *)

Lemma LoadHrtf01_inv buf name :
  LoadHrtf01 buf name ≠ OutOfBounds
  ∧ ∀ h, LoadHrtf01 buf name = Loaded h →
    ∃ r0 r1 r2 r3 sz ev pre suf,
      buf = r0 :: r1 :: r2 :: r3 :: sz :: ev :: pre ++ suf
      ∧ bad_irSize (irSize h) || bad_evCount (evCount h) = false
      ∧ irSize h = ubyte sz
      ∧ evCount h = ubyte ev
      ∧ length pre = Z.to_nat (evCount h)
      ∧ azCount h = ubyte <$> pre
      ∧ evOffset h = summed01 0 (azCount h)
      ∧ irCount h = summed_to 0 (azCount h)
      ∧ (∀ suf, load_body01 name (sampleRate h) (irSize h) (evCount h)
                  (mkDstate (pre ++ suf) (Z.of_nat (length (pre ++ suf))) false [])
                = load_tail (sampleRate h) (irCount h) (irSize h) (evCount h)
                    (azCount h) (evOffset h) name
                    (mkDstate suf (Z.of_nat (length suf)) false []))
      ∧ reqsize (irSize h) (irCount h) ≤ Z.of_nat (length suf)
      ∧ Hrtf_valid h.
Proof.
  destruct (Z.lt_ge_cases (Z.of_nat (length buf)) 6) as [Hshort|Hlong].
  { rewrite LoadHrtf01_short by done. split; [done|]. intros h [=]. }
  destruct buf as [|r0 [|r1 [|r2 [|r3 [|bsz [|ev rest]]]]]];
    try (simpl in Hlong; lia).
  clear Hlong. rewrite LoadHrtf01_cons.
  set (sz := ubyte bsz). set (ec := ubyte ev). set (rate := rate_of r0 r1 r2 r3).
  destruct (bad_irSize sz || bad_evCount ec) eqn:Hhdr.
  { rewrite load_body01_bad by done. split; [done|]. intros h [=]. }
  pose proof Hhdr as [Hsz%bad_irSize_false Hev%bad_evCount_false]%orb_false_iff.
  unfold MIN_IR_SIZE, MAX_IR_SIZE, MIN_EV_COUNT, MAX_EV_COUNT in Hsz, Hev.
  destruct (Z.lt_ge_cases (Z.of_nat (length rest)) ec) as [Htab|Htab].
  { rewrite load_body01_short by done. split; [done|]. intros h [=]. }
  rewrite <- (take_drop (Z.to_nat ec) rest).
  set (pre := take (Z.to_nat ec) rest).
  set (suf := drop (Z.to_nat ec) rest).
  assert (Hpre : length pre = Z.to_nat ec).
  { subst pre. rewrite length_take. lia. }
  destruct (load_body01_table name rate sz ec pre Hhdr Hpre) as (f & lg & Hrange & Hbody).
  rewrite Hbody. destruct f; [split; [done|]; intros h [=]|].
  specialize (Hrange eq_refl).
  set (azs := ubyte <$> pre) in *.
  assert (Hazs : Forall (λ az, MIN_AZ_COUNT ≤ az ≤ MAX_AZ_COUNT) azs).
  { subst azs. now rewrite Forall_fmap. }
  destruct (summed_rings azs 0) as [Hsum Hrings]; [lia|done|].
  assert (Hazl : Z.of_nat (length azs) = ec).
  { subst azs. rewrite length_fmap. lia. }
  set (ic := summed_to 0 azs) in *.
  destruct (Z.lt_ge_cases (Z.of_nat (length suf)) (reqsize sz ic)) as [Hreq|Hreq].
  { rewrite load_tail_short by done. split; [done|]. intros h [=]. }
  destruct (load_tail_long rate ic sz ec azs (summed01 0 azs) name suf [])
    as (cs & f' & lg' & s' & Hrun & Hlog & Hfail & Hcs & Hds & Hdel); [lia|lia|done|].
  rewrite Hrun. destruct f'; [split; [done|]; intros h [=]|].
  destruct (Hdel eq_refl) as [_ Hall].
  set (ds := take (Z.to_nat ic) (drop (2 * (Z.to_nat ic * Z.to_nat sz)) suf)) in *.
  set (h := mkHrtf rate sz ec azs (summed01 0 azs) cs (ubyte <$> ds) name).
  split; [done|]. intros h' Hh'. assert (h' = h) as -> by (cbn in Hh'; congruence).
  assert (Hn : irCount h = ic).
  { unfold irCount, h. cbn [delays]. subst ds. rewrite length_fmap, length_take. lia. }
  exists r0, r1, r2, r3, bsz, ev, pre, suf.
  rewrite Hn. change (irSize h) with sz. change (evCount h) with ec.
  change (evOffset h) with (summed01 0 azs). change (azCount h) with azs.
  change (sampleRate h) with rate.
  split; [done|]. split; [done|]. split; [done|]. split; [done|]. split; [done|].
  split; [done|]. split; [done|]. split; [done|]. split.
  { intros suf'. destruct (load_body01_table name rate sz ec pre Hhdr Hpre)
      as (f2 & lg2 & _ & Hbody2).
    pose proof (Hbody2 suf) as Hb1. rewrite Hbody in Hb1.
    rewrite Hbody2. destruct f2; [|done].
    rewrite Hrun in Hb1. discriminate. }
  split; [done|].
  split; rewrite ?Hn; try done; try lia.
  change (delays h) with (ubyte <$> ds).
  rewrite Forall_fmap. eapply Forall_impl; [apply Hall|].
  intros b Hb. unfold compose. cbv beta in Hb. pose proof (ubyte_range b). lia.
Qed.

(** ** Truncated buffers *)



(** ** Which lines a decoder can log *)

Section LogsOnly.

Variable P : err → Prop.

Lemma logs_only_ret {A} (a : A) : logs_only P (mret a).
Proof.
  intros s a' s' [= <- <-]. exists []. now rewrite app_nil_r.
Qed.

Lemma logs_only_bind {A B} (m : dec A) (k : A → dec B) :
  logs_only P m → (∀ a, logs_only P (k a)) → logs_only P (m ≫= k).
Proof.
  intros Hm Hk s b s'. unfold mbind, dec_bind.
  destruct (m s) as [[a s1]|] eqn:Hms; [|done]. intros Hks.
  destruct (Hm _ _ _ Hms) as (e1 & E1 & H1).
  destruct (Hk a _ _ _ Hks) as (e2 & E2 & H2).
  exists (e1 ++ e2). split; [now rewrite E2, E1, app_assoc|]. now apply Forall_app.
Qed.

Lemma logs_only_quiet {A} (m : dec A) :
  (∀ s a s', m s = Some (a, s') → log s' = log s) → logs_only P m.
Proof.
  intros Hq s a s' Hm. exists []. rewrite app_nil_r. split; [eauto|constructor].
Qed.

Lemma logs_only_next : logs_only P next.
Proof.
  apply logs_only_quiet. intros [d dl f lg] a s'. unfold next. cbn.
  destruct d; [done|]. now intros [= <- <-].
Qed.

Lemma logs_only_index p i : logs_only P (index p i).
Proof.
  apply logs_only_quiet. intros s a s'. unfold index.
  destruct (p !! Z.to_nat i); [|done]. now intros [= <- <-].
Qed.

Lemma logs_only_consume n : logs_only P (consume n).
Proof. apply logs_only_quiet. now intros s a s' [= <- <-]. Qed.

Lemma logs_only_skip n : logs_only P (skip n).
Proof. apply logs_only_quiet. now intros s a s' [= <- <-]. Qed.

Lemma logs_only_get_data : logs_only P get_data.
Proof. apply logs_only_quiet. now intros s a s' [= <- <-]. Qed.

Lemma logs_only_get_datalen : logs_only P get_datalen.
Proof. apply logs_only_quiet. now intros s a s' [= <- <-]. Qed.

Lemma logs_only_get_failed : logs_only P get_failed.
Proof. apply logs_only_quiet. now intros s a s' [= <- <-]. Qed.

Lemma logs_only_ERR e : P e → logs_only P (ERR e).
Proof.
  intros He s a s' [= <- <-]. exists [e]. split; [done|]. now constructor.
Qed.

Lemma logs_only_flag e : P e → logs_only P (flag e).
Proof.
  intros He s a s' [= <- <-]. exists [e]. split; [done|]. now constructor.
Qed.

Lemma logs_only_if {A} (c : bool) (m1 m2 : dec A) :
  logs_only P m1 → logs_only P m2 → logs_only P (if c then m1 else m2).
Proof. now destruct c. Qed.

Lemma logs_only_unless_failed {A} (d : A) (m : dec A) :
  logs_only P m → logs_only P (unless_failed d m).
Proof.
  intros Hm. unfold unless_failed. apply logs_only_bind; [apply logs_only_get_failed|].
  intros f. apply logs_only_if; [apply logs_only_ret|done].
Qed.

End LogsOnly.

(** Close a goal [logs_only not_irSize_line m] for a straight-line [m]. *)
Ltac logs_tac :=
  repeat first
    [ apply logs_only_ret | apply logs_only_next | apply logs_only_index
    | apply logs_only_consume | apply logs_only_skip | apply logs_only_get_data
    | apply logs_only_get_datalen | apply logs_only_get_failed
    | apply logs_only_ERR; exact I | apply logs_only_flag; exact I
    | apply logs_only_unless_failed | apply logs_only_if
    | apply logs_only_bind; [|intros ?]
    | progress cbv beta
    | match goal with |- logs_only _ (let '(_, _) := ?x in _) => destruct x end
    | assumption ].

Lemma logs_only_next_le16 : logs_only not_irSize_line next_le16.
Proof. unfold next_le16. logs_tac. Qed.

Lemma logs_only_read_ir n : logs_only not_irSize_line (read_ir n).
Proof.
  induction n as [|n IH]; cbn [read_ir]; [logs_tac|].
  apply logs_only_bind; [apply logs_only_next_le16|]. intros c. logs_tac.
Qed.

Lemma logs_only_read_coeffs n m : logs_only not_irSize_line (read_coeffs n m).
Proof.
  induction n as [|n IH]; cbn [read_coeffs]; [logs_tac|].
  apply logs_only_bind; [apply logs_only_read_ir|]. intros c. logs_tac.
Qed.

Lemma logs_only_check_delays ds n : ∀ i, logs_only not_irSize_line (check_delays ds n i).
Proof.
  induction n as [|n IH]; intros i; cbn [check_delays]; [logs_tac|].
  logs_tac. apply IH.
Qed.

Lemma logs_only_load_tail rate ic sz ec azC evO name :
  logs_only not_irSize_line (load_tail rate ic sz ec azC evO name).
Proof.
  unfold load_tail. logs_tac.
  - apply logs_only_read_coeffs.
  - apply logs_only_check_delays.
Qed.

Lemma logs_only_check_azCount i az : logs_only not_irSize_line (check_azCount i az).
Proof. unfold check_azCount. logs_tac. Qed.

Lemma logs_only_read_evOffset00 n : ∀ i last,
  logs_only not_irSize_line (read_evOffset00 n i last).
Proof.
  induction n as [|n IH]; intros i last; cbn [read_evOffset00]; [logs_tac|].
  apply logs_only_bind; [apply logs_only_next_le16|]. intros v.
  apply logs_only_bind; [logs_tac|]. intros _.
  apply logs_only_bind; [apply logs_only_check_azCount|]. intros _.
  apply logs_only_bind; [apply IH|]. intros [[evs azs] l]. logs_tac.
Qed.

Lemma logs_only_read_table00 ic ec : logs_only not_irSize_line (read_table00 ic ec).
Proof.
  unfold read_table00.
  apply logs_only_bind; [apply logs_only_next_le16|]. intros e0.
  apply logs_only_bind; [apply logs_only_read_evOffset00|]. intros [[evs azs] l].
  apply logs_only_bind; [logs_tac|]. intros _.
  apply logs_only_bind; [apply logs_only_check_azCount|]. intros _. logs_tac.
Qed.

Lemma logs_only_check_azCount01 p n : ∀ i,
  logs_only not_irSize_line (check_azCount01 p n i).
Proof.
  induction n as [|n IH]; intros i; cbn [check_azCount01]; [logs_tac|].
  apply logs_only_bind; [logs_tac|]. intros az.
  apply logs_only_bind; [apply logs_only_check_azCount|]. intros _. apply IH.
Qed.

Lemma logs_only_sum_azCount01 p n : ∀ i last total,
  logs_only not_irSize_line (sum_azCount01 p n i last total).
Proof.
  induction n as [|n IH]; intros i last total; cbn [sum_azCount01]; [logs_tac|].
  apply logs_only_bind; [logs_tac|]. intros azp.
  apply logs_only_bind; [logs_tac|]. intros az.
  apply logs_only_bind; [apply IH|]. intros [offs t]. logs_tac.
Qed.

Lemma logs_only_check_evCount ec : logs_only not_irSize_line (check_evCount ec).
Proof. unfold check_evCount. logs_tac. Qed.

Lemma logs_only_load_body00 name rate ic sz ec :
  bad_irSize sz = false →
  logs_only not_irSize_line (load_body00 name rate ic sz ec).
Proof.
  intros Hsz. unfold load_body00, check_header, check_irSize. rewrite Hsz.
  apply logs_only_bind.
  { apply logs_only_bind; [logs_tac|]. intros _. apply logs_only_check_evCount. }
  intros _. apply logs_only_bind; [logs_tac|]. intros f.
  apply logs_only_if; [logs_tac|].
  apply logs_only_bind; [logs_tac|]. intros dl.
  apply logs_only_if; [logs_tac|].
  apply logs_only_bind.
  { apply logs_only_unless_failed, logs_only_read_table00. }
  intros [evO azC]. apply logs_only_load_tail.
Qed.

Lemma logs_only_load_body01 name rate sz ec :
  bad_irSize sz = false →
  logs_only not_irSize_line (load_body01 name rate sz ec).
Proof.
  intros Hsz. unfold load_body01, check_header, check_irSize. rewrite Hsz.
  apply logs_only_bind.
  { apply logs_only_bind; [logs_tac|]. intros _. apply logs_only_check_evCount. }
  intros _. apply logs_only_bind; [logs_tac|]. intros f.
  apply logs_only_if; [logs_tac|].
  apply logs_only_bind; [logs_tac|]. intros dl.
  apply logs_only_if; [logs_tac|].
  apply logs_only_bind; [logs_tac|]. intros p.
  apply logs_only_bind; [logs_tac|]. intros _.
  apply logs_only_bind; [logs_tac|]. intros _.
  apply logs_only_bind.
  { apply logs_only_unless_failed, logs_only_check_azCount01. }
  intros _. apply logs_only_bind.
  { apply logs_only_unless_failed. unfold read_table01.
    apply logs_only_bind; [logs_tac|]. intros az0.
    apply logs_only_bind; [apply logs_only_sum_azCount01|]. intros [offs t]. logs_tac. }
  intros [evO ic]. apply logs_only_load_tail.
Qed.

Lemma result_of_logs_only (m : dec (option Hrtf)) d dl lg :
  logs_only not_irSize_line m →
  result_of (m (mkDstate d dl false [])) = Rejected lg →
  Forall not_irSize_line lg.
Proof.
  intros Hm. destruct (m (mkDstate d dl false [])) as [[[h|] s']|] eqn:Hrun; try done.
  intros [= <-]. destruct (Hm _ _ _ Hrun) as (extra & E & Hall).
  now rewrite E.
Qed.

(** * Properties of the indexers *)

(** ** Truncation and floor *)

Lemma Qfloor_bounds (x : Q) (lo hi : Z) :
  (inject_Z lo <= x)%Q → (x < inject_Z hi)%Q → lo ≤ Qfloor x < hi.
Proof.
  intros Hlo Hhi. split.
  - rewrite <- (Qfloor_Z lo). now apply Qfloor_resp_le.
  - rewrite Zlt_Qlt. eapply Qle_lt_trans; [apply Qfloor_le|done].
Qed.



Lemma fastf2i_nonneg (x : Q) : (0 <= x)%Q → fastf2i x = Qfloor x.
Proof.
  destruct x as [n d]. unfold fastf2i, Qfloor, Qle. cbn. intros Hn.
  apply Z.quot_div_nonneg; lia.
Qed.

Lemma fastf2u_floor (x : Q) :
  (0 <= x)%Q → (x < inject_Z (2 ^ 32))%Q → fastf2u x = Qfloor x.
Proof.
  intros H0 H1. unfold fastf2u. rewrite fastf2i_nonneg by done.
  pose proof (Qfloor_bounds x 0 (2 ^ 32) H0 H1) as Hb.
  change (2 ^ 32) with 4294967296 in Hb. apply u32_small. lia.
Qed.

Lemma fastf2i_comp (x y : Q) : (x == y)%Q → fastf2i x = fastf2i y.
Proof.
  intros Hxy. destruct (Qlt_le_dec x 0) as [Hneg|Hpos].
  - assert (Hy : (y < 0)%Q) by now rewrite <- Hxy.
    assert (Hopp : ∀ z : Q, (z < 0)%Q → fastf2i z = - Qfloor (- z)).
    { intros [n d] Hz. unfold fastf2i, Qfloor, Qlt in *. cbn in *.
      rewrite <- (Z.opp_involutive n) at 1. rewrite Z.quot_opp_l by lia.
      f_equal. apply Z.quot_div_nonneg; lia. }
    rewrite !Hopp by done. now rewrite Hxy.
  - assert (Hy : (0 <= y)%Q) by now rewrite <- Hxy.
    rewrite !fastf2i_nonneg by done. now rewrite Hxy.
Qed.

Lemma frac_bounds (x : Q) : (0 <= x - floorf x)%Q ∧ (x - floorf x < 1)%Q.
Proof.
  unfold floorf. pose proof (Qfloor_le x). pose proof (Qlt_floor x) as Hlt.
  rewrite inject_Z_plus in Hlt. change (inject_Z 1) with 1%Q in Hlt.
  split; lra.
Qed.

(** ** Scaling an angle to a grid *)

Lemma scaled_bounds (a t lo hi : Q) (n : Z) :
  (0 < t)%Q → 0 ≤ n → (lo * t <= a)%Q → (a <= hi * t)%Q →
  (lo * inject_Z n <= a * inject_Z n / t)%Q ∧ (a * inject_Z n / t <= hi * inject_Z n)%Q.
Proof.
  intros Ht Hn Hlo Hhi.
  assert (Hq : (0 <= inject_Z n)%Q) by (change 0%Q with (inject_Z 0); now rewrite <- Zle_Qle).
  split.
  - apply Qle_shift_div_l; [done|].
    setoid_replace (lo * inject_Z n * t)%Q with (lo * t * inject_Z n)%Q using relation Qeq by ring.
    now apply Qmult_le_compat_r.
  - apply Qle_shift_div_r; [done|].
    setoid_replace (hi * inject_Z n * t)%Q with (hi * t * inject_Z n)%Q using relation Qeq by ring.
    now apply Qmult_le_compat_r.
Qed.

Lemma F_TAU_pos : (0 < F_PI)%Q → (0 < F_TAU)%Q.
Proof. unfold F_TAU. intros. lra. Qed.

Lemma F_PI_2_eq : (F_PI_2 == F_PI * (1 # 2))%Q.
Proof. reflexivity. Qed.



(** ** [CalcAzIndices] *)

Lemma CalcAzIndices_range (n : Z) (az : Q) :
  1 ≤ n →
  ∃ i0 i1 mu,
    CalcAzIndices n az = Some (i0, i1, mu)
    ∧ 0 ≤ i0 < n ∧ 0 ≤ i1 < n ∧ (0 <= mu)%Q ∧ (mu < 1)%Q.
Proof.
  intros Hn. unfold CalcAzIndices.
  destruct (Z.eqb_spec n 0) as [->|_]; [lia|].
  eexists _, _, _. split; [reflexivity|].
  split; [apply Z.mod_pos_bound; lia|]. split; [apply Z.mod_pos_bound; lia|].
  apply frac_bounds.
Qed.

(** ** [CalcEvIndices] *)

Lemma CalcEvIndices_range (evcount : Z) (ev : Q) :
  (0 < F_PI)%Q → 1 ≤ evcount ≤ 128 →
  (- F_PI_2 <= ev)%Q → (ev <= F_PI_2)%Q →
  ∃ e0 e1 mu,
    CalcEvIndices evcount ev = (e0, e1, mu)
    ∧ 0 ≤ e0 < evcount ∧ 0 ≤ e1 < evcount ∧ (0 <= mu)%Q ∧ (mu < 1)%Q.
Proof.
  intros Hpi Hn Hlo Hhi. unfold CalcEvIndices.
  rewrite (u32_small (evcount - 1)) by lia.
  pose proof F_PI_2_eq as Hhalf.
  destruct (scaled_bounds (F_PI_2 + ev) F_PI 0 1 (evcount - 1)) as [H0 H1];
    [done|lia|lra|lra|].
  set (x := ((F_PI_2 + ev) * inject_Z (evcount - 1) / F_PI)%Q) in *.
  assert (Hx0 : (0 <= x)%Q) by lra.
  assert (Hx1 : (x <= inject_Z (evcount - 1))%Q) by lra.
  assert (Hx2 : (x < inject_Z (2 ^ 32))%Q).
  { eapply Qle_lt_trans; [apply Hx1|]. rewrite <- Zlt_Qlt.
    change (2 ^ 32) with 4294967296. lia. }
  rewrite fastf2u_floor by done.
  assert (He0 : 0 ≤ Qfloor x ≤ evcount - 1).
  { split.
    - now apply (Qfloor_bounds x 0 (2 ^ 32)).
    - rewrite <- (Qfloor_Z (evcount - 1)). now apply Qfloor_resp_le. }
  eexists _, _, _. split; [reflexivity|].
  split; [lia|]. rewrite (u32_small (Qfloor x + 1)) by lia.
  split; [unfold minu; destruct (Z.ltb_spec (evcount - 1) (Qfloor x + 1)); lia|].
  apply frac_bounds.
Qed.

(** * Properties of the interpolator *)

(** ** Cells of a loaded data set *)

Lemma valid_ring h e :
  Hrtf_valid h → 0 ≤ e < evCount h →
  ∃ az off, at_ (azCount h) e = Some az ∧ at_ (evOffset h) e = Some off
            ∧ ring_ok (irCount h) off az.
Proof.
  intros Hv He. unfold at_.
  destruct (lookup_lt_is_Some_2 (azCount h) (Z.to_nat e)) as [az Haz].
  { pose proof (valid_rows h Hv). lia. }
  destruct (Forall2_lookup_r _ _ _ _ _ (valid_rings h Hv) Haz) as (off & Hoff & Hr).
  eauto.
Qed.

Lemma valid_delay h i :
  Hrtf_valid h → 0 ≤ i < irCount h →
  ∃ d, at_ (delays h) i = Some d ∧ 0 ≤ d ≤ maxDelay.
Proof.
  intros Hv Hi. unfold at_, irCount in *.
  destruct (lookup_lt_is_Some_2 (delays h) (Z.to_nat i)) as [d Hd]; [lia|].
  exists d. split; [done|].
  pose proof (valid_delays h Hv) as Hall. rewrite Forall_lookup in Hall.
  apply (Hall _ _ Hd).
Qed.

Lemma valid_coeff h i j :
  Hrtf_valid h → 0 ≤ i < irCount h → 0 ≤ j < irSize h →
  u32 (u32 (i * irSize h) + j) = i * irSize h + j
  ∧ ∃ c, at_ (coeffs h) (i * irSize h + j) = Some c.
Proof.
  intros Hv Hi Hj.
  pose proof (valid_irCount h Hv) as Hic. pose proof (valid_irSize h Hv) as [Hsz _].
  pose proof (valid_coeffs h Hv) as Hlen.
  unfold MIN_IR_SIZE, MAX_IR_SIZE in Hsz.
  assert (0 ≤ i * irSize h ∧ i * irSize h + j < irCount h * irSize h) by nia.
  assert (irCount h * irSize h ≤ 65535 * 128) by nia.
  split; [rewrite (u32_small (i * irSize h)) by lia; apply u32_small; lia|].
  unfold at_. apply lookup_lt_is_Some_2. lia.
Qed.

Lemma lerp_indices_spec h azimuth e :
  Hrtf_valid h → 0 ≤ e < evCount h →
  ∃ l0 l1 r0 r1 mu,
    lerp_indices h azimuth e = Some (l0, l1, r0, r1, mu)
    ∧ 0 ≤ l0 < irCount h ∧ 0 ≤ l1 < irCount h
    ∧ 0 ≤ r0 < irCount h ∧ 0 ≤ r1 < irCount h
    ∧ (0 <= mu)%Q ∧ (mu < 1)%Q.
Proof.
  intros Hv He. destruct (valid_ring h e Hv He) as (az & off & Haz & Hoff & Hr).
  destruct Hr as (Hazr & Hoff0 & Hsum).
  unfold MIN_AZ_COUNT, MAX_AZ_COUNT in Hazr.
  pose proof (valid_irCount h Hv) as Hic.
  destruct (CalcAzIndices_range az azimuth) as (i0 & i1 & mu & Hcalc & Hi0 & Hi1 & Hmu);
    [lia|].
  unfold lerp_indices. rewrite Haz, Hoff. cbn [mbind option_bind]. rewrite Hcalc.
  cbn [mbind option_bind].
  assert (Hm0 : 0 ≤ u32 (az - i0) mod az < az) by (apply Z.mod_pos_bound; lia).
  assert (Hm1 : 0 ≤ u32 (az - i1) mod az < az) by (apply Z.mod_pos_bound; lia).
  set (m0 := u32 (az - i0) mod az) in *. set (m1 := u32 (az - i1) mod az) in *.
  eexists _, _, _, _, _. split; [reflexivity|].
  rewrite !u32_small by lia. repeat split; try lia; apply Hmu.
Qed.

(** ** Weighted averages *)

Lemma blend_weights (mu0 mu1 mu2 : Q) :
  (0 <= mu0)%Q → (mu0 <= 1)%Q → (0 <= mu1)%Q → (mu1 <= 1)%Q →
  (0 <= mu2)%Q → (mu2 <= 1)%Q →
  (0 <= (1 - mu0) * (1 - mu2))%Q ∧ (0 <= mu0 * (1 - mu2))%Q
  ∧ (0 <= (1 - mu1) * mu2)%Q ∧ (0 <= mu1 * mu2)%Q
  ∧ ((1 - mu0) * (1 - mu2) + mu0 * (1 - mu2) + (1 - mu1) * mu2 + mu1 * mu2 == 1)%Q.
Proof.
  intros. repeat split; try (apply Qmult_le_0_compat; lra). ring.
Qed.

Lemma convex4 (v0 v1 v2 v3 b0 b1 b2 b3 hi : Q) :
  (0 <= b0)%Q → (0 <= b1)%Q → (0 <= b2)%Q → (0 <= b3)%Q →
  (b0 + b1 + b2 + b3 == 1)%Q →
  (0 <= v0)%Q → (v0 <= hi)%Q → (0 <= v1)%Q → (v1 <= hi)%Q →
  (0 <= v2)%Q → (v2 <= hi)%Q → (0 <= v3)%Q → (v3 <= hi)%Q →
  (0 <= v0 * b0 + v1 * b1 + v2 * b2 + v3 * b3)%Q
  ∧ (v0 * b0 + v1 * b1 + v2 * b2 + v3 * b3 <= hi)%Q.
Proof.
  intros B0 B1 B2 B3 Hsum L0 U0 L1 U1 L2 U2 L3 U3.
  pose proof (Qmult_le_0_compat _ _ L0 B0).
  pose proof (Qmult_le_0_compat _ _ L1 B1).
  pose proof (Qmult_le_0_compat _ _ L2 B2).
  pose proof (Qmult_le_0_compat _ _ L3 B3).
  pose proof (Qmult_le_compat_r _ _ _ U0 B0).
  pose proof (Qmult_le_compat_r _ _ _ U1 B1).
  pose proof (Qmult_le_compat_r _ _ _ U2 B2).
  pose proof (Qmult_le_compat_r _ _ _ U3 B3).
  split; [lra|].
  assert (Hhi : (hi == hi * b0 + hi * b1 + hi * b2 + hi * b3)%Q).
  { setoid_replace (hi * b0 + hi * b1 + hi * b2 + hi * b3)%Q
      with (hi * (b0 + b1 + b2 + b3))%Q using relation Qeq by ring.
    rewrite Hsum. ring. }
  lra.
Qed.

Lemma rounded_range (d dirfact : Q) (hi : Z) :
  0 ≤ hi < 2 ^ 32 - 1 →
  (0 <= d)%Q → (d <= inject_Z hi)%Q → (0 <= dirfact)%Q → (dirfact <= 1)%Q →
  0 ≤ fastf2u (d * dirfact + 0.5) ≤ hi.
Proof.
  intros Hhi Hd0 Hd1 Hf0 Hf1.
  pose proof (Qmult_le_0_compat _ _ Hd0 Hf0) as Hp0.
  assert (Hp1 : (d * dirfact <= d)%Q).
  { setoid_replace d with (d * 1)%Q using relation Qeq at 2 by ring.
    rewrite (Qmult_comm d dirfact), (Qmult_comm d 1).
    now apply Qmult_le_compat_r. }
  assert (Hlt : (d * dirfact + 0.5 < inject_Z (hi + 1))%Q).
  { rewrite inject_Z_plus. change (inject_Z 1) with 1%Q. lra. }
  assert (Hlt2 : (d * dirfact + 0.5 < inject_Z (2 ^ 32))%Q).
  { eapply Qlt_le_trans; [apply Hlt|]. rewrite <- Zle_Qle. lia. }
  rewrite fastf2u_floor by (done || lra).
  pose proof (Qfloor_bounds (d * dirfact + 0.5) 0 (hi + 1)) as Hb.
  change (inject_Z 0) with 0%Q in Hb. specialize (Hb ltac:(lra) Hlt). lia.
Qed.

(** ** The coefficient loops *)

Lemma store_Some {A} (a : list A) (i : Z) (x : A) :
  (Z.to_nat i < length a)%nat → store a i x = Some (<[Z.to_nat i := x]> a).
Proof. intros Hi. unfold store. now rewrite decide_True. Qed.

Lemma zero_coeffs_spec n : ∀ i out,
  0 ≤ i → (Z.to_nat i + n ≤ length out)%nat →
  ∃ out',
    zero_coeffs n i out = Some out' ∧ length out' = length out
    ∧ (∀ j, (Z.to_nat i ≤ j < Z.to_nat i + n)%nat → out' !! j = Some (0%Q, 0%Q))
    ∧ (∀ j, (j < Z.to_nat i ∨ Z.to_nat i + n ≤ j)%nat → out' !! j = out !! j).
Proof.
  induction n as [|n IH]; intros i out Hi Hlen.
  - exists out. split; [done|]. split; [done|]. split; [lia|done].
  - cbn [zero_coeffs]. rewrite store_Some by lia. cbn [mbind option_bind].
    destruct (IH (i + 1) (<[Z.to_nat i := (0%Q, 0%Q)]> out)) as (out' & Hrun & Hl & Hz & Hk);
      [lia|rewrite length_insert; lia|].
    exists out'. rewrite length_insert in Hl.
    split; [done|]. split; [done|]. split.
    + intros j Hj. destruct (decide (j = Z.to_nat i)) as [->|Hne].
      * rewrite Hk by lia. apply list_lookup_insert_eq. lia.
      * apply Hz. lia.
    + intros j Hj. rewrite Hk by lia. apply list_lookup_insert_ne. lia.
Qed.

Lemma blended_Some (a : list Z) i0 i1 i2 i3 (blend : Q * Q * Q * Q) :
  is_Some (at_ a i0) → is_Some (at_ a i1) → is_Some (at_ a i2) → is_Some (at_ a i3) →
  is_Some (blended a (i0, i1, i2, i3) blend).
Proof.
  intros [v0 H0] [v1 H1] [v2 H2] [v3 H3]. destruct blend as [[[b0 b1] b2] b3].
  unfold blended. rewrite H0, H1, H2, H3. cbn. eauto.
Qed.

Lemma blended_coeffs h idx blend i :
  Hrtf_valid h → cells_ok h idx → 0 ≤ i < irSize h →
  is_Some (blended (coeffs h) (offset4 (scale4 idx (irSize h)) i) blend).
Proof.
  intros Hv Hidx Hi. destruct idx as [[[i0 i1] i2] i3].
  destruct Hidx as (H0 & H1 & H2 & H3). cbn [scale4 offset4].
  destruct (valid_coeff h i0 i Hv H0 Hi) as [-> ?].
  destruct (valid_coeff h i1 i Hv H1 Hi) as [-> ?].
  destruct (valid_coeff h i2 i Hv H2 Hi) as [-> ?].
  destruct (valid_coeff h i3 i Hv H3 Hi) as [-> ?].
  now apply blended_Some.
Qed.

Lemma lerp_coeff_success h lidx ridx blend dirfact gain base i out :
  Hrtf_valid h → cells_ok h lidx → cells_ok h ridx →
  0 ≤ i < irSize h → (Z.to_nat i < length out)%nat →
  ∃ out',
    lerp_coeff h (scale4 lidx (irSize h)) (scale4 ridx (irSize h))
      blend dirfact gain base i out = Some out'
    ∧ length out' = length out.
Proof.
  intros Hv Hl Hr Hi Hlen. unfold lerp_coeff.
  destruct (blended_coeffs h lidx blend i Hv Hl Hi) as [cl ->].
  destruct (blended_coeffs h ridx blend i Hv Hr Hi) as [cr ->].
  cbn [mbind option_bind]. rewrite store_Some by done.
  eexists. split; [reflexivity|]. apply length_insert.
Qed.

Lemma lerp_coeffs_success h lidx ridx blend dirfact gain n : ∀ i out,
  Hrtf_valid h → cells_ok h lidx → cells_ok h ridx →
  0 ≤ i → i + Z.of_nat n ≤ irSize h → (Z.to_nat i + n ≤ length out)%nat →
  ∃ out',
    lerp_coeffs h (scale4 lidx (irSize h)) (scale4 ridx (irSize h))
      blend dirfact gain n i out = Some out'
    ∧ length out' = length out.
Proof.
  induction n as [|n IH]; intros i out Hv Hl Hr Hi Hn Hlen.
  - exists out. done.
  - cbn [lerp_coeffs].
    destruct (lerp_coeff_success h lidx ridx blend dirfact gain 0%Q i out)
      as (out1 & -> & Hl1); [done|done|done|lia|lia|].
    cbn [mbind option_bind].
    destruct (IH (i + 1) out1) as (out' & Hrun & Hl'); [done|done|done|lia|lia|lia|].
    exists out'. split; [done|lia].
Qed.

(** ** One call of [GetLerpedHrtfCoeffs] *)

Lemma maxDelay_range : 0 ≤ maxDelay ≤ 255.
Proof.
  unfold maxDelay, u8.
  pose proof (Z.mod_pos_bound (HRTF_HISTORY_LENGTH - 1) (2 ^ 8)). lia.
Qed.

Lemma inject_Z_range (d hi : Z) :
  0 ≤ d ≤ hi → (0 <= inject_Z d)%Q ∧ (inject_Z d <= inject_Z hi)%Q.
Proof.
  intros [H0 H1]. split; [change 0%Q with (inject_Z 0)|]; now rewrite <- Zle_Qle.
Qed.

Lemma lerp_delay_spec h idx blend dirfact :
  Hrtf_valid h → cells_ok h idx →
  ∃ k, lerp_delay h idx blend dirfact = Some (u32 (Z.shiftl k HRTFDELAY_BITS))
    ∧ (let '(b0, b1, b2, b3) := blend in
       (0 <= b0)%Q → (0 <= b1)%Q → (0 <= b2)%Q → (0 <= b3)%Q →
       (b0 + b1 + b2 + b3 == 1)%Q → (0 <= dirfact)%Q → (dirfact <= 1)%Q →
       0 ≤ k ≤ maxDelay).
Proof.
  intros Hv Hidx. destruct idx as [[[i0 i1] i2] i3]. destruct blend as [[[b0 b1] b2] b3].
  destruct Hidx as (H0 & H1 & H2 & H3).
  destruct (valid_delay h i0 Hv H0) as (d0 & E0 & R0).
  destruct (valid_delay h i1 Hv H1) as (d1 & E1 & R1).
  destruct (valid_delay h i2 Hv H2) as (d2 & E2 & R2).
  destruct (valid_delay h i3 Hv H3) as (d3 & E3 & R3).
  unfold lerp_delay, blended. rewrite E0, E1, E2, E3. cbn [mbind option_bind].
  eexists. split; [reflexivity|].
  intros B0 B1 B2 B3 Hsum Hf0 Hf1. pose proof maxDelay_range as Hm.
  destruct (inject_Z_range d0 maxDelay R0). destruct (inject_Z_range d1 maxDelay R1).
  destruct (inject_Z_range d2 maxDelay R2). destruct (inject_Z_range d3 maxDelay R3).
  destruct (convex4 (inject_Z d0) (inject_Z d1) (inject_Z d2) (inject_Z d3)
              b0 b1 b2 b3 (inject_Z maxDelay)) as [Hlo Hhi]; try done.
  apply rounded_range; try done. change (2 ^ 32) with 4294967296. lia.
Qed.

Lemma GetLerpedHrtfCoeffs_spec h elevation azimuth spread gain out :
  Hrtf_valid h → (0 < F_PI)%Q →
  (- F_PI_2 <= elevation)%Q → (elevation <= F_PI_2)%Q →
  (Z.to_nat (irSize h) ≤ length out)%nat →
  ∃ out' k0 k1,
    GetLerpedHrtfCoeffs h elevation azimuth spread gain out
    = Some (out', (u32 (Z.shiftl k0 HRTFDELAY_BITS), u32 (Z.shiftl k1 HRTFDELAY_BITS)))
    ∧ length out' = length out
    ∧ (Qle_bool gain 0.0001 = true →
       (∀ j, (j < Z.to_nat (irSize h))%nat → out' !! j = Some (0%Q, 0%Q))
       ∧ (∀ j, (Z.to_nat (irSize h) ≤ j)%nat → out' !! j = out !! j))
    ∧ ((0 <= spread)%Q → (spread <= F_TAU)%Q →
       0 ≤ k0 ≤ maxDelay ∧ 0 ≤ k1 ≤ maxDelay).
Proof.
  intros Hv Hpi Hel0 Hel1 Hout.
  pose proof (valid_evCount h Hv) as Hec. unfold MIN_EV_COUNT, MAX_EV_COUNT in Hec.
  pose proof (valid_irSize h Hv) as [Hsz _]. unfold MIN_IR_SIZE, MAX_IR_SIZE in Hsz.
  destruct (CalcEvIndices_range (evCount h) elevation)
    as (e0 & e1 & mu2 & Hev & He0 & He1 & Hmu2a & Hmu2b); [done|lia|done|done|].
  destruct (lerp_indices_spec h azimuth e0 Hv He0)
    as (l0 & l1 & r0 & r1 & mu0 & Hi0 & Hl0 & Hl1 & Hr0 & Hr1 & Hmu0a & Hmu0b).
  destruct (lerp_indices_spec h azimuth e1 Hv He1)
    as (l2 & l3 & r2 & r3 & mu1 & Hi1 & Hl2 & Hl3 & Hr2 & Hr3 & Hmu1a & Hmu1b).
  unfold GetLerpedHrtfCoeffs. rewrite Hev, Hi0. cbn [mbind option_bind].
  rewrite Hi1. cbn [mbind option_bind].
  set (blend := (((1 - mu0) * (1 - mu2), mu0 * (1 - mu2), (1 - mu1) * mu2, mu1 * mu2))%Q).
  set (dirfact := (1 - spread / F_TAU)%Q).
  assert (Hlc : cells_ok h (l0, l1, l2, l3)) by done.
  assert (Hrc : cells_ok h (r0, r1, r2, r3)) by done.
  destruct (lerp_delay_spec h (l0, l1, l2, l3) blend dirfact Hv Hlc) as (k0 & -> & Hk0).
  destruct (lerp_delay_spec h (r0, r1, r2, r3) blend dirfact Hv Hrc) as (k1 & -> & Hk1).
  cbn [mbind option_bind].
  assert (Hcoef : ∃ out',
    (if Qle_bool gain 0.0001
     then zero_coeffs (Z.to_nat (irSize h)) 0 out
     else
       lerp_coeff h (scale4 (l0, l1, l2, l3) (irSize h)) (scale4 (r0, r1, r2, r3) (irSize h))
         blend dirfact gain PassthruCoeff 0 out
       ≫= λ c0, lerp_coeffs h (scale4 (l0, l1, l2, l3) (irSize h))
                  (scale4 (r0, r1, r2, r3) (irSize h)) blend dirfact gain
                  (Z.to_nat (irSize h - 1)) 1 c0) = Some out'
    ∧ length out' = length out
    ∧ (Qle_bool gain 0.0001 = true →
       (∀ j, (j < Z.to_nat (irSize h))%nat → out' !! j = Some (0%Q, 0%Q))
       ∧ (∀ j, (Z.to_nat (irSize h) ≤ j)%nat → out' !! j = out !! j))).
  { destruct (Qle_bool gain 0.0001).
    - destruct (zero_coeffs_spec (Z.to_nat (irSize h)) 0 out) as (out' & Hrun & Hl & Hz & Hk);
        [lia|simpl; lia|].
      exists out'. split; [done|]. split; [done|]. intros _. split.
      + intros j Hj. apply Hz. simpl. lia.
      + intros j Hj. apply Hk. simpl. lia.
    - destruct (lerp_coeff_success h (l0, l1, l2, l3) (r0, r1, r2, r3) blend dirfact gain
                  PassthruCoeff 0 out) as (c0 & -> & Hl0'); [done|done|done|lia|simpl; lia|].
      cbn [mbind option_bind].
      destruct (lerp_coeffs_success h (l0, l1, l2, l3) (r0, r1, r2, r3) blend dirfact gain
                  (Z.to_nat (irSize h - 1)) 1 c0) as (out' & -> & Hl');
        [done|done|done|lia|lia|lia|].
      exists out'. split; [done|]. split; [lia|]. done. }
  destruct Hcoef as (out' & Hrun & Hlen & Hzero).
  rewrite Hrun. cbn [mbind option_bind].
  exists out', k0, k1. split; [done|]. split; [done|]. split; [done|].
  intros Hs0 Hs1. pose proof (F_TAU_pos Hpi) as Ht.
  destruct (blend_weights mu0 mu1 mu2) as (B0 & B1 & B2 & B3 & Bsum); try lra.
  assert (Hd : (0 <= dirfact)%Q ∧ (dirfact <= 1)%Q).
  { subst dirfact.
    assert (H0 : (0 <= spread / F_TAU)%Q) by (apply Qle_shift_div_l; lra).
    assert (H1 : (spread / F_TAU <= 1)%Q) by (apply Qle_shift_div_r; lra).
    split; lra. }
  destruct Hd. split; [apply Hk0|apply Hk1]; done.
Qed.

(** ** Periodicity in the azimuth *)




Lemma fastf2u_comp (x y : Q) : (x == y)%Q → fastf2u x = fastf2u y.
Proof. intros H. unfold fastf2u. now rewrite (fastf2i_comp _ _ H). Qed.







Lemma GetLerpedHrtfCoeffs_core h elevation azimuth spread gain out :
  GetLerpedHrtfCoeffs h elevation azimuth spread gain out
  = let '(evidx0, evidx1, mu2) := CalcEvIndices (evCount h) elevation in
    i0 ← lerp_indices h azimuth evidx0;
    i1 ← lerp_indices h azimuth evidx1;
    lerp_core h spread gain mu2 i0 i1 out.
Proof.
  unfold GetLerpedHrtfCoeffs, lerp_core.
  destruct (CalcEvIndices (evCount h) elevation) as [[e0 e1] mu2].
  destruct (lerp_indices h azimuth e0) as [[[[[l0 l1] r0] r1] mu0]|]; [|done].
  cbn [mbind option_bind].
  destruct (lerp_indices h azimuth e1) as [[[[[l2 l3] r2] r3] mu1]|]; done.
Qed.

(** * Properties of the B-Format builder *)

Lemma cube_index_spec h pt :
  Hrtf_valid h →
  ∃ l r, cube_index h pt = Some (l, r) ∧ 0 ≤ l < irCount h ∧ 0 ≤ r < irCount h.
Proof.
  intros Hv. unfold cube_index.
  pose proof (valid_evCount h Hv) as Hec. unfold MIN_EV_COUNT, MAX_EV_COUNT in Hec.
  pose proof (valid_irCount h Hv) as Hic.
  rewrite (u32_small (evCount h - 1)) by lia.
  set (e := minu _ _).
  assert (He : 0 ≤ e < evCount h).
  { subst e. unfold minu.
    match goal with |- context [u32 ?x] => pose proof (Z.mod_pos_bound x (2 ^ 32)) as Hm;
      fold (u32 x) in Hm; set (v := u32 x) in * end.
    destruct (Z.ltb_spec (evCount h - 1) v); lia. }
  destruct (valid_ring h e Hv He) as (n & off & -> & -> & Hn & Hoff & Hsum).
  unfold MIN_AZ_COUNT, MAX_AZ_COUNT in Hn. cbn [mbind option_bind].
  destruct (Z.eqb_spec n 0) as [->|_]; [lia|].
  set (a := (u32 (Qfloor _) mod n)).
  assert (Ha : 0 ≤ a < n) by (subst a; apply Z.mod_pos_bound; lia).
  assert (Hm : 0 ≤ u32 (n - a) mod n < n) by (apply Z.mod_pos_bound; lia).
  set (m := u32 (n - a) mod n) in *.
  eexists _, _. split; [reflexivity|]. rewrite !u32_small by lia. lia.
Qed.


Lemma load_fir_spec h idx n : ∀ i temps,
  Hrtf_valid h → 0 ≤ idx < irCount h → 0 ≤ i →
  i + Z.of_nat n ≤ irSize h → (Z.to_nat i + n ≤ length temps)%nat →
  ∃ temps', load_fir h (idx * irSize h) n i temps = Some temps'
            ∧ length temps' = length temps.
Proof.
  induction n as [|n IH]; intros i temps Hv Hidx Hi Hn Hlen.
  - exists temps. done.
  - cbn [load_fir].
    destruct (valid_coeff h idx i Hv Hidx) as [_ [c ->]]; [lia|].
    cbn [mbind option_bind]. rewrite store_Some by lia. cbn [mbind option_bind].
    destruct (IH (i + 1) (<[Z.to_nat i := (inject_Z c / 32767)%Q]> temps))
      as (temps' & Hrun & Hl); [done|done|lia|lia|rewrite length_insert; lia|].
    exists temps'. split; [done|]. now rewrite length_insert in Hl.
Qed.

Lemma add_fir_spec n : ∀ j k w ear temps chan,
  0 ≤ j → 0 ≤ k → (Z.to_nat k + n ≤ length temps)%nat →
  (Z.to_nat j + n ≤ length chan)%nat →
  ∃ chan', add_fir n j k w ear temps chan = Some chan'
           ∧ length chan' = length chan.
Proof.
  induction n as [|n IH]; intros j k w ear temps chan Hj Hk Ht Hc.
  - exists chan. done.
  - cbn [add_fir]. unfold at_.
    destruct (lookup_lt_is_Some_2 temps (Z.to_nat k)) as [t ->]; [lia|].
    destruct (lookup_lt_is_Some_2 chan (Z.to_nat j)) as [[l r] ->]; [lia|].
    cbn [mbind option_bind]. rewrite store_Some by lia. cbn [mbind option_bind].
    set (x := if ear then _ else _).
    destruct (IH (j + 1) (k + 1) w ear temps (<[Z.to_nat j := x]> chan))
      as (chan' & Hrun & Hl); [lia|lia|lia|rewrite length_insert; lia|].
    exists chan'. split; [done|]. now rewrite length_insert in Hl.
Qed.

Lemma CubeMatrix_at c i :
  0 ≤ c < 8 → 0 ≤ i < 4 →
  is_Some (row ← at_ CubeMatrix c; band ← at_ row 0; at_ band i).
Proof.
  intros Hc Hi. unfold at_.
  assert (Hc' : (Z.to_nat c < 8)%nat) by lia.
  assert (Hi' : (Z.to_nat i < 4)%nat) by lia.
  destruct (Z.to_nat c) as [|[|[|[|[|[|[|[|?]]]]]]]]; try lia;
    (destruct (Z.to_nat i) as [|[|[|[|?]]]]; try lia; cbn; eauto).
Qed.

Lemma add_channels_spec n : ∀ i c delay ear temps coeffs,
  bank_ok coeffs → 0 ≤ c < 8 → 0 ≤ i → i + Z.of_nat n ≤ 4 → 0 ≤ delay →
  length temps = Z.to_nat HRIR_LENGTH →
  ∃ coeffs', add_channels n i c delay ear temps coeffs = Some coeffs'
             ∧ bank_ok coeffs'.
Proof.
  induction n as [|n IH]; intros i c delay ear temps coeffs Hb Hc Hi Hn Hd Ht.
  - exists coeffs. done.
  - cbn [add_channels].
    destruct (CubeMatrix_at c i) as [w ->]; [done|lia|].
    cbn [mbind option_bind]. destruct Hb as [Hb4 Hball]. unfold at_ at 1.
    destruct (lookup_lt_is_Some_2 coeffs (Z.to_nat i)) as [chan Hchan]; [lia|].
    rewrite Hchan. cbn [mbind option_bind].
    assert (Hcl : length chan = Z.to_nat HRIR_LENGTH).
    { rewrite Forall_lookup in Hball. apply (Hball _ _ Hchan). }
    assert (Hfir : ∃ chan',
      add_fir (Z.to_nat (HRIR_LENGTH - delay)) delay 0 w ear temps chan = Some chan'
      ∧ length chan' = length chan).
    { destruct (Z.le_gt_cases delay HRIR_LENGTH).
      - apply add_fir_spec; lia.
      - replace (Z.to_nat (HRIR_LENGTH - delay)) with 0%nat by lia. exists chan. done. }
    destruct Hfir as (chan' & -> & Hl).
    cbn [mbind option_bind]. rewrite store_Some by lia. cbn [mbind option_bind].
    apply IH; try done; try lia.
    split; [rewrite length_insert; lia|].
    apply Forall_insert; [done|lia].
Qed.

Lemma add_response_spec h min_delay c idx ear temps coeffs ml :
  Hrtf_valid h → irSize h ≤ HRIR_LENGTH → 0 ≤ c < 8 →
  0 ≤ idx < irCount h → bank_ok coeffs → length temps = Z.to_nat HRIR_LENGTH →
  ∃ temps' coeffs' delay,
    shift_of h min_delay idx = Some delay
    ∧ add_response h 4 min_delay c idx ear (temps, coeffs, ml)
      = Some (temps', coeffs',
              maxu ml (minu (u32 (delay + irSize h)) HRIR_LENGTH))
    ∧ bank_ok coeffs' ∧ length temps' = Z.to_nat HRIR_LENGTH.
Proof.
  intros Hv Hsz Hc Hidx Hb Ht. unfold add_response.
  pose proof (valid_irSize h Hv) as [Hs _]. unfold MIN_IR_SIZE, MAX_IR_SIZE in Hs.
  pose proof (valid_irCount h Hv) as Hic.
  assert (Hu : u32 (idx * irSize h) = idx * irSize h) by (apply u32_small; nia).
  rewrite Hu.
  destruct (load_fir_spec h idx (Z.to_nat (irSize h)) 0 temps)
    as (temps' & -> & Hl); [done|done|lia|lia|lia|].
  cbn [mbind option_bind]. unfold shift_of.
  destruct (valid_delay h idx Hv Hidx) as (d & -> & _). cbn [mbind option_bind].
  destruct (add_channels_spec (Z.to_nat 4) 0 c (u32 (d - min_delay)) ear temps' coeffs)
    as (coeffs' & -> & Hb'); try done; try lia.
  { apply Z.mod_pos_bound. lia. }
  cbn [mbind option_bind]. eexists _, _, _. split; [reflexivity|].
  split; [reflexivity|]. split; [done|lia].
Qed.


Lemma LoadHrtf01_valid (buf : list byte) (name : string) (h : Hrtf) :
  LoadHrtf01 buf name = Loaded h → Hrtf_valid h.
Proof.
  intros H. destruct (LoadHrtf01_inv buf name) as [_ Hinv].
  destruct (Hinv h H) as (?&?&?&?&?&?&?&?&?&?&?&?&?&?&?&?&?&?&Hv). exact Hv.
Qed.

(** ** The values the coefficient loops write *)

Lemma lerp_coeff_value h lidx ridx blend dirfact gain base i out :
  Hrtf_valid h → cells_ok h lidx → cells_ok h ridx →
  0 ≤ i < irSize h → (Z.to_nat i < length out)%nat →
  ∃ cl cr,
    lerp_coeff h (scale4 lidx (irSize h)) (scale4 ridx (irSize h))
      blend dirfact gain base i out
    = Some (<[Z.to_nat i := ((lerp base cl dirfact * gain * (1 / 32767))%Q,
                             (lerp base cr dirfact * gain * (1 / 32767))%Q)]> out).
Proof.
  intros Hv Hl Hr Hi Hlen. unfold lerp_coeff.
  destruct (blended_coeffs h lidx blend i Hv Hl Hi) as [cl ->].
  destruct (blended_coeffs h ridx blend i Hv Hr Hi) as [cr ->].
  cbn [mbind option_bind]. rewrite store_Some by done. eauto.
Qed.

Lemma lerp_coeffs_value h lidx ridx blend dirfact gain n : ∀ i out,
  Hrtf_valid h → cells_ok h lidx → cells_ok h ridx →
  0 ≤ i → i + Z.of_nat n ≤ irSize h → (Z.to_nat i + n ≤ length out)%nat →
  ∃ out',
    lerp_coeffs h (scale4 lidx (irSize h)) (scale4 ridx (irSize h))
      blend dirfact gain n i out = Some out'
    ∧ (∀ j, (Z.to_nat i ≤ j < Z.to_nat i + n)%nat →
         ∃ cl cr, out' !! j = Some ((lerp 0 cl dirfact * gain * (1 / 32767))%Q,
                                    (lerp 0 cr dirfact * gain * (1 / 32767))%Q))
    ∧ (∀ j, (j < Z.to_nat i ∨ Z.to_nat i + n ≤ j)%nat → out' !! j = out !! j).
Proof.
  induction n as [|n IH]; intros i out Hv Hl Hr Hi Hn Hlen.
  - exists out. split; [done|]. split; [lia|done].
  - cbn [lerp_coeffs].
    destruct (lerp_coeff_value h lidx ridx blend dirfact gain 0%Q i out)
      as (cl & cr & ->); [done|done|done|lia|lia|].
    cbn [mbind option_bind]. set (p := (_, _)).
    destruct (IH (i + 1) (<[Z.to_nat i := p]> out)) as (out' & Hrun & Hw & Hk);
      [done|done|done|lia|lia|rewrite length_insert; lia|].
    exists out'. split; [done|]. split.
    + intros j Hj. destruct (decide (j = Z.to_nat i)) as [->|Hne].
      * exists cl, cr. rewrite Hk by lia. apply list_lookup_insert_eq. lia.
      * apply Hw. lia.
    + intros j Hj. rewrite Hk by lia. apply list_lookup_insert_ne. lia.
Qed.

Lemma GetLerpedHrtfCoeffs_values h elevation azimuth spread gain out :
  Hrtf_valid h → (0 < F_PI)%Q →
  (- F_PI_2 <= elevation)%Q → (elevation <= F_PI_2)%Q →
  (Z.to_nat (irSize h) ≤ length out)%nat → Qle_bool gain 0.0001 = false →
  let dirfact := (1 - spread / F_TAU)%Q in
  ∃ out' d0 d1,
    GetLerpedHrtfCoeffs h elevation azimuth spread gain out
    = Some (out', (u32 (Z.shiftl (fastf2u (d0 * dirfact + 0.5)) HRTFDELAY_BITS),
                   u32 (Z.shiftl (fastf2u (d1 * dirfact + 0.5)) HRTFDELAY_BITS)))
    ∧ (∃ cl cr,
         out' !! 0%nat = Some ((lerp PassthruCoeff cl dirfact * gain * (1 / 32767))%Q,
                               (lerp PassthruCoeff cr dirfact * gain * (1 / 32767))%Q))
    ∧ (∀ j, (1 ≤ j < Z.to_nat (irSize h))%nat →
         ∃ cl cr, out' !! j = Some ((lerp 0 cl dirfact * gain * (1 / 32767))%Q,
                                    (lerp 0 cr dirfact * gain * (1 / 32767))%Q))
    ∧ (∀ j, (Z.to_nat (irSize h) ≤ j)%nat → out' !! j = out !! j).
Proof.
  intros Hv Hpi Hel0 Hel1 Hout Hgain dirfact.
  pose proof (valid_evCount h Hv) as Hec. unfold MIN_EV_COUNT, MAX_EV_COUNT in Hec.
  pose proof (valid_irSize h Hv) as [Hsz _]. unfold MIN_IR_SIZE, MAX_IR_SIZE in Hsz.
  destruct (CalcEvIndices_range (evCount h) elevation)
    as (e0 & e1 & mu2 & Hev & He0 & He1 & _); [done|lia|done|done|].
  destruct (lerp_indices_spec h azimuth e0 Hv He0)
    as (l0 & l1 & r0 & r1 & mu0 & Hi0 & Hl0 & Hl1 & Hr0 & Hr1 & _).
  destruct (lerp_indices_spec h azimuth e1 Hv He1)
    as (l2 & l3 & r2 & r3 & mu1 & Hi1 & Hl2 & Hl3 & Hr2 & Hr3 & _).
  unfold GetLerpedHrtfCoeffs. rewrite Hev, Hi0. cbn [mbind option_bind].
  rewrite Hi1. cbn [mbind option_bind]. rewrite Hgain. fold dirfact.
  set (blend := (((1 - mu0) * (1 - mu2), mu0 * (1 - mu2), (1 - mu1) * mu2, mu1 * mu2))%Q).
  assert (Hlc : cells_ok h (l0, l1, l2, l3)) by done.
  assert (Hrc : cells_ok h (r0, r1, r2, r3)) by done.
  assert (Hd : ∀ idx, cells_ok h idx → ∃ d,
            lerp_delay h idx blend dirfact
            = Some (u32 (Z.shiftl (fastf2u (d * dirfact + 0.5)) HRTFDELAY_BITS))).
  { intros [[[i0 i1] i2] i3] (H0 & H1 & H2 & H3).
    destruct (valid_delay h i0 Hv H0) as (x0 & E0 & _).
    destruct (valid_delay h i1 Hv H1) as (x1 & E1 & _).
    destruct (valid_delay h i2 Hv H2) as (x2 & E2 & _).
    destruct (valid_delay h i3 Hv H3) as (x3 & E3 & _).
    unfold lerp_delay, blended, blend. rewrite E0, E1, E2, E3.
    cbn [mbind option_bind]. eauto. }
  destruct (Hd _ Hlc) as (d0 & ->). destruct (Hd _ Hrc) as (d1 & ->).
  cbn [mbind option_bind].
  destruct (lerp_coeff_value h (l0, l1, l2, l3) (r0, r1, r2, r3) blend dirfact gain
              PassthruCoeff 0 out) as (cl & cr & ->); [done|done|done|lia|lia|].
  cbn [mbind option_bind].
  set (p := ((lerp PassthruCoeff cl dirfact * gain * (1 / 32767))%Q, _)).
  destruct (lerp_coeffs_value h (l0, l1, l2, l3) (r0, r1, r2, r3) blend dirfact gain
              (Z.to_nat (irSize h - 1)) 1 (<[Z.to_nat 0 := p]> out))
    as (out' & -> & Hw & Hk); [done|done|done|lia|lia|rewrite length_insert; lia|].
  cbn [mbind option_bind]. exists out', d0, d1. split; [reflexivity|].
  split; [|split].
  - exists cl, cr. rewrite Hk by lia. apply list_lookup_insert_eq. lia.
  - intros j Hj. apply Hw. lia.
  - intros j Hj. rewrite Hk by lia. apply list_lookup_insert_ne. lia.
Qed.

(** ** The builder on any loaded data set *)

Lemma minu_min a b : minu a b = Z.min a b.
Proof. unfold minu. destruct (Z.ltb_spec b a); lia. Qed.

Lemma maxu_max a b : maxu a b = Z.max a b.
Proof. unfold maxu. destruct (Z.ltb_spec a b); lia. Qed.

Lemma cube_indices_runs h : ∀ pts md,
  Hrtf_valid h →
  ∃ ls rs md',
    cube_indices h pts md = Some (ls, rs, md')
    ∧ length ls = length pts ∧ length rs = length pts
    ∧ md' ≤ md ∧ (0 ≤ md → 0 ≤ md')
    ∧ Forall (λ i, 0 ≤ i < irCount h
                   ∧ ∃ d, at_ (delays h) i = Some d ∧ md' ≤ d ≤ maxDelay) (ls ++ rs).
Proof.
  induction pts as [|pt pts IH]; intros md Hv.
  - exists [], [], md. cbn. split; [done|]. split; [done|]. split; [done|].
    split; [lia|]. split; [done|constructor].
  - destruct (cube_index_spec h pt Hv) as (l & r & Hidx & Hl & Hr).
    destruct (valid_delay h l Hv Hl) as (dl & Hdl & Hdlr).
    destruct (valid_delay h r Hv Hr) as (dr & Hdr & Hdrr).
    cbn [cube_indices]. rewrite Hidx. cbn [mbind option_bind]. rewrite Hdl, Hdr.
    cbn [mbind option_bind].
    destruct (IH (minu md (minu dl dr)) Hv)
      as (ls & rs & md' & Hrun & Hls & Hrs & Hle & Hpos & Hall).
    rewrite Hrun. cbn [mbind option_bind]. rewrite !minu_min in Hle, Hpos.
    exists (l :: ls), (r :: rs), md'. split; [done|].
    split; [simpl; lia|]. split; [simpl; lia|]. split; [lia|]. split; [lia|].
    apply Forall_app in Hall as [Ha Hb].
    apply Forall_app. split; constructor; try done.
    + split; [done|]. exists dl. split; [done|lia].
    + split; [done|]. exists dr. split; [done|lia].
Qed.

Lemma add_cube_runs h md : ∀ lidx ridx c temps coeffs ml,
  Hrtf_valid h → irSize h ≤ HRIR_LENGTH → 0 ≤ md →
  0 ≤ c → c + Z.of_nat (length lidx) ≤ 8 → length ridx = length lidx →
  Forall (λ i, 0 ≤ i < irCount h
               ∧ ∃ d, at_ (delays h) i = Some d ∧ md ≤ d ≤ maxDelay) (lidx ++ ridx) →
  bank_ok coeffs → length temps = Z.to_nat HRIR_LENGTH → 0 ≤ ml ≤ HRIR_LENGTH →
  ∃ temps' coeffs' ml',
    add_cube h 4 md c lidx ridx (temps, coeffs, ml) = Some (temps', coeffs', ml')
    ∧ bank_ok coeffs' ∧ ml ≤ ml' ≤ HRIR_LENGTH
    ∧ (lidx ≠ [] → irSize h ≤ ml').
Proof.
  induction lidx as [|l lidx IH]; intros ridx c temps coeffs ml Hv Hsz Hmd Hc Hc8 Hlen
    Hall Hb Ht Hml.
  - destruct ridx; [|done]. exists temps, coeffs, ml. split; [done|].
    split; [done|]. split; [lia|done].
  - destruct ridx as [|r ridx]; [done|]. cbn [add_cube].
    apply Forall_app in Hall as [Hl Hr].
    apply Forall_cons in Hl as [[Hl0 (dl & Hdl & Hdlr)] Hl].
    apply Forall_cons in Hr as [[Hr0 (dr & Hdr & Hdrr)] Hr].
    pose proof (valid_irSize h Hv) as [Hs _]. unfold MIN_IR_SIZE, MAX_IR_SIZE in Hs.
    pose proof maxDelay_range as Hm.
    assert (Hlen1 : ∀ d, md ≤ d ≤ maxDelay →
              irSize h ≤ minu (u32 (u32 (d - md) + irSize h)) HRIR_LENGTH ≤ HRIR_LENGTH).
    { intros d Hd. rewrite (u32_small (d - md)) by lia.
      rewrite u32_small by lia. rewrite minu_min. lia. }
    destruct (add_response_spec h md c l false temps coeffs ml)
      as (t1 & c1 & sl & Hs1 & -> & Hb1 & Ht1); try done; [simpl in Hc8; lia|].
    unfold shift_of in Hs1. rewrite Hdl in Hs1. cbn in Hs1. injection Hs1 as <-.
    cbn [mbind option_bind]. set (ml1 := maxu ml _).
    destruct (add_response_spec h md c r true t1 c1 ml1)
      as (t2 & c2 & sr & Hs2 & -> & Hb2 & Ht2); try done; [simpl in Hc8; lia|].
    unfold shift_of in Hs2. rewrite Hdr in Hs2. cbn in Hs2. injection Hs2 as <-.
    cbn [mbind option_bind]. set (ml2 := maxu ml1 _).
    pose proof (Hlen1 dl Hdlr) as Hbl. pose proof (Hlen1 dr Hdrr) as Hbr.
    assert (Hml1 : ml ≤ ml1 ≤ HRIR_LENGTH ∧ irSize h ≤ ml1).
    { subst ml1. rewrite maxu_max. lia. }
    assert (Hml2 : ml1 ≤ ml2 ≤ HRIR_LENGTH).
    { subst ml2. rewrite maxu_max. lia. }
    destruct (IH ridx (c + 1) t2 c2 ml2) as (t' & c' & ml' & Hrun & Hb' & Hr' & _);
      try done; try (simpl in *; lia).
    { apply Forall_app. done. }
    exists t', c', ml'. split; [done|]. split; [done|]. split; [lia|]. intros _. lia.
Qed.

(** * The decoders: loaded data sets, size bounds, truncation *)

(** X1: every data set either decoder returns is valid: the header fields
    are within the limits, every ring lies inside the table of [irCount]
    directions, the coefficient table has [irCount * irSize] samples and
    no delay exceeds [maxDelay]. *)
Theorem loaded_is_valid (buf : list byte) (name : string) (h : Hrtf) :
  LoadHrtf00 buf name = Loaded h ∨ LoadHrtf01 buf name = Loaded h →
  Hrtf_valid h.
Proof.
  intros [H|H].
  - destruct (LoadHrtf00_inv buf name) as [_ Hinv].
    destruct (Hinv h H) as (?&?&?&?&?&?&?&?&?&?&?&?&?&?&?&?&?&?&?&Hv). exact Hv.
  - destruct (LoadHrtf01_inv buf name) as [_ Hinv].
    destruct (Hinv h H) as (?&?&?&?&?&?&?&?&?&?&?&?&?&?&?&?&?&?&Hv). exact Hv.
Qed.

(** X2: in a valid data set every linear index [evOffset[e] + a] with
    [a < azCount[e]], and its mirror image for the right ear, is below
    [irCount]; the delay and the [irSize] coefficients stored for it
    exist. *)
Theorem valid_indices_in_bounds (h : Hrtf) (e a : Z) :
  Hrtf_valid h → 0 ≤ e < evCount h →
  ∃ az off,
    at_ (azCount h) e = Some az ∧ at_ (evOffset h) e = Some off
    ∧ (0 ≤ a < az →
       let l := off + a in
       let r := off + (az - a) mod az in
       0 ≤ l < irCount h ∧ 0 ≤ r < irCount h
       ∧ is_Some (at_ (delays h) l) ∧ is_Some (at_ (delays h) r)
       ∧ ∀ j, 0 ≤ j < irSize h →
           is_Some (at_ (coeffs h) (l * irSize h + j))
           ∧ is_Some (at_ (coeffs h) (r * irSize h + j))).
Proof.
  intros Hv He. destruct (valid_ring h e Hv He) as (az & off & Haz & Hoff & Hn & Ho & Hs).
  exists az, off. split; [done|]. split; [done|]. intros Ha.
  unfold MIN_AZ_COUNT, MAX_AZ_COUNT in Hn.
  pose proof (Z.mod_pos_bound (az - a) az ltac:(lia)) as Hm.
  cbv zeta. set (m := (az - a) mod az) in *.
  assert (Hl : 0 ≤ off + a < irCount h) by lia.
  assert (Hr : 0 ≤ off + m < irCount h) by lia.
  split; [done|]. split; [done|].
  destruct (valid_delay h _ Hv Hl) as (dl & -> & _).
  destruct (valid_delay h _ Hv Hr) as (dr & -> & _).
  split; [eauto|]. split; [eauto|]. intros j Hj.
  destruct (valid_coeff h _ j Hv Hl Hj) as [_ [cl ->]].
  destruct (valid_coeff h _ j Hv Hr Hj) as [_ [cr ->]]. eauto.
Qed.

(** A data set decoded from a v1 buffer has its offsets and its number of
    directions given by the sums of the ring sizes. *)
Lemma LoadHrtf01_reconciled (buf : list byte) (name : string) (h : Hrtf) :
  LoadHrtf01 buf name = Loaded h →
  evOffset h = summed01 0 (azCount h) ∧ irCount h = summed_to 0 (azCount h).
Proof.
  intros H. destruct (LoadHrtf01_inv buf name) as [_ Hinv].
  destruct (Hinv h H) as (?&?&?&?&?&?&?&?&?&?&?&?&?&?&Hoff&Hic&?). done.
Qed.

Lemma summed01_first o azs : azs ≠ [] → summed01 o azs !! 0%nat = Some o.
Proof. destruct azs; [done|reflexivity]. Qed.

Lemma summed01_step : ∀ azs o i x x' a,
  summed01 o azs !! i = Some x → summed01 o azs !! S i = Some x' →
  azs !! i = Some a → x' - x = a.
Proof.
  induction azs as [|az azs IH]; intros o i x x' a Hx Hx' Ha; [done|].
  destruct i as [|i]; cbn in *.
  - destruct azs; [done|]. cbn in Hx'. injection Hx as <-. injection Hx' as <-.
    injection Ha as <-. lia.
  - eapply IH; eauto.
Qed.

Lemma summed01_last : ∀ azs o x a,
  summed01 o azs !! (length azs - 1)%nat = Some x →
  azs !! (length azs - 1)%nat = Some a → summed_to o azs = x + a.
Proof.
  induction azs as [|az azs IH]; intros o x a Hx Ha; [done|].
  destruct azs as [|az' azs].
  - cbn in *. injection Hx as <-. injection Ha as <-. reflexivity.
  - cbn [summed_to summed01 length] in *.
    replace (S (S (length azs)) - 1)%nat with (S (length (az' :: azs) - 1)) in Hx, Ha
      by (simpl; lia).
    cbn [lookup list_lookup] in Hx, Ha. apply (IH (o + az) x a); done.
Qed.

(** X3: a data set decoded from a v1 buffer has [evOffset[0] = 0],
    [evOffset[i+1] - evOffset[i] = azCount[i]] for every ring but the last,
    and [irCount = evOffset[evCount-1] + azCount[evCount-1]]. *)
Theorem LoadHrtf01_offsets (buf : list byte) (name : string) (h : Hrtf) :
  LoadHrtf01 buf name = Loaded h →
  evOffset h !! 0%nat = Some 0
  ∧ (∀ i x x' a,
       evOffset h !! i = Some x → evOffset h !! S i = Some x' →
       azCount h !! i = Some a → x' - x = a)
  ∧ (∀ x a,
       at_ (evOffset h) (evCount h - 1) = Some x →
       at_ (azCount h) (evCount h - 1) = Some a → irCount h = x + a).
Proof.
  intros H. destruct (LoadHrtf01_reconciled buf name h H) as [Hoff Hic].
  pose proof (LoadHrtf01_valid buf name h H) as Hv.
  pose proof (valid_evCount h Hv) as Hec. unfold MIN_EV_COUNT in Hec.
  pose proof (valid_rows h Hv) as Hrows.
  rewrite Hoff, Hic. split; [|split].
  - apply summed01_first. intros E. rewrite E in Hrows. simpl in Hrows. lia.
  - apply summed01_step.
  - unfold at_. replace (Z.to_nat (evCount h - 1)) with (length (azCount h) - 1)%nat by lia.
    apply summed01_last.
Qed.

(** C4: a header whose irSize is 7, 9 or 129 makes either decoder return
    no data set, with the line about the size logged first; an irSize of
    8, 16 or 128 passes the check: the size predicate is false and, if the
    buffer is rejected later on, no line about the size is in the log. *)
Theorem irSize_bounds_checked (r0 r1 r2 r3 c0 c1 z0 z1 sz ev : byte)
    (rest : list byte) (name : string) :
  let buf00 := r0 :: r1 :: r2 :: r3 :: c0 :: c1 :: z0 :: z1 :: ev :: rest in
  let buf01 := r0 :: r1 :: r2 :: r3 :: sz :: ev :: rest in
  let sz00 := le16 (ubyte z0) (ubyte z1) in
  let sz01 := ubyte sz in
  (sz00 ∈ [7; 9; 129] →
   ∃ l, LoadHrtf00 buf00 name = Rejected (UnsupportedIrSize sz00 :: l))
  ∧ (sz01 ∈ [7; 9; 129] →
     ∃ l, LoadHrtf01 buf01 name = Rejected (UnsupportedIrSize sz01 :: l))
  ∧ (sz00 ∈ [8; 16; 128] →
     bad_irSize sz00 = false
     ∧ ∀ l, LoadHrtf00 buf00 name = Rejected l → Forall not_irSize_line l)
  ∧ (sz01 ∈ [8; 16; 128] →
     bad_irSize sz01 = false
     ∧ ∀ l, LoadHrtf01 buf01 name = Rejected l → Forall not_irSize_line l).
Proof.
  cbv zeta.
  assert (Hbad : ∀ x, x ∈ [7; 9; 129] → bad_irSize x = true).
  { intros x Hx. repeat (apply elem_of_cons in Hx as [->|Hx]; [reflexivity|]).
    now apply elem_of_nil in Hx. }
  assert (Hgood : ∀ x, x ∈ [8; 16; 128] → bad_irSize x = false).
  { intros x Hx. repeat (apply elem_of_cons in Hx as [->|Hx]; [reflexivity|]).
    now apply elem_of_nil in Hx. }
  split; [|split; [|split]].
  - intros Hsz. rewrite LoadHrtf00_cons, load_body00_bad by (now rewrite Hbad).
    unfold header_errors. rewrite Hbad by done. cbn. eauto.
  - intros Hsz. rewrite LoadHrtf01_cons, load_body01_bad by (now rewrite Hbad).
    unfold header_errors. rewrite Hbad by done. cbn. eauto.
  - intros Hsz. split; [now apply Hgood|]. intros l. rewrite LoadHrtf00_cons.
    apply result_of_logs_only, logs_only_load_body00. now apply Hgood.
  - intros Hsz. split; [now apply Hgood|]. intros l. rewrite LoadHrtf01_cons.
    apply result_of_logs_only, logs_only_load_body01. now apply Hgood.
Qed.


(** * The grid indexer and the interpolator *)

Lemma zero_coeffs_inv n : ∀ i out out',
  0 ≤ i → zero_coeffs n i out = Some out' →
  length out' = length out
  ∧ (∀ j, (Z.to_nat i ≤ j < Z.to_nat i + n)%nat → out' !! j = Some (0%Q, 0%Q))
  ∧ (∀ j, (j < Z.to_nat i)%nat → out' !! j = out !! j).
Proof.
  induction n as [|n IH]; intros i out out' Hi Hrun.
  - injection Hrun as <-. split; [done|]. split; [lia|done].
  - cbn [zero_coeffs] in Hrun. unfold store in Hrun.
    destruct (decide (Z.to_nat i < length out)%nat) as [Hlt|]; [|done].
    cbn [mbind option_bind] in Hrun.
    destruct (IH (i + 1) _ _ ltac:(lia) Hrun) as (Hl & Hz & Hk).
    rewrite length_insert in Hl. split; [done|]. split.
    + intros j Hj. destruct (decide (j = Z.to_nat i)) as [->|Hne].
      * rewrite Hk by lia. now apply list_lookup_insert_eq.
      * apply Hz. lia.
    + intros j Hj. rewrite Hk by lia. apply list_lookup_insert_ne. lia.
Qed.


(** C6: when [gain] is at most 0.0001, whatever the data set and the
    direction, a call of [GetLerpedHrtfCoeffs] that returns has written 0.0
    into the [irSize] left/right coefficient pairs of the output buffer;
    and the call does return for a loaded data set, an elevation between
    the poles and a buffer of at least [irSize] pairs. *)
Theorem gain_gate_zeroes (h : Hrtf) (elevation azimuth spread gain : Q)
    (out : list (Q * Q)) :
  (gain <= 0.0001)%Q →
  (∀ out' d,
     GetLerpedHrtfCoeffs h elevation azimuth spread gain out = Some (out', d) →
     ∀ j, (j < Z.to_nat (irSize h))%nat → out' !! j = Some (0%Q, 0%Q))
  ∧ (Hrtf_valid h → (0 < F_PI)%Q →
     (- F_PI_2 <= elevation)%Q → (elevation <= F_PI_2)%Q →
     (Z.to_nat (irSize h) ≤ length out)%nat →
     is_Some (GetLerpedHrtfCoeffs h elevation azimuth spread gain out)).
Proof.
  intros Hg. apply Qle_bool_iff in Hg. split.
  - intros out' d. rewrite GetLerpedHrtfCoeffs_core.
    destruct (CalcEvIndices (evCount h) elevation) as [[e0 e1] mu2].
    destruct (lerp_indices h azimuth e0) as [[[[[l0 l1] r0] r1] mu0]|]; [|done].
    cbn [mbind option_bind].
    destruct (lerp_indices h azimuth e1) as [[[[[l2 l3] r2] r3] mu1]|]; [|done].
    cbn [mbind option_bind]. unfold lerp_core. rewrite Hg.
    destruct (lerp_delay h (l0, l1, l2, l3) _ _) as [d0|]; [|done].
    destruct (lerp_delay h (r0, r1, r2, r3) _ _) as [d1|]; [|done].
    cbn [mbind option_bind].
    destruct (zero_coeffs (Z.to_nat (irSize h)) 0 out) as [o|] eqn:Hz; [|done].
    cbn [mbind option_bind]. intros [= <- <-] j Hj.
    destruct (zero_coeffs_inv _ 0 _ _ ltac:(lia) Hz) as (_ & Hzero & _).
    apply Hzero. simpl. lia.
  - intros Hv Hpi Hlo Hhi Hlen.
    destruct (GetLerpedHrtfCoeffs_spec h elevation azimuth spread gain out)
      as (out' & k0 & k1 & -> & _); done.
Qed.


(** C10: for a loaded data set whose delays are all at most
    [HRTF_HISTORY_LENGTH - 1], an elevation between the poles, any azimuth
    and a spread in [0, 2π], each of the two delays [GetLerpedHrtfCoeffs]
    writes is an integer [k] shifted left by [HRTFDELAY_BITS] with
    [0 <= k <= HRTF_HISTORY_LENGTH - 1]; the shift does not wrap when
    [HRTF_HISTORY_LENGTH * 2^HRTFDELAY_BITS] fits 32 bits. *)
Theorem lerped_delays_bounded (h : Hrtf) (elevation azimuth spread gain : Q)
    (out : list (Q * Q)) :
  Hrtf_valid h → Forall (λ d, d ≤ HRTF_HISTORY_LENGTH - 1) (delays h) →
  (0 < F_PI)%Q → (- F_PI_2 <= elevation)%Q → (elevation <= F_PI_2)%Q →
  (0 <= spread)%Q → (spread <= F_TAU)%Q →
  (Z.to_nat (irSize h) ≤ length out)%nat →
  ∃ out' k0 k1,
    GetLerpedHrtfCoeffs h elevation azimuth spread gain out
    = Some (out', (u32 (Z.shiftl k0 HRTFDELAY_BITS), u32 (Z.shiftl k1 HRTFDELAY_BITS)))
    ∧ 0 ≤ k0 ≤ HRTF_HISTORY_LENGTH - 1 ∧ 0 ≤ k1 ≤ HRTF_HISTORY_LENGTH - 1
    ∧ (0 ≤ HRTFDELAY_BITS → HRTF_HISTORY_LENGTH * 2 ^ HRTFDELAY_BITS ≤ 2 ^ 32 →
       u32 (Z.shiftl k0 HRTFDELAY_BITS) = k0 * 2 ^ HRTFDELAY_BITS
       ∧ u32 (Z.shiftl k1 HRTFDELAY_BITS) = k1 * 2 ^ HRTFDELAY_BITS).
Proof.
  intros Hv Hmax Hpi Hel0 Hel1 Hs0 Hs1 Hlen.
  destruct (GetLerpedHrtfCoeffs_spec h elevation azimuth spread gain out)
    as (out' & k0 & k1 & Hrun & _ & _ & Hk); try done.
  destruct (Hk Hs0 Hs1) as [Hk0 Hk1].
  assert (Hm : maxDelay ≤ HRTF_HISTORY_LENGTH - 1).
  { destruct (Z.le_gt_cases 1 HRTF_HISTORY_LENGTH) as [H1|H1].
    - unfold maxDelay. pose proof (u8_le (HRTF_HISTORY_LENGTH - 1)). lia.
    - exfalso. pose proof (valid_evCount h Hv) as Hec. unfold MIN_EV_COUNT in Hec.
      destruct (valid_ring h 0 Hv) as (az & off & _ & _ & Hn & Ho & Hsum); [lia|].
      unfold MIN_AZ_COUNT in Hn.
      destruct (valid_delay h 0 Hv) as (d & Hd & Hdr); [lia|].
      rewrite Forall_lookup in Hmax. specialize (Hmax _ _ Hd). lia. }
  exists out', k0, k1. split; [done|]. split; [lia|]. split; [lia|].
  intros Hb Hfit.
  assert (Hsh : ∀ k, 0 ≤ k ≤ HRTF_HISTORY_LENGTH - 1 →
                u32 (Z.shiftl k HRTFDELAY_BITS) = k * 2 ^ HRTFDELAY_BITS).
  { intros k Hkr. rewrite Z.shiftl_mul_pow2 by done. apply u32_small.
    change 4294967296 with (2 ^ 32).
    assert (0 < 2 ^ HRTFDELAY_BITS) by (apply Z.pow_pos_nonneg; lia). nia. }
  split; apply Hsh; lia.
Qed.

(** * The B-Format builder *)


(** X5: a fully diffuse source.  For a loaded data set, an elevation in
    [-π/2, π/2], any azimuth and a gain above the threshold, the call with
    [spread = 2π] writes the pass-through value scaled by the gain and by
    1/32767 at sample 0 of both ears, 0 at every other sample below
    [irSize], and returns the delays 0 and 0. *)
Theorem fully_diffuse_is_impulse (h : Hrtf) (elevation azimuth gain : Q)
    (out : list (Q * Q)) :
  Hrtf_valid h → (0 < F_PI)%Q →
  (- F_PI_2 <= elevation)%Q → (elevation <= F_PI_2)%Q →
  (Z.to_nat (irSize h) ≤ length out)%nat → Qle_bool gain 0.0001 = false →
  ∃ out',
    GetLerpedHrtfCoeffs h elevation azimuth F_TAU gain out = Some (out', (0, 0))
    ∧ (∃ p, out' !! 0%nat = Some p
            ∧ pair_eq p ((PassthruCoeff * gain * (1 / 32767))%Q,
                         (PassthruCoeff * gain * (1 / 32767))%Q))
    ∧ ∀ j, (1 ≤ j < Z.to_nat (irSize h))%nat →
        ∃ p, out' !! j = Some p ∧ pair_eq p (0%Q, 0%Q).
Proof.
  intros Hv Hpi Hel0 Hel1 Hout Hgain.
  destruct (GetLerpedHrtfCoeffs_values h elevation azimuth F_TAU gain out)
    as (out' & d0 & d1 & Hrun & (cl & cr & H0) & Hrest & _); try done.
  pose proof F_TAU_pos Hpi as Htau.
  assert (Hdf : (1 - F_TAU / F_TAU == 0)%Q) by (field; lra).
  assert (Hz : ∀ d : Q, u32 (Z.shiftl (fastf2u (d * (1 - F_TAU / F_TAU) + 0.5))
                              HRTFDELAY_BITS) = 0).
  { intros d. rewrite (fastf2u_comp _ 0.5%Q) by (rewrite Hdf; ring).
    change (fastf2u 0.5) with 0. now rewrite Z.shiftl_0_l. }
  rewrite !Hz in Hrun. exists out'. split; [exact Hrun|]. split.
  - eexists. split; [exact H0|]. split; cbn [fst snd]; unfold lerp; rewrite Hdf; ring.
  - intros j Hj. destruct (Hrest j Hj) as (cl' & cr' & Hj').
    eexists. split; [exact Hj'|]. split; cbn [fst snd]; unfold lerp; rewrite Hdf; ring.
Qed.


(** X6: for a loaded data set with [irSize <= HRIR_LENGTH] and a bank of
    four channels of [HRIR_LENGTH] pairs, [BuildBFormatHrtf] returns: every
    array access is in bounds, the bank keeps its shape, and the returned
    length lies between [irSize] and [HRIR_LENGTH]. *)
Theorem BuildBFormatHrtf_returns (h : Hrtf) (out : list (list (Q * Q))) :
  Hrtf_valid h → 0 ≤ HRTF_HISTORY_LENGTH → irSize h ≤ HRIR_LENGTH → bank_ok out →
  ∃ out' len,
    BuildBFormatHrtf h out 4 = Some (out', len)
    ∧ bank_ok out' ∧ irSize h ≤ len ≤ HRIR_LENGTH.
Proof.
  intros Hv HH Hsz Hb.
  destruct (cube_indices_runs h CubePoints HRTF_HISTORY_LENGTH Hv)
    as (ls & rs & md & Hidx & Hls & Hrs & _ & Hpos & Hall).
  pose proof (valid_irSize h Hv) as [Hs _]. unfold MIN_IR_SIZE, MAX_IR_SIZE in Hs.
  destruct (add_cube_runs h md ls rs 0 (replicate (Z.to_nat HRIR_LENGTH) 0%Q) out 0)
    as (t' & c' & ml & Hrun & Hb' & Hml & Hlow);
    try done; try lia; try (by auto); try (rewrite Hls; simpl; lia);
    try apply length_replicate.
  exists c', ml. unfold BuildBFormatHrtf. cbn [Z.eqb negb Pos.eqb]. rewrite Hidx.
  cbn [mbind option_bind]. rewrite Hrun. cbn [mbind option_bind].
  split; [done|]. split; [done|]. split; [|lia].
  apply Hlow. destruct ls; [done|discriminate].
Qed.

(** * The decoders against the layout of the formats *)

Lemma shorts_app n : ∀ a b,
  length a = (2 * n)%nat → shorts (a ++ b) = shorts a ++ shorts b.
Proof.
  induction n as [|n IH]; intros a b Hlen.
  - destruct a; [done|discriminate].
  - destruct a as [|lo [|hi a]]; simpl in Hlen; try lia.
    cbn [shorts app]. f_equal. apply IH. lia.
Qed.

Lemma read_ir_exact n : ∀ pre suf dl f lg,
  length pre = (2 * n)%nat →
  read_ir n (mkDstate (pre ++ suf) dl f lg)
  = Some (shorts pre, mkDstate suf (dl - 2 * Z.of_nat n) f lg).
Proof.
  induction n as [|n IH]; intros pre suf dl f lg Hlen.
  - destruct pre; [|discriminate]. cbn [shorts]. same_state.
  - destruct pre as [|lo [|hi pre]]; simpl in Hlen; try lia.
    cbn [read_ir app shorts]. erewrite bind_eq by apply next_le16_cons.
    erewrite bind_eq by (apply IH; lia). same_state.
Qed.

Lemma read_coeffs_exact n m : ∀ pre suf dl f lg,
  length pre = (2 * (n * m))%nat →
  read_coeffs n m (mkDstate (pre ++ suf) dl f lg)
  = Some (shorts pre, mkDstate suf (dl - 2 * Z.of_nat (n * m)) f lg).
Proof.
  induction n as [|n IH]; intros pre suf dl f lg Hlen.
  - destruct pre; [|discriminate]. cbn [shorts]. same_state.
  - assert (Hmul : (S n * m = m + n * m)%nat) by reflexivity.
    rewrite Hmul in *.
    rewrite <- (take_drop (2 * m) pre), <- app_assoc.
    cbn [read_coeffs]. erewrite bind_eq.
    2:{ apply read_ir_exact. rewrite length_take. lia. }
    erewrite bind_eq.
    2:{ apply IH. rewrite length_drop. lia. }
    rewrite (shorts_app m) by (rewrite length_take; lia). same_state.
Qed.

Lemma check_delays_exact ds n : ∀ i d dl f lg,
  0 ≤ i → (Z.to_nat i + n ≤ length ds)%nat →
  ∃ lg',
    check_delays ds n i (mkDstate d dl f lg)
    = Some (tt, mkDstate d dl
                  (f || negb (delays_ok (take n (drop (Z.to_nat i) ds)))) lg').
Proof.
  induction n as [|n IH]; intros i d dl f lg Hi Hlen.
  - exists lg. rewrite take_0. cbn. now rewrite orb_false_r.
  - destruct (lookup_lt_is_Some_2 ds (Z.to_nat i)) as [b Hb]; [lia|].
    cbn [check_delays]. unfold index at 1.
    unfold mbind at 1, dec_bind at 1. rewrite Hb.
    rewrite (drop_S _ _ _ Hb). rewrite firstn_cons.
    replace (S (Z.to_nat i)) with (Z.to_nat (i + 1)) by lia.
    unfold delays_ok. cbn [forallb]. fold (delays_ok (take n (drop (Z.to_nat (i + 1)) ds))).
    destruct (Z.ltb_spec maxDelay (ubyte b)) as [Hgt|Hle].
    + erewrite bind_eq by apply flag_eq.
      destruct (IH (i + 1) d dl true (lg ++ [InvalidDelay i (ubyte b)])) as (lg' & ->);
        [lia|lia|].
      exists lg'. destruct (Z.leb_spec (ubyte b) maxDelay); [lia|].
      cbn. now rewrite orb_true_r.
    + destruct (IH (i + 1) d dl f lg) as (lg' & Heq); [lia|lia|].
      exists lg'. destruct (Z.leb_spec (ubyte b) maxDelay); [|lia].
      cbn [andb]. rewrite <- Heq. reflexivity.
Qed.

Lemma load_tail_exact rate irCount irSize evCount azC evO name d lg :
  0 ≤ irSize ≤ 128 → 0 ≤ irCount ≤ 65535 →
  ∃ s',
    load_tail rate irCount irSize evCount azC evO name
      (mkDstate d (Z.of_nat (length d)) false lg)
    = Some (tail_of rate irCount irSize evCount azC evO name d, s').
Proof.
  intros Hs Hc. unfold tail_of.
  destruct (Z.leb_spec (2 * irSize * irCount + irCount) (Z.of_nat (length d)))
    as [Hreq|Hreq].
  2:{ eexists. apply load_tail_short. rewrite reqsize_eq by done. lia. }
  set (n := Z.to_nat irCount). set (m := Z.to_nat irSize).
  assert (Hnm : Z.of_nat (n * m) = irCount * irSize) by (subst n m; nia).
  assert (Hlen : (2 * (n * m) + n ≤ length d)%nat) by (subst n m; nia).
  pose proof (read_coeffs_exact n m (take (2 * (n * m)) d) (drop (2 * (n * m)) d)
                (Z.of_nat (length d)) false lg) as Hread.
  rewrite take_drop in Hread. specialize (Hread ltac:(rewrite length_take; lia)).
  set (ds := drop (2 * (n * m)) d) in *.
  assert (Hds : (n ≤ length ds)%nat) by (subst ds; rewrite length_drop; lia).
  destruct (check_delays_exact ds n 0
              (drop (Z.to_nat irCount) ds)
              (Z.of_nat (length d) - 2 * Z.of_nat (n * m) - irCount) false lg)
    as (lg' & Hchk); [lia|simpl; lia|].
  rewrite drop_0 in Hchk. cbn [orb andb] in Hchk |- *.
  destruct (delays_ok (take n ds)) eqn:Hok; eexists; unfold load_tail; dec_step;
    (destruct (Z.ltb_spec (Z.of_nat (length d)) (reqsize irSize irCount)) as [Hlt|_];
     [rewrite reqsize_eq in Hlt by done; lia|]);
    dec_step; fold n m; (erewrite bind_eq by apply Hread);
    dec_step; fold ds; (erewrite bind_eq by apply Hchk);
    dec_step; reflexivity.
Qed.

Lemma tail_of_fields rate ic sz ec azC evO name d h :
  tail_of rate ic sz ec azC evO name d = Some h →
  sampleRate h = rate ∧ irSize h = sz ∧ evCount h = ec
  ∧ azCount h = azC ∧ evOffset h = evO ∧ filename h = name.
Proof.
  unfold tail_of. destruct (_ && _); [|done]. intros [= <-]. done.
Qed.

Lemma tail_of_app rate irCount irSize evCount azC evO name d extra h :
  0 ≤ irSize → 0 ≤ irCount →
  tail_of rate irCount irSize evCount azC evO name d = Some h →
  tail_of rate irCount irSize evCount azC evO name (d ++ extra) = Some h.
Proof.
  intros Hs Hc. unfold tail_of.
  set (n := Z.to_nat irCount). set (m := Z.to_nat irSize).
  destruct (Z.leb_spec (2 * irSize * irCount + irCount) (Z.of_nat (length d)))
    as [Hreq|Hreq]; [|done].
  assert (Hlen : (2 * (n * m) + n ≤ length d)%nat) by (subst n m; nia).
  destruct (Z.leb_spec (2 * irSize * irCount + irCount) (Z.of_nat (length (d ++ extra))))
    as [_|Hbad]; [|rewrite length_app in Hbad; lia].
  cbn [andb]. rewrite drop_app_le by lia.
  rewrite (take_app_le (drop _ d)) by (rewrite length_drop; lia).
  rewrite take_app_le by lia. done.
Qed.

(** ** Format v1 *)

Lemma check_azCount01_exact p n : ∀ i f lg,
  0 ≤ i → (Z.to_nat i + n ≤ length p)%nat →
  ∃ lg',
    ∀ d dl, check_azCount01 p n i (mkDstate d dl f lg)
            = Some (tt, mkDstate d dl
                          (f || negb (rings_ok (ubyte <$> take n (drop (Z.to_nat i) p))))
                          lg').
Proof.
  induction n as [|n IH]; intros i f lg Hi Hlen.
  - exists lg. intros d dl. rewrite take_0. cbn. now rewrite orb_false_r.
  - destruct (lookup_lt_is_Some_2 p (Z.to_nat i)) as [b Hb]; [lia|].
    rewrite (drop_S _ _ _ Hb). rewrite firstn_cons.
    replace (S (Z.to_nat i)) with (Z.to_nat (i + 1)) by lia.
    unfold rings_ok. cbn [fmap list_fmap forallb].
    fold (ubyte <$> take n (drop (Z.to_nat (i + 1)) p)).
    fold (rings_ok (ubyte <$> take n (drop (Z.to_nat (i + 1)) p))).
    destruct (bad_azCount (ubyte b)) eqn:Hbad.
    + destruct (IH (i + 1) true (lg ++ [UnsupportedAzCount i (ubyte b)]))
        as (lg' & Heq); [lia|lia|].
      exists lg'. intros d dl. cbn [check_azCount01].
      erewrite bind_eq by (apply index_Some, Hb).
      unfold check_azCount. rewrite Hbad, bind_flag, Heq.
      cbn. now rewrite orb_true_r.
    + destruct (IH (i + 1) f lg) as (lg' & Heq); [lia|lia|].
      exists lg'. intros d dl. cbn [check_azCount01].
      erewrite bind_eq by (apply index_Some, Hb).
      unfold check_azCount. rewrite Hbad, bind_mret, Heq. reflexivity.
Qed.

Lemma rings_ok_Forall azs :
  rings_ok azs = true ↔ Forall (λ az, MIN_AZ_COUNT ≤ az ≤ MAX_AZ_COUNT) azs.
Proof.
  unfold rings_ok. rewrite forallb_forall, Forall_forall.
  split; intros H az Haz.
  - apply bad_azCount_false, negb_true_iff, H. now apply list_elem_of_In.
  - apply negb_true_iff, bad_azCount_false, H. now apply list_elem_of_In.
Qed.

Lemma load_body01_exact name rate irSize evCount pre suf :
  bad_irSize irSize || bad_evCount evCount = false →
  length pre = Z.to_nat evCount →
  ∃ s',
    load_body01 name rate irSize evCount
      (mkDstate (pre ++ suf) (Z.of_nat (length (pre ++ suf))) false [])
    = Some (if rings_ok (ubyte <$> pre)
            then tail_of rate (summed_to 0 (ubyte <$> pre)) irSize evCount
                   (ubyte <$> pre) (summed01 0 (ubyte <$> pre)) name suf
            else None, s').
Proof.
  intros Hok Hlen.
  pose proof Hok as [Hsz%bad_irSize_false Hev%bad_evCount_false]%orb_false_iff.
  unfold MIN_IR_SIZE, MAX_IR_SIZE, MIN_EV_COUNT, MAX_EV_COUNT in Hsz, Hev.
  destruct (check_azCount01_exact pre (Z.to_nat evCount) 0 false [])
    as (lg' & Hchk); [lia|simpl; lia|].
  rewrite drop_0, take_ge in Hchk by lia. cbn [orb] in Hchk.
  unfold load_body01.
  erewrite bind_eq by apply check_header_eq.
  rewrite Hok, header_errors_nil by done. dec_step.
  assert (Hl : Z.of_nat (length (pre ++ suf)) = Z.of_nat (length suf) + evCount).
  { rewrite length_app. lia. }
  destruct (Z.ltb_spec (Z.of_nat (length (pre ++ suf))) evCount); [lia|].
  dec_step. cbn [app]. rewrite drop_app_length' by done.
  rewrite take_app_length' by done.
  erewrite bind_eq.
  2:{ rewrite check_azCount01_app by (simpl; lia). apply Hchk. }
  dec_step. destruct (rings_ok (ubyte <$> pre)) eqn:Hrings; cbn [negb].
  - assert (Hazs : Forall (λ az, MIN_AZ_COUNT ≤ az ≤ MAX_AZ_COUNT) (ubyte <$> pre))
      by now apply rings_ok_Forall.
    destruct (summed_rings (ubyte <$> pre) 0) as [Hsum _]; [lia|done|].
    rewrite length_fmap in Hsum.
    erewrite bind_eq.
    2:{ rewrite read_table01_app by lia. apply read_table01_spec; [lia|done|].
        now rewrite Forall_fmap in Hazs. }
    rewrite Hl. replace (Z.of_nat (length suf) + evCount - evCount)
      with (Z.of_nat (length suf)) by lia.
    apply load_tail_exact; lia.
  - eexists. reflexivity.
Qed.

Lemma layout01_fields buf name h :
  layout01 buf name = Some h →
  ∃ r0 r1 r2 r3 bsz bev rest,
    buf = r0 :: r1 :: r2 :: r3 :: bsz :: bev :: rest
    ∧ bad_irSize (ubyte bsz) || bad_evCount (ubyte bev) = false
    ∧ ubyte bev ≤ Z.of_nat (length rest)
    ∧ rings_ok (ubyte <$> take (Z.to_nat (ubyte bev)) rest) = true
    ∧ tail_of (rate_of r0 r1 r2 r3)
        (summed_to 0 (ubyte <$> take (Z.to_nat (ubyte bev)) rest))
        (ubyte bsz) (ubyte bev) (ubyte <$> take (Z.to_nat (ubyte bev)) rest)
        (summed01 0 (ubyte <$> take (Z.to_nat (ubyte bev)) rest)) name
        (drop (Z.to_nat (ubyte bev)) rest) = Some h.
Proof.
  destruct buf as [|r0 [|r1 [|r2 [|r3 [|bsz [|bev rest]]]]]]; try done.
  cbn [layout01]. intros H.
  destruct (bad_irSize (ubyte bsz) || bad_evCount (ubyte bev)) eqn:Hhdr; [done|].
  destruct (Z.leb_spec (ubyte bev) (Z.of_nat (length rest))); [|done].
  destruct (rings_ok _) eqn:Hr; [|done]. cbn [negb andb] in H.
  exists r0, r1, r2, r3, bsz, bev, rest. done.
Qed.

Lemma LoadHrtf01_is_layout01 buf name h :
  LoadHrtf01 buf name = Loaded h ↔ layout01 buf name = Some h.
Proof.
  destruct (Z.lt_ge_cases (Z.of_nat (length buf)) 6) as [Hshort|Hlong].
  { rewrite LoadHrtf01_short by done.
    do 6 (destruct buf as [|? buf]; [done|]). simpl in Hshort. lia. }
  destruct buf as [|r0 [|r1 [|r2 [|r3 [|bsz [|bev rest]]]]]];
    try (simpl in Hlong; lia).
  clear Hlong. rewrite LoadHrtf01_cons. cbn [layout01].
  set (sz := ubyte bsz). set (ec := ubyte bev). set (rate := rate_of r0 r1 r2 r3).
  destruct (bad_irSize sz || bad_evCount ec) eqn:Hhdr.
  { rewrite load_body01_bad by done. done. }
  pose proof Hhdr as [Hsz%bad_irSize_false Hev%bad_evCount_false]%orb_false_iff.
  unfold MIN_IR_SIZE, MAX_IR_SIZE, MIN_EV_COUNT, MAX_EV_COUNT in Hsz, Hev.
  destruct (Z.leb_spec ec (Z.of_nat (length rest))) as [Htab|Htab].
  2:{ rewrite load_body01_short by done. done. }
  cbn [negb andb].
  destruct (load_body01_exact name rate sz ec (take (Z.to_nat ec) rest)
              (drop (Z.to_nat ec) rest) Hhdr) as (s' & Hrun).
  { rewrite length_take. lia. }
  rewrite take_drop in Hrun. rewrite Hrun.
  destruct (rings_ok _); [|done].
  cbn [result_of]. destruct (tail_of _ _ _ _ _ _ _ _); [|done].
  split; congruence.
Qed.

(** ** Format v0 *)

Lemma last_cons_default {A} (l : list A) (a d : A) :
  List.last (a :: l) d = List.last l a.
Proof.
  revert a d. induction l as [|b l IH]; intros a d; [done|].
  change (List.last (a :: b :: l) d) with (List.last (b :: l) d).
  now rewrite !IH.
Qed.

Lemma read_evOffset00_exact n : ∀ pre i last f lg,
  length pre = (2 * n)%nat →
  ∃ lg',
    ∀ suf dl, read_evOffset00 n i last (mkDstate (pre ++ suf) dl f lg)
              = Some ((words pre, diffs00 last (words pre), List.last (words pre) last),
                      mkDstate suf (dl - 2 * Z.of_nat n)
                        (f || negb (rising00 last (words pre))) lg').
Proof.
  induction n as [|n IH]; intros pre i last f lg Hlen.
  - destruct pre; [|discriminate]. exists lg. intros suf dl.
    cbn [read_evOffset00 app words diffs00 rising00 List.last negb].
    rewrite orb_false_r. same_state.
  - destruct pre as [|lo [|hi pre]]; simpl in Hlen; try lia.
    set (v := le16 (ubyte lo) (ubyte hi)).
    set (f1 := if v <=? last then true else f).
    set (lg1 := if v <=? last then lg ++ [InvalidEvOffset i v last] else lg).
    set (az := u8 (v - last)).
    set (f2 := if bad_azCount az then true else f1).
    set (lg2 := if bad_azCount az then lg1 ++ [UnsupportedAzCount (i - 1) az] else lg1).
    destruct (IH pre (i + 1) v f2 lg2) as (lg' & Heq); [lia|].
    exists lg'. intros suf dl. cbn [read_evOffset00 app words].
    erewrite bind_eq by apply next_le16_cons. fold v.
    unfold check_azCount. fold az.
    assert (Hstep : ∀ B (k : unit → dec B),
      ((if v <=? last then flag (InvalidEvOffset i v last) else mret ()) ≫=
         λ _, (if bad_azCount az then flag (UnsupportedAzCount (i - 1) az)
               else mret ()) ≫= k) (mkDstate (pre ++ suf) (dl - 2) f lg)
      = k tt (mkDstate (pre ++ suf) (dl - 2) f2 lg2)).
    { intros B k. subst f2 lg2 f1 lg1.
      destruct (v <=? last); destruct (bad_azCount az); reflexivity. }
    rewrite Hstep. erewrite bind_eq by apply Heq.
    cbn [diffs00 rising00]. fold az. rewrite last_cons_default.
    assert (Hf : f2 || negb (rising00 v (words pre))
                 = f || negb ((last <? v) && negb (bad_azCount az) && rising00 v (words pre))).
    { subst f2 f1. destruct (Z.leb_spec v last); destruct (Z.ltb_spec last v); try lia;
        destruct (bad_azCount az); destruct f; destruct (rising00 v (words pre)); reflexivity. }
    rewrite Hf. same_state.
Qed.

Lemma words_length n : ∀ l, length l = (2 * n)%nat → length (words l) = n.
Proof.
  induction n as [|n IH]; intros l Hlen.
  - now destruct l.
  - destruct l as [|lo [|hi l]]; simpl in Hlen; try lia.
    cbn [words length]. f_equal. apply IH. lia.
Qed.

Lemma read_table00_exact irCount evCount pre lg :
  1 ≤ evCount → length pre = Z.to_nat (2 * evCount) →
  ∃ e0 evs lg',
    words pre = e0 :: evs
    ∧ ∀ suf dl,
        read_table00 irCount evCount (mkDstate (pre ++ suf) dl false lg)
        = Some ((e0 :: evs,
                 diffs00 e0 evs ++ [u8 (u32 (irCount - List.last evs e0))]),
                mkDstate suf (dl - 2 * evCount)
                  (negb (rising00 e0 evs && (List.last evs e0 <? irCount)
                         && negb (bad_azCount (u8 (u32 (irCount - List.last evs e0))))))
                  lg').
Proof.
  intros Hev Hlen.
  destruct pre as [|lo [|hi pre]]; simpl in Hlen; try lia.
  set (e0 := le16 (ubyte lo) (ubyte hi)).
  destruct (read_evOffset00_exact (Z.to_nat evCount - 1) pre 1 e0 false lg)
    as (lg1 & Heq); [lia|].
  cbn [orb] in Heq. cbn [words]. fold e0.
  set (evs := words pre) in *. set (last := List.last evs e0) in *.
  set (az := u8 (u32 (irCount - last))).
  exists e0, evs.
  set (f1 := negb (rising00 e0 evs)) in *.
  set (lg2 := if irCount <=? last
              then lg1 ++ [InvalidIrCount (evCount - 1) last irCount] else lg1).
  exists (if bad_azCount az then lg2 ++ [UnsupportedAzCount (evCount - 1) az] else lg2).
  split; [done|]. intros suf dl. unfold read_table00. cbn [app].
  erewrite bind_eq by apply next_le16_cons. fold e0.
  erewrite bind_eq by apply Heq. unfold check_azCount.
  change (List.last evs e0) with last. fold az.
  subst lg2 f1. destruct (Z.leb_spec irCount last); destruct (Z.ltb_spec last irCount);
    try lia; destruct (bad_azCount az); destruct (rising00 e0 evs);
    dec_step; same_state.
Qed.

Lemma load_body00_exact name rate irCount irSize evCount pre suf :
  bad_irSize irSize || bad_evCount evCount = false →
  length pre = Z.to_nat (2 * evCount) → 0 ≤ irCount ≤ 65535 →
  ∃ e0 evs s',
    words pre = e0 :: evs
    ∧ load_body00 name rate irCount irSize evCount
        (mkDstate (pre ++ suf) (Z.of_nat (length (pre ++ suf))) false [])
      = Some (if rising00 e0 evs && (List.last evs e0 <? irCount)
                 && negb (bad_azCount (u8 (u32 (irCount - List.last evs e0))))
              then tail_of rate irCount irSize evCount
                     (diffs00 e0 evs ++ [u8 (u32 (irCount - List.last evs e0))])
                     (e0 :: evs) name suf
              else None, s').
Proof.
  intros Hok Hlen Hic.
  pose proof Hok as [Hsz%bad_irSize_false Hev%bad_evCount_false]%orb_false_iff.
  unfold MIN_IR_SIZE, MAX_IR_SIZE, MIN_EV_COUNT, MAX_EV_COUNT in Hsz, Hev.
  destruct (read_table00_exact irCount evCount pre []) as (e0 & evs & lg' & Hw & Htab);
    [lia|done|].
  exists e0, evs.
  rewrite (load_body00_table name rate irCount irSize evCount pre suf _ _ _ _ Hok Hlen Htab).
  destruct (rising00 e0 evs && (List.last evs e0 <? irCount)
            && negb (bad_azCount (u8 (u32 (irCount - List.last evs e0))))).
  - cbn [negb].
    destruct (load_tail_exact rate irCount irSize evCount
                (diffs00 e0 evs ++ [u8 (u32 (irCount - List.last evs e0))])
                (e0 :: evs) name suf lg') as (s' & Hrun); [lia|lia|].
    exists s'. done.
  - cbn [negb]. eexists. split; [done|]. apply load_tail_failed.
Qed.

Lemma LoadHrtf00_is_layout00 buf name h :
  LoadHrtf00 buf name = Loaded h ↔ layout00 buf name = Some h.
Proof.
  destruct (Z.lt_ge_cases (Z.of_nat (length buf)) 9) as [Hshort|Hlong].
  { rewrite LoadHrtf00_short by done.
    do 9 (destruct buf as [|? buf]; [done|]). simpl in Hshort. lia. }
  destruct buf as [|r0 [|r1 [|r2 [|r3 [|c0 [|c1 [|z0 [|z1 [|bev rest]]]]]]]]];
    try (simpl in Hlong; lia).
  clear Hlong. rewrite LoadHrtf00_cons. cbn [layout00].
  set (ic := le16 (ubyte c0) (ubyte c1)).
  set (sz := le16 (ubyte z0) (ubyte z1)).
  set (ec := ubyte bev). set (rate := rate_of r0 r1 r2 r3).
  pose proof (le16_ubyte c0 c1) as Hic. fold ic in Hic.
  destruct (bad_irSize sz || bad_evCount ec) eqn:Hhdr.
  { rewrite load_body00_bad by done. destruct (words _); done. }
  pose proof Hhdr as [Hsz%bad_irSize_false Hev%bad_evCount_false]%orb_false_iff.
  unfold MIN_IR_SIZE, MAX_IR_SIZE, MIN_EV_COUNT, MAX_EV_COUNT in Hsz, Hev.
  destruct (Z.leb_spec (2 * ec) (Z.of_nat (length rest))) as [Htab|Htab].
  2:{ rewrite load_body00_short by (done || lia). destruct (words _); done. }
  cbn [negb andb].
  destruct (load_body00_exact name rate ic sz ec (take (Z.to_nat (2 * ec)) rest)
              (drop (Z.to_nat (2 * ec)) rest) Hhdr) as (e0 & evs & s' & Hw & Hrun);
    [rewrite length_take; lia|done|].
  rewrite take_drop in Hrun. rewrite Hrun, Hw.
  destruct (_ && _ && _); [|done].
  cbn [result_of]. destruct (tail_of _ _ _ _ _ _ _ _); [|done].
  split; congruence.
Qed.

(** ** What follows from the layout *)

Lemma Loaded_filename buf name h :
  LoadHrtf00 buf name = Loaded h ∨ LoadHrtf01 buf name = Loaded h →
  filename h = name.
Proof.
  intros [H|H].
  - apply LoadHrtf00_is_layout00 in H.
    destruct buf as [|r0 [|r1 [|r2 [|r3 [|c0 [|c1 [|z0 [|z1 [|bev rest]]]]]]]]]; try done.
    cbn [layout00] in H. destruct (words _); [done|].
    destruct (_ && _ && _ && _ && _); [|done].
    now apply tail_of_fields in H.
  - apply LoadHrtf01_is_layout01, layout01_fields in H.
    destruct H as (?&?&?&?&?&?&?&?&?&?&?&H). now apply tail_of_fields in H.
Qed.

(** ** Consequences of the layout *)

Lemma i16_range x : -32768 ≤ i16 x ≤ 32767.
Proof. unfold i16. pose proof (Z.mod_pos_bound (x + 2 ^ 15) (2 ^ 16)). lia. Qed.

Lemma shorts_range : ∀ l, Forall (λ c, -32768 ≤ c ≤ 32767) (shorts l).
Proof.
  fix IH 1. intros [|lo [|hi l]]; cbn [shorts]; try constructor.
  - apply i16_range.
  - apply IH.
Qed.

Lemma tail_of_coeffs rate ic sz ec azC evO name d h :
  tail_of rate ic sz ec azC evO name d = Some h →
  Forall (λ c, -32768 ≤ c ≤ 32767) (coeffs h).
Proof.
  unfold tail_of. destruct (_ && _); [|done]. intros [= <-]. apply shorts_range.
Qed.

Lemma rate_of_range r0 r1 r2 r3 : 0 ≤ rate_of r0 r1 r2 r3 < 2 ^ 32.
Proof. unfold rate_of, u32. apply Z.mod_pos_bound. lia. Qed.

Lemma layout01_app buf extra name h :
  layout01 buf name = Some h → layout01 (buf ++ extra) name = Some h.
Proof.
  intros H. apply layout01_fields in H
    as (r0 & r1 & r2 & r3 & bsz & bev & rest & -> & Hhdr & Hlen & Hrings & Htail).
  cbn [app layout01]. rewrite Hhdr. cbn [negb andb].
  pose proof (ubyte_range bev). pose proof (ubyte_range bsz).
  destruct (Z.leb_spec (ubyte bev) (Z.of_nat (length (rest ++ extra)))) as [_|Hbad];
    [|rewrite length_app in Hbad; lia].
  rewrite take_app_le by lia. rewrite Hrings. cbn [andb].
  rewrite drop_app_le by lia. apply tail_of_app; [lia| |done].
  apply rings_ok_Forall in Hrings.
  destruct (summed_rings _ 0 ltac:(lia) Hrings) as [? _]. lia.
Qed.

Lemma layout00_app buf extra name h :
  layout00 buf name = Some h → layout00 (buf ++ extra) name = Some h.
Proof.
  destruct buf as [|r0 [|r1 [|r2 [|r3 [|c0 [|c1 [|z0 [|z1 [|bev rest]]]]]]]]]; try done.
  cbn [app layout00].
  pose proof (ubyte_range bev). pose proof (le16_ubyte c0 c1). pose proof (le16_ubyte z0 z1).
  destruct (Z.leb_spec (2 * ubyte bev) (Z.of_nat (length rest))) as [Hlen|Hlen].
  2:{ rewrite andb_false_r. destruct (words _); done. }
  destruct (Z.leb_spec (2 * ubyte bev) (Z.of_nat (length (rest ++ extra)))) as [_|Hbad];
    [|rewrite length_app in Hbad; lia].
  rewrite take_app_le by lia. destruct (words _) as [|e0 evs]; [done|].
  rewrite !andb_true_r. destruct (_ && _ && _ && _); [|done].
  rewrite drop_app_le by lia. apply tail_of_app; lia.
Qed.

Lemma Loaded_ranges buf name h :
  LoadHrtf00 buf name = Loaded h ∨ LoadHrtf01 buf name = Loaded h →
  Forall (λ c, -32768 ≤ c ≤ 32767) (coeffs h) ∧ 0 ≤ sampleRate h < 2 ^ 32.
Proof.
  intros [H|H].
  - apply LoadHrtf00_is_layout00 in H.
    destruct buf as [|r0 [|r1 [|r2 [|r3 [|c0 [|c1 [|z0 [|z1 [|bev rest]]]]]]]]]; try done.
    cbn [layout00] in H. destruct (words _); [done|].
    destruct (_ && _ && _ && _ && _); [|done].
    split; [now apply tail_of_coeffs in H|].
    apply tail_of_fields in H as (-> & _). apply rate_of_range.
  - apply LoadHrtf01_is_layout01, layout01_fields in H.
    destruct H as (r0&r1&r2&r3&?&?&?&?&?&?&?&H).
    split; [now apply tail_of_coeffs in H|].
    apply tail_of_fields in H as (-> & _). apply rate_of_range.
Qed.

(** * Properties of the catalogue *)

(** ** Searching *)

Lemma VECTOR_FIND_IF_None {A} (p : A → bool) (l : list A) :
  VECTOR_FIND_IF p l = None ↔ Forall (λ x, p x = false) l.
Proof.
  unfold VECTOR_FIND_IF. rewrite list_find_None.
  split; intros H; (eapply Forall_impl; [apply H|]); intros x; cbv beta;
    destruct (p x); simpl; naive_solver.
Qed.

Lemma find_name_None n entries :
  VECTOR_FIND_IF (MATCH_NAME n) entries = None ↔ n ∉ (name <$> entries).
Proof.
  rewrite VECTOR_FIND_IF_None, Forall_forall, list_elem_of_fmap. unfold MATCH_NAME.
  split.
  - intros H (e & -> & He). specialize (H e He). now rewrite String.eqb_refl in H.
  - intros H e He. apply String.eqb_neq. intros ->. apply H. eauto.
Qed.

Lemma find_fname_None fname entries :
  VECTOR_FIND_IF (MATCH_FNAME fname) entries = None ↔ fname ∉ files entries.
Proof.
  unfold files.
  rewrite VECTOR_FIND_IF_None, Forall_forall, list_elem_of_fmap. unfold MATCH_FNAME.
  split.
  - intros H (e & -> & He). specialize (H e He). now rewrite String.eqb_refl in H.
  - intros H e He. apply String.eqb_neq. intros ->. apply H. eauto.
Qed.

Lemma find_loaded_Some fname l h :
  find_loaded fname l = Some h → h ∈ l ∧ filename h = fname.
Proof.
  induction l as [|h' l IH]; [done|]. cbn [find_loaded].
  destruct (String.eqb_spec fname (filename h')) as [->|Hne].
  - intros [= ->]. split; [left|done].
  - intros H. destruct (IH H). split; [now right|done].
Qed.

Lemma find_loaded_None fname l :
  find_loaded fname l = None ↔ fname ∉ (filename <$> l).
Proof.
  induction l as [|h' l IH]; cbn [find_loaded].
  - split; [|done]. intros _ H. now apply elem_of_nil in H.
  - rewrite fmap_cons, not_elem_of_cons.
    destruct (String.eqb_spec fname (filename h')) as [->|Hne].
    + split; [done|]. intros [Hne _]. done.
    + rewrite IH. split; [done|]. now intros [_ ?].
Qed.

Lemma find_loaded_unique fname l h :
  NoDup (filename <$> l) → h ∈ l → filename h = fname →
  find_loaded fname l = Some h.
Proof.
  induction l as [|h' l IH]; intros Hnd Hin Hf; [now apply elem_of_nil in Hin|].
  rewrite fmap_cons in Hnd. apply NoDup_cons in Hnd as [Hnotin Hnd].
  cbn [find_loaded]. apply elem_of_cons in Hin as [->|Hin].
  - subst fname. now rewrite String.eqb_refl.
  - destruct (String.eqb_spec fname (filename h')) as [Heq|Hne]; [|auto].
    exfalso. apply Hnotin. rewrite <- Heq, <- Hf. now apply list_elem_of_fmap_2.
Qed.

(** ** The naming loop *)

Lemma string_app_length a b :
  String.length (a +:+ b) = (String.length a + String.length b)%nat.
Proof.
  induction a as [|c a IH]; [done|].
  change (String c a +:+ b) with (String c (a +:+ b)).
  cbn [String.length]. now rewrite IH.
Qed.

Lemma numbered_inj base i j : numbered base i = numbered base j → i = j.
Proof.
  unfold numbered.
  assert (Hne : ∀ k, base ≠ base +:+ " #" +:+ pretty (S k)).
  { intros k H. apply (f_equal String.length) in H.
    rewrite !string_app_length in H. cbn in H. lia. }
  destruct (Nat.eqb_spec i 0) as [->|Hi]; destruct (Nat.eqb_spec j 0) as [->|Hj];
    try done.
  - intros H. now apply Hne in H.
  - intros H. symmetry in H. now apply Hne in H.
  - intros H. apply String.app_inj, String.app_inj in H.
    apply pretty_nat_inj in H. lia.
Qed.

Lemma pick_name_spec base entries : ∀ fuel i,
  (∀ j, (j < i)%nat → numbered base j ∈ name <$> entries) →
  (length entries < i + fuel)%nat →
  ∃ k, (i ≤ k)%nat ∧ (k ≤ length entries)%nat
       ∧ pick_name fuel base entries i = Some (numbered base k)
       ∧ (numbered base k ∉ (name <$> entries))
       ∧ ∀ j, (j < k)%nat → numbered base j ∈ (name <$> entries).
Proof.
  assert (Hpigeon : ∀ i, (∀ j, (j < i)%nat → numbered base j ∈ name <$> entries) →
                         (i ≤ length entries)%nat).
  { intros i Hall.
    rewrite <- (length_fmap name entries).
    rewrite <- (length_seq i 0) at 1.
    rewrite <- (length_fmap (numbered base) (seq 0 i)).
    apply submseteq_length, NoDup_submseteq.
    - apply NoDup_fmap_2; [|apply NoDup_seq]. intros ??. apply numbered_inj.
    - intros n (j & -> & Hj)%list_elem_of_fmap. apply elem_of_seq in Hj.
      apply Hall. lia. }
  induction fuel as [|fuel IH]; intros i Hall Hlen.
  - pose proof (Hpigeon i Hall). lia.
  - cbn [pick_name].
    destruct (VECTOR_FIND_IF (MATCH_NAME (numbered base i)) entries) as [p|] eqn:Hfind.
    + assert (Hin : numbered base i ∈ name <$> entries).
      { destruct (decide (numbered base i ∈ name <$> entries)) as [|Hn]; [done|].
        apply find_name_None in Hn. congruence. }
      destruct (IH (S i)) as (k & Hk & Hk' & Hrun & Hfree & Hleast).
      { intros j Hj. destruct (decide (j = i)) as [->|]; [done|]. apply Hall. lia. }
      { lia. }
      exists k. split; [lia|]. done.
    + exists i. apply find_name_None in Hfind. pose proof (Hpigeon i Hall).
      split; [lia|]. split; [lia|]. done.
Qed.

Lemma push_entry_spec entries base h adding R :
  ∃ k, (k ≤ length entries)%nat
       ∧ push_entry entries base h adding R
         = Some (entries ++ [mkHrtfEntry (numbered base k) h],
                 say (adding (numbered base k)) R)
       ∧ (numbered base k ∉ (name <$> entries))
       ∧ ∀ j, (j < k)%nat → numbered base j ∈ (name <$> entries).
Proof.
  destruct (pick_name_spec base entries (S (length entries)) 0)
    as (k & _ & Hk & Hrun & Hfree & Hleast); [lia|lia|].
  exists k. unfold push_entry. rewrite Hrun. cbn. split; [lia|]. done.
Qed.

(** ** The invariant *)

Lemma catalogue_ok_lines entries R R' :
  LoadedHrtfs R' = LoadedHrtfs R → catalogue_ok entries R → catalogue_ok entries R'.
Proof. intros Heq [? ? ? ? ?]. split; rewrite ?Heq; done. Qed.

Lemma catalogue_ok_push entries R h :
  catalogue_ok entries R → Hrtf_valid h → filename h ∉ (filename <$> LoadedHrtfs R) →
  catalogue_ok entries (push h R).
Proof.
  intros [? ? Hl ? ?] Hv Hnew. split; cbn [push LoadedHrtfs]; try done.
  - eapply Forall_impl; [apply Hl|]. intros e He. now right.
  - rewrite fmap_cons. now apply NoDup_cons.
  - now constructor.
Qed.

Lemma catalogue_ok_entry entries R n h :
  catalogue_ok entries R → h ∈ LoadedHrtfs R →
  n ∉ (name <$> entries) → filename h ∉ files entries →
  catalogue_ok (entries ++ [mkHrtfEntry n h]) R.
Proof.
  intros [Hn Hf Hl ? ?] Hin Hname Hfile. split; try done.
  - rewrite fmap_app. apply NoDup_app. split; [done|]. split; [|apply NoDup_singleton].
    intros x Hx ->%list_elem_of_singleton. done.
  - unfold files in *. rewrite fmap_app. apply NoDup_app. split; [done|].
    split; [|apply NoDup_singleton].
    intros x Hx ->%list_elem_of_singleton. done.
  - apply Forall_app. split; [done|]. now constructor.
Qed.

Lemma push_entry_ok entries base h adding R :
  catalogue_ok entries R → h ∈ LoadedHrtfs R → filename h ∉ files entries →
  ∃ n,
    push_entry entries base h adding R
    = Some (entries ++ [mkHrtfEntry n h], say (adding n) R)
    ∧ catalogue_ok (entries ++ [mkHrtfEntry n h]) (say (adding n) R).
Proof.
  intros Hok Hin Hfile.
  destruct (push_entry_spec entries base h adding R) as (k & _ & Hrun & Hfree & _).
  exists (numbered base k). split; [done|].
  apply (catalogue_ok_lines _ R); [done|]. now apply catalogue_ok_entry.
Qed.

(** ** The decoders as the catalogue calls them *)

Lemma call_decoder00_spec data fname R :
  ∃ r R',
    call_decoder LoadHrtf00 data fname R = Some (r, R')
    ∧ LoadedHrtfs R' = LoadedHrtfs R
    ∧ ∀ h, r = Some h → Hrtf_valid h ∧ filename h = fname.
Proof.
  unfold call_decoder.
  destruct (LoadHrtf00_inv (drop 8 data) fname) as [Hub Hinv].
  destruct (LoadHrtf00 (drop 8 data) fname) as [h|l|] eqn:Hrun; [| |done].
  - exists (Some h), R. split; [done|]. split; [done|]. intros h' [= <-].
    split.
    + destruct (Hinv h eq_refl) as (?&?&?&?&?&?&?&?&?&?&?&?&?&?&?&?&?&?&?&Hv). exact Hv.
    + apply (Loaded_filename (drop 8 data)). now left.
  - eexists None, _. split; [done|]. split; [done|]. done.
Qed.

Lemma call_decoder01_spec data fname R :
  ∃ r R',
    call_decoder LoadHrtf01 data fname R = Some (r, R')
    ∧ LoadedHrtfs R' = LoadedHrtfs R
    ∧ ∀ h, r = Some h → Hrtf_valid h ∧ filename h = fname.
Proof.
  unfold call_decoder.
  destruct (LoadHrtf01_inv (drop 8 data) fname) as [Hub Hinv].
  destruct (LoadHrtf01 (drop 8 data) fname) as [h|l|] eqn:Hrun; [| |done].
  - exists (Some h), R. split; [done|]. split; [done|]. intros h' [= <-].
    split.
    + now apply (LoadHrtf01_valid (drop 8 data) fname).
    + apply (Loaded_filename (drop 8 data)). now right.
  - eexists None, _. split; [done|]. split; [done|]. done.
Qed.

Lemma detect_format_spec data fname R :
  ∃ r R',
    detect_format data fname R = Some (r, R')
    ∧ LoadedHrtfs R' = LoadedHrtfs R
    ∧ ∀ h, r = Some h → Hrtf_valid h ∧ filename h = fname.
Proof.
  unfold detect_format. destruct (memcmp_eq data magicMarker01 8).
  { destruct (call_decoder01_spec data fname (say DetectedV1 R)) as (r & R' & -> & HL & Hr).
    exists r, R'. done. }
  destruct (memcmp_eq data magicMarker00 8).
  { destruct (call_decoder00_spec data fname (say DetectedV0 R)) as (r & R' & -> & HL & Hr).
    exists r, R'. done. }
  eexists None, _. split; [done|]. split; [done|]. done.
Qed.

(** What one call of [AddBuiltInEntry] or [AddFileEntry] for [fname] may
    change. *)
Lemma loaded_entry_step entries base adding fname (r : option Hrtf) R R1 :
  catalogue_ok entries R → LoadedHrtfs R1 = LoadedHrtfs R →
  fname ∉ files entries → fname ∉ (filename <$> LoadedHrtfs R) →
  (∀ h, r = Some h → Hrtf_valid h ∧ filename h = fname) →
  ∃ entries' R',
    match r with
    | None => Some (entries, say (FailedToLoad fname) R1)
    | Some h =>
        push_entry entries base h adding (say (LoadedSupport (sampleRate h)) (push h R1))
    end = Some (entries', R')
    ∧ catalogue_ok entries' R'
    ∧ (entries' = entries ∧ LoadedHrtfs R' = LoadedHrtfs R
       ∨ ∃ e, entries' = entries ++ [e] ∧ filename (hrtf e) = fname
              ∧ (LoadedHrtfs R' = LoadedHrtfs R
                 ∨ LoadedHrtfs R' = hrtf e :: LoadedHrtfs R)).
Proof.
  intros Hok Heq Hfile Hnew Hr. destruct r as [h|].
  - destruct (Hr h eq_refl) as [Hv Hf].
    set (R2 := say (LoadedSupport (sampleRate h)) (push h R1)).
    assert (HL : LoadedHrtfs R2 = h :: LoadedHrtfs R) by (cbn; now rewrite Heq).
    assert (Hok2 : catalogue_ok entries R2).
    { apply (catalogue_ok_lines _ (push h R)); [done|].
      apply catalogue_ok_push; [done|done|now rewrite Hf]. }
    destruct (push_entry_ok entries base h adding R2 Hok2) as (n & -> & Hok');
      [rewrite HL; left|now rewrite Hf|].
    eexists _, _. split; [done|]. split; [done|]. right.
    eexists. split; [done|]. split; [done|]. right. done.
  - eexists _, _. split; [done|]. split.
    + now apply (catalogue_ok_lines _ R).
    + left. done.
Qed.

Lemma AddBuiltInEntry_spec entries data fname R :
  catalogue_ok entries R →
  ∃ entries' R',
    AddBuiltInEntry entries data fname R = Some (entries', R')
    ∧ catalogue_ok entries' R'
    ∧ (entries' = entries ∧ LoadedHrtfs R' = LoadedHrtfs R
       ∨ ∃ e, entries' = entries ++ [e] ∧ filename (hrtf e) = fname
              ∧ (LoadedHrtfs R' = LoadedHrtfs R
                 ∨ LoadedHrtfs R' = hrtf e :: LoadedHrtfs R)).
Proof.
  intros Hok. unfold AddBuiltInEntry.
  destruct (VECTOR_FIND_IF (MATCH_FNAME fname) entries) as [p|] eqn:Hdup.
  { eexists _, _. split; [done|]. split; [now apply (catalogue_ok_lines _ R)|].
    left. done. }
  apply find_fname_None in Hdup.
  destruct (find_loaded fname (LoadedHrtfs R)) as [h|] eqn:Hfind.
  { apply find_loaded_Some in Hfind as [Hin Hf].
    destruct (push_entry_ok entries fname h AddingBuiltIn (say (SkippingLoad fname) R))
      as (n & -> & Hok'); [now apply (catalogue_ok_lines _ R)|done|now rewrite Hf|].
    eexists _, _. split; [done|]. split; [done|]. right.
    eexists. split; [done|]. split; [done|]. left. done. }
  apply find_loaded_None in Hfind.
  destruct (Z.of_nat (length data) <? 8).
  { eexists _, _. split; [done|]. split; [now apply (catalogue_ok_lines _ R)|].
    left. done. }
  destruct (detect_format_spec data fname (say (Loading fname) R))
    as (r & R1 & -> & HL & Hr).
  cbn [mbind option_bind]. now apply loaded_entry_step.
Qed.

Section CatalogueProperties.

Variable MapFileToMem : string → option (list byte).
Variable SearchDataFiles : string → string → list string.
Variable ConfigValueStr : string → string → option string.
Variable ConfigValueExists : string → string → bool.
Variable GetResource : Z → option (list byte).

Lemma AddFileEntry_spec entries fname R :
  catalogue_ok entries R →
  ∃ entries' R',
    AddFileEntry MapFileToMem entries fname R = Some (entries', R')
    ∧ catalogue_ok entries' R'
    ∧ (entries' = entries ∧ LoadedHrtfs R' = LoadedHrtfs R
       ∨ ∃ e, entries' = entries ++ [e] ∧ filename (hrtf e) = fname
              ∧ (LoadedHrtfs R' = LoadedHrtfs R
                 ∨ LoadedHrtfs R' = hrtf e :: LoadedHrtfs R)).
Proof.
  intros Hok. unfold AddFileEntry.
  destruct (VECTOR_FIND_IF (MATCH_FNAME fname) entries) as [p|] eqn:Hdup.
  { eexists _, _. split; [done|]. split; [now apply (catalogue_ok_lines _ R)|].
    left. done. }
  apply find_fname_None in Hdup.
  destruct (find_loaded fname (LoadedHrtfs R)) as [h|] eqn:Hfind.
  { apply find_loaded_Some in Hfind as [Hin Hf].
    destruct (push_entry_ok entries (display_name fname) h (λ n, AddingEntry n fname)
                (say (SkippingLoad fname) R))
      as (n & -> & Hok'); [now apply (catalogue_ok_lines _ R)|done|now rewrite Hf|].
    eexists _, _. split; [done|]. split; [done|]. right.
    eexists. split; [done|]. split; [done|]. left. done. }
  apply find_loaded_None in Hfind.
  destruct (MapFileToMem fname) as [data|].
  2:{ eexists _, _. split; [done|]. split; [now apply (catalogue_ok_lines _ R)|].
      left. done. }
  destruct (Z.of_nat (length data) <? 8).
  { cbn [mbind option_bind]. eexists _, _. split; [done|].
    split; [now apply (catalogue_ok_lines _ R)|]. left. done. }
  destruct (detect_format_spec data fname (say (Loading fname) R))
    as (r & R1 & -> & HL & Hr).
  cbn [mbind option_bind]. now apply loaded_entry_step.
Qed.

End CatalogueProperties.

(** ** A file that is loaded already *)

Lemma say_say a b R :
  say b (say a R) = mkRegistry (LoadedHrtfs R) (lines R ++ [a; b]).
Proof. unfold say. cbn. now rewrite <- app_assoc. Qed.

Lemma AddBuiltInEntry_cached entries data fname R h :
  NoDup (filename <$> LoadedHrtfs R) → h ∈ LoadedHrtfs R → filename h = fname →
  fname ∉ files entries →
  ∃ n,
    AddBuiltInEntry entries data fname R
    = Some (entries ++ [mkHrtfEntry n h],
            mkRegistry (LoadedHrtfs R)
              (lines R ++ [SkippingLoad fname; AddingBuiltIn n])).
Proof.
  intros Hnd Hin Hf Hfile. unfold AddBuiltInEntry.
  apply find_fname_None in Hfile. rewrite Hfile.
  rewrite (find_loaded_unique fname _ h) by done.
  destruct (push_entry_spec entries fname h AddingBuiltIn (say (SkippingLoad fname) R))
    as (k & _ & -> & _). exists (numbered fname k). now rewrite say_say.
Qed.

Lemma AddFileEntry_cached fs entries fname R h :
  NoDup (filename <$> LoadedHrtfs R) → h ∈ LoadedHrtfs R → filename h = fname →
  fname ∉ files entries →
  ∃ n,
    AddFileEntry fs entries fname R
    = Some (entries ++ [mkHrtfEntry n h],
            mkRegistry (LoadedHrtfs R)
              (lines R ++ [SkippingLoad fname; AddingEntry n fname])).
Proof.
  intros Hnd Hin Hf Hfile. unfold AddFileEntry.
  apply find_fname_None in Hfile. rewrite Hfile.
  rewrite (find_loaded_unique fname _ h) by done.
  destruct (push_entry_spec entries (display_name fname) h (λ n, AddingEntry n fname)
              (say (SkippingLoad fname) R))
    as (k & _ & -> & _). exists (numbered (display_name fname) k). now rewrite say_say.
Qed.

(** ** Display names *)

Lemma list_ascii_app a b :
  String.list_ascii_of_string (a +:+ b)
  = String.list_ascii_of_string a ++ String.list_ascii_of_string b.
Proof.
  induction a as [|c a IH]; [done|].
  change (String c a +:+ b) with (String c (a +:+ b)).
  cbn [String.list_ascii_of_string app]. now rewrite IH.
Qed.

Lemma strrchr_None s c : strrchr s c = None ↔ c ∉ s.
Proof.
  induction s as [|a s IH]; cbn [strrchr].
  - split; [|done]. intros _ H. now apply elem_of_nil in H.
  - rewrite not_elem_of_cons. destruct (strrchr s c) as [r|].
    + split; [done|]. intros [_ H]. now apply IH in H.
    + destruct (Ascii.eqb_spec a c) as [->|Hne].
      * split; [done|]. now intros [? _].
      * split; [|done]. intros _. split; [congruence|]. now apply IH.
Qed.

Lemma strrchr_app l r c : c ∉ r → strrchr (l ++ c :: r) c = Some (c :: r).
Proof.
  intros Hr. induction l as [|a l IH].
  - cbn [app strrchr]. apply strrchr_None in Hr. rewrite Hr.
    now rewrite Ascii.eqb_refl.
  - cbn [app strrchr]. now rewrite IH.
Qed.

Lemma range_app l r : range (l ++ r) r = l.
Proof.
  unfold range. rewrite length_app.
  replace (length l + length r - length r)%nat with (length l) by lia.
  now rewrite take_app_length.
Qed.

(** ** The path list *)

Lemma fields_nonempty p : fields p ≠ [].
Proof.
  destruct p as [|c p]; [done|]. cbn [fields].
  destruct (Ascii.eqb c ","); [done|]. now destruct (fields p).
Qed.

Lemma skip_spaces_snoc l c :
  Ascii.is_space c = false → ∃ l', skip_spaces (l ++ [c]) = l' ++ [c].
Proof.
  intros Hc. induction l as [|a l IH].
  - exists []. cbn. now rewrite Hc.
  - cbn [app skip_spaces]. destruct (Ascii.is_space a); [done|].
    exists (a :: l). done.
Qed.

Lemma trim_end_cons c r :
  Ascii.is_space c = false → ∃ r', trim_end (c :: r) = c :: r'.
Proof.
  intros Hc. unfold trim_end. rewrite reverse_cons.
  destruct (skip_spaces_snoc (reverse r) c Hc) as (l' & ->).
  rewrite reverse_app. cbn. eauto.
Qed.

Lemma trim_space c f : Ascii.is_space c = true → trim (c :: f) = trim f.
Proof. intros Hc. unfold trim. cbn [skip_spaces]. now rewrite Hc. Qed.

Lemma trim_nonspace c f :
  Ascii.is_space c = false → trim (c :: f) = trim_end (c :: f).
Proof. intros Hc. unfold trim. cbn [skip_spaces]. now rewrite Hc. Qed.

Lemma trimmed_fields_space c p :
  Ascii.is_space c = true → trimmed_fields (c :: p) = trimmed_fields p.
Proof.
  intros Hc. unfold trimmed_fields. cbn [fields].
  assert (Hne : Ascii.eqb c "," = false).
  { destruct (Ascii.eqb_spec c ","%char) as [->|]; [discriminate|done]. }
  rewrite Hne. pose proof (fields_nonempty p). destruct (fields p) as [|f fs]; [done|].
  rewrite !fmap_cons. now rewrite trim_space.
Qed.

Lemma trimmed_fields_comma p : trimmed_fields (","%char :: p) = [] :: trimmed_fields p.
Proof. reflexivity. Qed.

Lemma trimmed_fields_nonempty p : trimmed_fields p ≠ [].
Proof.
  unfold trimmed_fields. pose proof (fields_nonempty p). now destruct (fields p).
Qed.

Lemma skip_separators_same p :
  paths_of (skip_separators p) = paths_of p
  ∧ blank_tail (skip_separators p) = blank_tail p
  ∧ (length (skip_separators p) ≤ length p)%nat
  ∧ match skip_separators p with
    | c :: _ => Ascii.is_space c = false ∧ c ≠ ","%char
    | [] => True
    end.
Proof.
  induction p as [|c p IH]; [done|]. cbn [skip_separators].
  destruct (Ascii.is_space c) eqn:Hsp.
  { cbn [orb]. destruct IH as (Hp & Hb & Hl & Hh).
    unfold paths_of, blank_tail in *. rewrite trimmed_fields_space by done.
    split; [done|]. split; [done|]. split; [simpl; lia|done]. }
  destruct (Ascii.eqb_spec c ","%char) as [->|Hne].
  { cbn [orb]. destruct IH as (Hp & Hb & Hl & Hh).
    unfold paths_of, blank_tail in *. rewrite trimmed_fields_comma.
    pose proof (trimmed_fields_nonempty p) as Hn.
    split; [|split; [|split; [simpl; lia|done]]].
    - rewrite Hp. rewrite filter_cons_False by (intros H; now apply H). done.
    - rewrite Hb. destruct (trimmed_fields p); done. }
  cbn [orb]. done.
Qed.

Lemma strchr_Some q n :
  strchr q ","%char = Some n →
  ∃ pre rest,
    q = pre ++ ","%char :: rest ∧ n = ","%char :: rest
    ∧ range q n = pre ∧ fields q = pre :: fields rest.
Proof.
  revert n. induction q as [|a q IH]; intros n; [done|]. cbn [strchr fields].
  destruct (Ascii.eqb_spec a ","%char) as [->|Hne].
  - intros [= <-]. exists [], q. split; [done|]. split; [done|]. split; [|done].
    unfold range. now rewrite Nat.sub_diag.
  - intros H. destruct (IH n H) as (pre & rest & -> & -> & Hr & Hf).
    exists (a :: pre), rest. split; [done|]. split; [done|]. split.
    + change (a :: pre ++ ","%char :: rest) with ((a :: pre) ++ ","%char :: rest).
      apply range_app.
    + now rewrite Hf.
Qed.

Lemma strchr_None q : strchr q ","%char = None → fields q = [q].
Proof.
  induction q as [|a q IH]; [done|]. cbn [strchr fields].
  destruct (Ascii.eqb_spec a ","%char) as [->|Hne]; [done|].
  intros H. now rewrite (IH H).
Qed.

Lemma scan_paths_fields {St} (act : string → St → option St) : ∀ fuel p b s,
  (length p < fuel)%nat →
  scan_paths act fuel (Some p) b s
  = (s' ← run_all act (paths_of p) s; Some (s', b && blank_tail p)).
Proof.
  induction fuel as [|fuel IH]; intros p b s Hlen; [lia|].
  destruct p as [|c0 p0].
  { cbn. now rewrite andb_true_r. }
  cbn [scan_paths]. set (p := c0 :: p0) in *.
  destruct (skip_separators_same p) as (Hp & Hb & Hl & Hh).
  rewrite <- Hp, <- Hb.
  destruct (skip_separators p) as [|c q'] eqn:Hq.
  { destruct fuel; cbn; now rewrite andb_true_r. }
  set (q := c :: q') in *. destruct Hh as [Hsp Hcomma].
  destruct (strchr q ","%char) as [n|] eqn:Hn.
  - destruct (strchr_Some q n Hn) as (pre & rest & Hqe & -> & Hr & Hf).
    rewrite Hr. cbn [fmap option_fmap option_map].
    change (drop 1 (","%char :: rest)) with rest.
    assert (Hpre : ∃ pre', pre = c :: pre').
    { destruct pre as [|a pre']; [|exists pre'; subst q; injection Hqe as -> _; done].
      subst q. injection Hqe as -> _. done. }
    destruct Hpre as (pre' & ->).
    destruct (trim_end_cons c pre' Hsp) as (r' & Htrim).
    rewrite Htrim. unfold paths_of, blank_tail, trimmed_fields. rewrite Hf, fmap_cons.
    rewrite trim_nonspace, Htrim by done.
    rewrite filter_cons_True by done. rewrite fmap_cons. cbn [run_all].
    destruct (act (String.string_of_list_ascii (c :: r')) s) as [s'|]; [|done].
    cbn [mbind option_bind]. rewrite IH.
    2:{ assert (length q = length (c :: pre') + S (length rest))%nat
          by (rewrite Hqe, length_app; done).
        simpl in *. lia. }
    unfold paths_of, blank_tail, trimmed_fields.
    pose proof (fields_nonempty rest). destruct (fields rest); done.
  - assert (Hrange : range q [] = q).
    { unfold range. cbn [length]. rewrite Nat.sub_0_r. apply take_ge. lia. }
    rewrite Hrange.
    destruct (trim_end_cons c q' Hsp) as (r' & Htrim). fold q in Htrim.
    rewrite Htrim. unfold paths_of, blank_tail, trimmed_fields.
    rewrite (strchr_None q Hn). cbn [fmap list_fmap].
    subst q. rewrite trim_nonspace, Htrim by done.
    rewrite filter_cons_True by done. cbn [filter fmap list_fmap run_all last].
    destruct (act (String.string_of_list_ascii (c :: r')) s) as [s'|]; [|done].
    cbn. rewrite andb_false_r. now destruct fuel.
Qed.


Lemma fields_no_comma p : Forall (λ f, ","%char ∉ f) (fields p).
Proof.
  induction p as [|c p IH]; cbn [fields].
  - constructor; [|constructor]. intros H. now apply elem_of_nil in H.
  - destruct (Ascii.eqb_spec c ","%char) as [->|Hne].
    + constructor; [|done]. intros H. now apply elem_of_nil in H.
    + destruct (fields p) as [|f fs]; inversion IH; subst.
      * constructor; [|constructor]. intros Heq%list_elem_of_singleton. congruence.
      * constructor; [|done]. rewrite not_elem_of_cons. done.
Qed.

Lemma skip_spaces_suffix l : skip_spaces l `suffix_of` l.
Proof.
  induction l as [|c l IH]; [done|]. cbn [skip_spaces].
  destruct (Ascii.is_space c); [|done]. now apply suffix_cons_r.
Qed.

Lemma skip_spaces_head l :
  match skip_spaces l with c :: _ => Ascii.is_space c = false | [] => True end.
Proof.
  induction l as [|c l IH]; [done|]. cbn [skip_spaces].
  destruct (Ascii.is_space c) eqn:Hc; done.
Qed.

Lemma trim_end_prefix l : trim_end l `prefix_of` l.
Proof.
  unfold trim_end. destruct (skip_spaces_suffix (reverse l)) as (k & Hk).
  exists (reverse k). rewrite <- (reverse_involutive l) at 1.
  rewrite Hk at 1. now rewrite reverse_app.
Qed.

Lemma trim_end_last l :
  match last (trim_end l) with Some c => Ascii.is_space c = false | None => True end.
Proof.
  unfold trim_end. pose proof (skip_spaces_head (reverse l)) as H.
  destruct (skip_spaces (reverse l)) as [|c r]; [done|].
  rewrite reverse_cons, last_snoc. done.
Qed.

Lemma trim_wellformed f c r :
  ","%char ∉ f → trim f = c :: r →
  Ascii.is_space c = false
  ∧ (∃ c', last (c :: r) = Some c' ∧ Ascii.is_space c' = false)
  ∧ ","%char ∉ c :: r.
Proof.
  intros Hf Ht. unfold trim in Ht. split; [|split].
  - pose proof (skip_spaces_head f) as Hh.
    destruct (skip_spaces f) as [|a l]; [done|].
    destruct (trim_end_cons a l Hh) as (r' & Hr). rewrite Hr in Ht. congruence.
  - pose proof (trim_end_last (skip_spaces f)) as Hl. rewrite Ht in Hl.
    destruct (last (c :: r)) as [c'|] eqn:E; [eauto|]. now apply last_None in E.
  - intros Hin. apply Hf.
    destruct (trim_end_prefix (skip_spaces f)) as (k1 & Hk1).
    destruct (skip_spaces_suffix f) as (k2 & Hk2).
    rewrite Hk2, Hk1, Ht. rewrite !elem_of_app. auto.
Qed.

Lemma paths_of_wellformed p :
  Forall (λ n, ∃ c r,
            String.list_ascii_of_string n = c :: r
            ∧ Ascii.is_space c = false
            ∧ (∃ c', last (c :: r) = Some c' ∧ Ascii.is_space c' = false)
            ∧ ","%char ∉ c :: r) (paths_of p).
Proof.
  unfold paths_of, trimmed_fields. rewrite Forall_fmap, Forall_forall.
  intros t [Hne Hin]%list_elem_of_filter. cbv beta in Hne.
  apply list_elem_of_fmap in Hin as (f & -> & Hf).
  pose proof (fields_no_comma p) as Hall. rewrite Forall_forall in Hall.
  specialize (Hall f Hf). unfold compose.
  rewrite String.list_ascii_of_string_of_list_ascii.
  destruct (trim f) as [|c r] eqn:Ht; [done|].
  exists c, r. split; [done|]. now apply (trim_wellformed f).
Qed.

Lemma run_all_invariant {St} (act : string → St → option St) (I : St → Prop) items :
  (∀ n s, I s → ∃ s', act n s = Some s' ∧ I s') →
  ∀ s, I s → ∃ s', run_all act items s = Some s' ∧ I s'.
Proof.
  intros Hact. induction items as [|n items IH]; intros s Hs; [eauto|].
  cbn [run_all]. destruct (Hact n s Hs) as (s1 & -> & Hs1). cbn. now apply IH.
Qed.

(** ** The preferred entry *)

Lemma prefer_spec entries d R :
  ∃ i e,
    ((d ∉ (name <$> entries))
     ∧ prefer entries d R = (entries, say (DefaultNotFound d) R))
    ∨ (entries !! i = Some e ∧ name e = d
       ∧ (∀ j e', (j < i)%nat → entries !! j = Some e' → name e' ≠ d)
       ∧ prefer entries d R
         = (e :: delete i entries,
            if decide (i = 0%nat) then say (DefaultNotFound d) R else R)).
Proof.
  unfold prefer.
  destruct (VECTOR_FIND_IF (λ i, String.eqb (name i) d) entries) as [[i e]|] eqn:Hfind.
  - exists i, e. right. unfold VECTOR_FIND_IF in Hfind.
    apply list_find_Some in Hfind as (Hi & He & Hbefore).
    apply Is_true_true, String.eqb_eq in He.
    split; [done|]. split; [done|]. split.
    + intros j e' Hj Hje Hn. apply (Hbefore j e' Hje Hj).
      apply Is_true_true, String.eqb_eq. done.
    + destruct i as [|k].
      * destruct entries as [|e0 entries]; [done|]. cbn in Hi. injection Hi as ->.
        done.
      * rewrite delete_take_drop. done.
  - destruct entries as [|e0 entries].
    + exists 0%nat, (mkHrtfEntry "" (mkHrtf 0 0 0 [] [] [] [] "")). left.
      split; [|done]. intros H. now apply elem_of_nil in H.
    + exists 0%nat, e0. left. split; [|done].
      apply VECTOR_FIND_IF_None in Hfind. rewrite Forall_forall in Hfind.
      intros (e & -> & He)%list_elem_of_fmap. specialize (Hfind e He).
      cbv beta in Hfind. now rewrite String.eqb_refl in Hfind.
Qed.

Lemma catalogue_ok_perm entries entries' R :
  entries' ≡ₚ entries → catalogue_ok entries R → catalogue_ok entries' R.
Proof.
  intros Hp [Hn Hf Hl ? ?]. split; try done.
  - now rewrite Hp.
  - unfold files in *. now rewrite Hp.
  - now rewrite Hp.
Qed.

Lemma prefer_perm entries d R : (prefer entries d R).1 ≡ₚ entries.
Proof.
  destruct (prefer_spec entries d R) as (i & e & [[_ ->]|(Hi & _ & _ & ->)]); [done|].
  cbn [fst]. rewrite delete_take_drop.
  rewrite <- (take_drop_middle entries i e Hi) at 3.
  apply Permutation_middle.
Qed.

Lemma prefer_loaded entries d R : LoadedHrtfs (prefer entries d R).2 = LoadedHrtfs R.
Proof.
  destruct (prefer_spec entries d R) as (i & e & [[_ ->]|(_ & _ & _ & ->)]); [done|].
  cbn [snd]. now destruct (decide (i = 0%nat)).
Qed.

(** ** The whole enumeration *)

Section Enumeration.

Variable MapFileToMem : string → option (list byte).
Variable SearchDataFiles : string → string → list string.
Variable ConfigValueStr : string → string → option string.
Variable ConfigValueExists : string → string → bool.
Variable GetResource : Z → option (list byte).

Lemma kept_step R0 entries R entries' R' :
  kept R0 (entries, R) → catalogue_ok entries' R' →
  (LoadedHrtfs R' = LoadedHrtfs R ∨ ∃ h, LoadedHrtfs R' = h :: LoadedHrtfs R) →
  kept R0 (entries', R').
Proof.
  intros [_ Hs] Hok HL. split; [done|]. cbn [snd] in *.
  destruct HL as [->|(h & ->)]; [done|]. now apply suffix_cons_r.
Qed.

Lemma AddFileEntry_kept R0 fname st :
  kept R0 st →
  ∃ st', AddFileEntry MapFileToMem st.1 fname st.2 = Some st' ∧ kept R0 st'.
Proof.
  destruct st as [entries R]. intros Hk. pose proof Hk as [Hok _]. cbn [fst snd] in *.
  destruct (AddFileEntry_spec MapFileToMem entries fname R Hok)
    as (entries' & R' & -> & Hok' & Hgrow).
  exists (entries', R'). split; [done|]. apply (kept_step R0 entries R); [done|done|].
  destruct Hgrow as [[_ ->]|(e & _ & _ & [->| ->])]; eauto.
Qed.

Lemma add_files_kept R0 flist : ∀ st,
  kept R0 st →
  ∃ st', add_files MapFileToMem flist st.1 st.2 = Some st' ∧ kept R0 st'.
Proof.
  induction flist as [|f flist IH]; intros [entries R] Hk.
  - exists (entries, R). done.
  - cbn [add_files fst snd].
    destruct (AddFileEntry_kept R0 f (entries, R) Hk) as ([entries1 R1] & Hrun & Hk1).
    cbn [fst snd] in Hrun. rewrite Hrun. cbn [mbind option_bind].
    apply (IH (entries1, R1) Hk1).
Qed.

Lemma add_resource_kept R0 id ename st :
  kept R0 st →
  ∃ st', add_resource GetResource id ename st.1 st.2 = Some st' ∧ kept R0 st'.
Proof.
  destruct st as [entries R]. intros Hk. pose proof Hk as [Hok _]. cbn [fst snd] in *.
  unfold add_resource. destruct (GetResource id) as [rdata|]; [|by exists (entries, R)].
  destruct (0 <? Z.of_nat (length rdata)); [|by exists (entries, R)].
  destruct (AddBuiltInEntry_spec entries rdata ename R Hok)
    as (entries' & R' & -> & Hok' & Hgrow).
  exists (entries', R'). split; [done|]. apply (kept_step R0 entries R); [done|done|].
  destruct Hgrow as [[_ ->]|(e & _ & _ & [->| ->])]; eauto.
Qed.

Lemma prefer_kept R0 entries d R :
  kept R0 (entries, R) → kept R0 (prefer entries d R).
Proof.
  intros [Hok Hs]. cbn [fst snd] in *.
  pose proof (prefer_perm entries d R) as Hperm.
  pose proof (prefer_loaded entries d R) as Hload.
  destruct (prefer entries d R) as [e3 r3]. cbn [fst snd] in *.
  split; cbn [fst snd]; [|now rewrite Hload].
  apply (catalogue_ok_perm entries); [done|]. now apply (catalogue_ok_lines _ R).
Qed.

Lemma EnumerateHrtf_spec devname R :
  catalogue_ok [] R →
  ∃ entries' R',
    EnumerateHrtf MapFileToMem SearchDataFiles ConfigValueStr ConfigValueExists
      GetResource devname R = Some (entries', R')
    ∧ catalogue_ok entries' R'
    ∧ LoadedHrtfs R `suffix_of` LoadedHrtfs R'.
Proof.
  intros Hok. unfold EnumerateHrtf.
  assert (Hk0 : kept R ([], R)) by (split; done).
  assert (Hlast : ∀ entries2 R2, kept R (entries2, R2) →
    ∃ entries' R',
      (if (1 <? length entries2)%nat
       then match ConfigValueStr devname "default-hrtf" with
            | Some defaulthrtf => Some (prefer entries2 defaulthrtf R2)
            | None => Some (entries2, R2)
            end
       else Some (entries2, R2)) = Some (entries', R')
      ∧ catalogue_ok entries' R' ∧ LoadedHrtfs R `suffix_of` LoadedHrtfs R').
  { intros entries2 R2 Hk2.
    destruct (1 <? length entries2)%nat; [|by exists entries2, R2].
    destruct (ConfigValueStr devname "default-hrtf") as [d|]; [|by exists entries2, R2].
    pose proof (prefer_kept R entries2 d R2 Hk2) as Hk3.
    destruct (prefer entries2 d R2) as [e3 r3]. by exists e3, r3. }
  assert (Hdefaults : ∀ (b : bool) entries1 R1, kept R (entries1, R1) →
    ∃ entries2 R2,
      (if b
       then
         add_files MapFileToMem (SearchDataFiles ".mhr" "openal/hrtf") entries1 R1
         ≫= λ '(entries, R),
              add_resource GetResource IDR_DEFAULT_44100_MHR "Built-In 44100hz" entries R
              ≫= λ '(entries, R),
                   add_resource GetResource IDR_DEFAULT_48000_MHR "Built-In 48000hz"
                     entries R
       else Some (entries1, R1)) = Some (entries2, R2) ∧ kept R (entries2, R2)).
  { intros b entries1 R1 Hk1. destruct b; [|eauto].
    destruct (add_files_kept R (SearchDataFiles ".mhr" "openal/hrtf") (entries1, R1) Hk1)
      as ([e2 r2] & Hrun & Hk2). cbn [fst snd] in Hrun. rewrite Hrun.
    cbn [mbind option_bind].
    destruct (add_resource_kept R IDR_DEFAULT_44100_MHR "Built-In 44100hz" (e2, r2) Hk2)
      as ([e3 r3] & Hrun3 & Hk3). cbn [fst snd] in Hrun3. rewrite Hrun3.
    cbn [mbind option_bind].
    destruct (add_resource_kept R IDR_DEFAULT_48000_MHR "Built-In 48000hz" (e3, r3) Hk3)
      as ([e4 r4] & Hrun4 & Hk4). cbn [fst snd] in Hrun4. rewrite Hrun4. eauto. }
  destruct (ConfigValueStr devname "hrtf-paths") as [pathlist|].
  - cbv zeta. rewrite scan_paths_fields by lia.
    match goal with
    | |- context [run_all ?a ?items ?s0] =>
        assert (Hall : ∃ st', run_all a items s0 = Some st' ∧ kept R st')
    end.
    { apply run_all_invariant; [|done].
      intros n [e1 r1] Hk. apply (add_files_kept R _ (e1, r1) Hk). }
    destruct Hall as ([entries1 R1] & Hrun & Hk1).
    rewrite Hrun. cbn [mbind option_bind].
    destruct (Hdefaults (true && blank_tail (String.list_ascii_of_string pathlist))
                entries1 R1 Hk1) as (entries2 & R2 & -> & Hk2).
    cbn [mbind option_bind]. now apply Hlast.
  - cbn [mbind option_bind].
    set (R1 := if ConfigValueExists devname "hrtf_tables"
               then say DeprecatedOption R else R).
    assert (Hk1 : kept R ([], R1)).
    { subst R1. split; cbn [fst snd]; [|by destruct (ConfigValueExists _ _)].
      apply (catalogue_ok_lines _ R); [|done]. by destruct (ConfigValueExists _ _). }
    destruct (Hdefaults true [] R1 Hk1) as (entries2 & R2 & -> & Hk2).
    cbn [mbind option_bind]. now apply Hlast.
Qed.

End Enumeration.

(** ** Where the entries come from *)

Section Origin.

Variable MapFileToMem : string → option (list byte).
Variable SearchDataFiles : string → string → list string.
Variable ConfigValueStr : string → string → option string.
Variable ConfigValueExists : string → string → bool.
Variable GetResource : Z → option (list byte).
Variable A : string → Prop.

Lemma AddFileEntry_from R0 fname st :
  kept_from A R0 st → A fname →
  ∃ st', AddFileEntry MapFileToMem st.1 fname st.2 = Some st' ∧ kept_from A R0 st'.
Proof.
  destruct st as [entries R]. intros [Hk HA] Hf. pose proof Hk as [Hok _].
  cbn [fst snd] in *.
  destruct (AddFileEntry_spec MapFileToMem entries fname R Hok)
    as (entries' & R' & -> & Hok' & Hgrow).
  exists (entries', R'). split; [done|]. split.
  - apply (kept_step R0 entries R); [done|done|].
    destruct Hgrow as [[_ ->]|(e & _ & _ & [->| ->])]; eauto.
  - cbn [fst]. destruct Hgrow as [[-> _]|(e & -> & He & _)]; [done|].
    apply Forall_app. split; [done|]. apply Forall_singleton. now rewrite He.
Qed.

Lemma add_files_from R0 flist : ∀ st,
  kept_from A R0 st → Forall A flist →
  ∃ st', add_files MapFileToMem flist st.1 st.2 = Some st' ∧ kept_from A R0 st'.
Proof.
  induction flist as [|f flist IH]; intros [entries R] Hk Hfl.
  - exists (entries, R). done.
  - cbn [add_files fst snd]. apply Forall_cons in Hfl as [Hf Hfl].
    destruct (AddFileEntry_from R0 f (entries, R) Hk Hf) as ([entries1 R1] & Hrun & Hk1).
    cbn [fst snd] in Hrun. rewrite Hrun. cbn [mbind option_bind].
    apply (IH (entries1, R1) Hk1 Hfl).
Qed.

Lemma add_resource_from R0 id ename st :
  kept_from A R0 st → (is_Some (GetResource id) → A ename) →
  ∃ st', add_resource GetResource id ename st.1 st.2 = Some st' ∧ kept_from A R0 st'.
Proof.
  destruct st as [entries R]. intros [Hk HA] Hf. pose proof Hk as [Hok _].
  cbn [fst snd] in *.
  unfold add_resource. destruct (GetResource id) as [rdata|]; [|by exists (entries, R)].
  destruct (0 <? Z.of_nat (length rdata)); [|by exists (entries, R)].
  destruct (AddBuiltInEntry_spec entries rdata ename R Hok)
    as (entries' & R' & -> & Hok' & Hgrow).
  exists (entries', R'). split; [done|]. split.
  - apply (kept_step R0 entries R); [done|done|].
    destruct Hgrow as [[_ ->]|(e & _ & _ & [->| ->])]; eauto.
  - cbn [fst]. destruct Hgrow as [[-> _]|(e & -> & He & _)]; [done|].
    apply Forall_app. split; [done|]. apply Forall_singleton. rewrite He.
    apply Hf. done.
Qed.

Lemma prefer_from R0 entries d R :
  kept_from A R0 (entries, R) → kept_from A R0 (prefer entries d R).
Proof.
  intros [Hk HA]. split; [now apply prefer_kept|].
  cbn [fst] in HA. now rewrite (prefer_perm entries d R).
Qed.

End Origin.

Section EnumerationOrigin.

Variable MapFileToMem : string → option (list byte).
Variable SearchDataFiles : string → string → list string.
Variable ConfigValueStr : string → string → option string.
Variable ConfigValueExists : string → string → bool.
Variable GetResource : Z → option (list byte).

Lemma EnumerateHrtf_origin devname R :
  catalogue_ok [] R →
  ∃ entries' R',
    EnumerateHrtf MapFileToMem SearchDataFiles ConfigValueStr ConfigValueExists
      GetResource devname R = Some (entries', R')
    ∧ Forall (λ e,
        match ConfigValueStr devname "hrtf-paths" with
        | Some pathlist =>
            found_in SearchDataFiles
              (paths_of (String.list_ascii_of_string pathlist)) (filename (hrtf e))
            ∨ (blank_tail (String.list_ascii_of_string pathlist) = true
               ∧ (found_in SearchDataFiles ["openal/hrtf"] (filename (hrtf e))
                  ∨ built_in GetResource (filename (hrtf e))))
        | None =>
            found_in SearchDataFiles ["openal/hrtf"] (filename (hrtf e))
            ∨ built_in GetResource (filename (hrtf e))
        end) entries'.
Proof.
  intros Hok. unfold EnumerateHrtf.
  assert (Hlast : ∀ A entries2 R2, kept_from A R (entries2, R2) →
    ∃ entries' R',
      (if (1 <? length entries2)%nat
       then match ConfigValueStr devname "default-hrtf" with
            | Some defaulthrtf => Some (prefer entries2 defaulthrtf R2)
            | None => Some (entries2, R2)
            end
       else Some (entries2, R2)) = Some (entries', R')
      ∧ Forall (λ e, A (filename (hrtf e))) entries').
  { intros A entries2 R2 Hk2.
    destruct (1 <? length entries2)%nat; [|exists entries2, R2; split; [done|apply Hk2]].
    destruct (ConfigValueStr devname "default-hrtf") as [d|];
      [|exists entries2, R2; split; [done|apply Hk2]].
    pose proof (prefer_from A R entries2 d R2 Hk2) as [_ Hk3].
    destruct (prefer entries2 d R2) as [e3 r3]. by exists e3, r3. }
  assert (Hdefaults : ∀ (A : string → Prop) (b : bool) entries1 R1,
    (b = true → ∀ f, found_in SearchDataFiles ["openal/hrtf"] f ∨ built_in GetResource f
                     → A f) →
    kept_from A R (entries1, R1) →
    ∃ entries2 R2,
      (if b
       then
         add_files MapFileToMem (SearchDataFiles ".mhr" "openal/hrtf") entries1 R1
         ≫= λ '(entries, R),
              add_resource GetResource IDR_DEFAULT_44100_MHR "Built-In 44100hz" entries R
              ≫= λ '(entries, R),
                   add_resource GetResource IDR_DEFAULT_48000_MHR "Built-In 48000hz"
                     entries R
       else Some (entries1, R1)) = Some (entries2, R2) ∧ kept_from A R (entries2, R2)).
  { intros A b entries1 R1 HA Hk1. destruct b; [|eauto].
    specialize (HA eq_refl).
    destruct (add_files_from MapFileToMem A R (SearchDataFiles ".mhr" "openal/hrtf")
                (entries1, R1) Hk1) as ([e2 r2] & Hrun & Hk2).
    { apply Forall_forall. intros f Hf. apply HA. left. exists "openal/hrtf".
      split; [apply list_elem_of_here|done]. }
    cbn [fst snd] in Hrun. rewrite Hrun. cbn [mbind option_bind].
    destruct (add_resource_from GetResource A R IDR_DEFAULT_44100_MHR "Built-In 44100hz"
                (e2, r2) Hk2) as ([e3 r3] & Hrun3 & Hk3).
    { intros Hs. apply HA. right. left. done. }
    cbn [fst snd] in Hrun3. rewrite Hrun3. cbn [mbind option_bind].
    destruct (add_resource_from GetResource A R IDR_DEFAULT_48000_MHR "Built-In 48000hz"
                (e3, r3) Hk3) as ([e4 r4] & Hrun4 & Hk4).
    { intros Hs. apply HA. right. right. done. }
    cbn [fst snd] in Hrun4. rewrite Hrun4. eauto. }
  destruct (ConfigValueStr devname "hrtf-paths") as [pathlist|].
  - cbv zeta. rewrite scan_paths_fields by lia.
    set (p := String.list_ascii_of_string pathlist).
    set (A := λ f : string,
           found_in SearchDataFiles (paths_of p) f
           ∨ (blank_tail p = true
              ∧ (found_in SearchDataFiles ["openal/hrtf"] f ∨ built_in GetResource f))).
    match goal with
    | |- context [run_all ?a ?items ?s0] =>
        assert (Hall : ∃ st', run_all a items s0 = Some st' ∧ kept_from A R st')
    end.
    { assert (Hgen : ∀ items st, items ⊆ paths_of p → kept_from A R st →
        ∃ st', run_all
                 (λ pname '(entries, R),
                    add_files MapFileToMem (SearchDataFiles ".mhr" pname) entries R)
                 items st = Some st' ∧ kept_from A R st').
      { induction items as [|n items IH]; intros st Hsub Hk; [eauto|].
        cbn [run_all]. destruct st as [e1 r1].
        destruct (add_files_from MapFileToMem A R (SearchDataFiles ".mhr" n) (e1, r1) Hk)
          as (st1 & Hrun & Hk1).
        { apply Forall_forall. intros f Hf. left. exists n. split; [|done].
          apply Hsub, list_elem_of_here. }
        cbn [fst snd] in Hrun. rewrite Hrun. cbn [mbind option_bind].
        apply IH; [|done]. intros x Hx. apply Hsub. now apply list_elem_of_further. }
      apply Hgen; [done|]. split; [by split|]. cbn [fst]. constructor. }
    destruct Hall as ([entries1 R1] & Hrun & Hk1).
    rewrite Hrun. cbn [mbind option_bind].
    destruct (Hdefaults A (true && blank_tail p) entries1 R1) as (entries2 & R2 & -> & Hk2);
      [|done|].
    { cbn [andb]. intros Hb f Hf. right. done. }
    cbn [mbind option_bind]. now apply (Hlast A).
  - cbn [mbind option_bind].
    set (R1 := if ConfigValueExists devname "hrtf_tables"
               then say DeprecatedOption R else R).
    set (A := λ f : string,
           found_in SearchDataFiles ["openal/hrtf"] f ∨ built_in GetResource f).
    assert (Hk1 : kept_from A R ([], R1)).
    { subst R1. split; [|cbn [fst]; constructor].
      split; cbn [fst snd]; [|by destruct (ConfigValueExists _ _)].
      apply (catalogue_ok_lines _ R); [|done]. by destruct (ConfigValueExists _ _). }
    destruct (Hdefaults A true [] R1) as (entries2 & R2 & -> & Hk2); [done|done|].
    cbn [mbind option_bind]. now apply (Hlast A).
Qed.

Lemma EnumerateHrtf_preferred devname R entries' R' d :
  EnumerateHrtf MapFileToMem SearchDataFiles ConfigValueStr ConfigValueExists
    GetResource devname R = Some (entries', R') →
  ConfigValueStr devname "default-hrtf" = Some d →
  d ∈ (name <$> entries') →
  ∃ e rest, entries' = e :: rest ∧ name e = d.
Proof.
  unfold EnumerateHrtf. intros Hrun Hd Hin. rewrite Hd in Hrun.
  match type of Hrun with
  | (?X ≫= _) = _ => destruct X as [[[e1 r1] b]|]; [|discriminate]
  end.
  cbn [mbind option_bind] in Hrun.
  match type of Hrun with
  | (?X ≫= _) = _ => destruct X as [[e2 r2]|]; [|discriminate]
  end.
  cbn [mbind option_bind] in Hrun.
  destruct (1 <? length e2)%nat eqn:Hlen.
  - destruct (prefer_spec e2 d r2) as (i & e & [[Hnot Hp]|(Hi & Hn & _ & Hp)]);
      rewrite Hp in Hrun; injection Hrun as <- <-.
    + done.
    + by exists e, (delete i e2).
  - injection Hrun as <- <-. apply Nat.ltb_ge in Hlen.
    destruct e2 as [|e [|e' rest]]; [|exists e, []|cbn in Hlen; lia].
    + cbn in Hin. now apply elem_of_nil in Hin.
    + split; [done|]. cbn in Hin. apply list_elem_of_singleton in Hin. done.
Qed.

End EnumerationOrigin.


(** * More on the interpolator *)

Lemma blended_mix (a : list Z) idx b0 b1 b2 b3 c :
  (0 <= b0)%Q → (0 <= b1)%Q → (0 <= b2)%Q → (0 <= b3)%Q →
  (b0 + b1 + b2 + b3 == 1)%Q →
  blended a idx (b0, b1, b2, b3) = Some c → mix_of a c.
Proof.
  intros B0 B1 B2 B3 Hsum. destruct idx as [[[i0 i1] i2] i3]. unfold blended, at_.
  destruct (a !! Z.to_nat i0) as [v0|] eqn:E0; [|done].
  destruct (a !! Z.to_nat i1) as [v1|] eqn:E1; [|done].
  destruct (a !! Z.to_nat i2) as [v2|] eqn:E2; [|done].
  destruct (a !! Z.to_nat i3) as [v3|] eqn:E3; [|done].
  cbn [mbind option_bind]. intros [= <-].
  exists v0, v1, v2, v3, b0, b1, b2, b3.
  repeat (split; [first [done|eapply list_elem_of_lookup_2; eassumption]|]). done.
Qed.

Lemma mix_of_range (vals : list Z) (lo hi : Z) (c : Q) :
  Forall (λ v, lo ≤ v ≤ hi) vals → mix_of vals c →
  (inject_Z lo <= c)%Q ∧ (c <= inject_Z hi)%Q.
Proof.
  intros Hall (v0 & v1 & v2 & v3 & b0 & b1 & b2 & b3 & H0 & H1 & H2 & H3
               & B0 & B1 & B2 & B3 & Hsum & ->).
  rewrite Forall_forall in Hall.
  assert (Hr : ∀ v, v ∈ vals →
            (0 <= inject_Z v - inject_Z lo)%Q
            ∧ (inject_Z v - inject_Z lo <= inject_Z hi - inject_Z lo)%Q).
  { intros v Hv. specialize (Hall v Hv).
    assert (inject_Z lo <= inject_Z v)%Q by (rewrite <- Zle_Qle; lia).
    assert (inject_Z v <= inject_Z hi)%Q by (rewrite <- Zle_Qle; lia).
    split; lra. }
  destruct (Hr v0 H0), (Hr v1 H1), (Hr v2 H2), (Hr v3 H3).
  destruct (convex4 (inject_Z v0 - inject_Z lo) (inject_Z v1 - inject_Z lo)
              (inject_Z v2 - inject_Z lo) (inject_Z v3 - inject_Z lo)
              b0 b1 b2 b3 (inject_Z hi - inject_Z lo)) as [Hlo Hhi]; try done.
  set (L := inject_Z lo) in *. set (V0 := inject_Z v0) in *.
  set (V1 := inject_Z v1) in *. set (V2 := inject_Z v2) in *.
  set (V3 := inject_Z v3) in *.
  assert (Heq : ((V0 - L) * b0 + (V1 - L) * b1 + (V2 - L) * b2 + (V3 - L) * b3
                 == V0 * b0 + V1 * b1 + V2 * b2 + V3 * b3 - L * (b0 + b1 + b2 + b3))%Q)
    by ring.
  rewrite Heq, Hsum in Hlo, Hhi. split; lra.
Qed.

Lemma lerp_coeff_mix h lidx ridx b0 b1 b2 b3 dirfact gain base i out :
  Hrtf_valid h → cells_ok h lidx → cells_ok h ridx →
  (0 <= b0)%Q → (0 <= b1)%Q → (0 <= b2)%Q → (0 <= b3)%Q →
  (b0 + b1 + b2 + b3 == 1)%Q →
  0 ≤ i < irSize h → (Z.to_nat i < length out)%nat →
  ∃ cl cr,
    mix_of (coeffs h) cl ∧ mix_of (coeffs h) cr
    ∧ lerp_coeff h (scale4 lidx (irSize h)) (scale4 ridx (irSize h))
        (b0, b1, b2, b3) dirfact gain base i out
      = Some (<[Z.to_nat i := ((lerp base cl dirfact * gain * (1 / 32767))%Q,
                               (lerp base cr dirfact * gain * (1 / 32767))%Q)]> out).
Proof.
  intros Hv Hl Hr B0 B1 B2 B3 Hsum Hi Hlen. unfold lerp_coeff.
  destruct (blended_coeffs h lidx (b0, b1, b2, b3) i Hv Hl Hi) as [cl Hcl].
  destruct (blended_coeffs h ridx (b0, b1, b2, b3) i Hv Hr Hi) as [cr Hcr].
  rewrite Hcl, Hcr. cbn [mbind option_bind]. rewrite store_Some by done.
  exists cl, cr.
  split; [exact (blended_mix (coeffs h) _ b0 b1 b2 b3 cl B0 B1 B2 B3 Hsum Hcl)|].
  split; [exact (blended_mix (coeffs h) _ b0 b1 b2 b3 cr B0 B1 B2 B3 Hsum Hcr)|done].
Qed.

Lemma lerp_coeffs_mix h lidx ridx b0 b1 b2 b3 dirfact gain n : ∀ i out,
  Hrtf_valid h → cells_ok h lidx → cells_ok h ridx →
  (0 <= b0)%Q → (0 <= b1)%Q → (0 <= b2)%Q → (0 <= b3)%Q →
  (b0 + b1 + b2 + b3 == 1)%Q →
  0 ≤ i → i + Z.of_nat n ≤ irSize h → (Z.to_nat i + n ≤ length out)%nat →
  ∃ out',
    lerp_coeffs h (scale4 lidx (irSize h)) (scale4 ridx (irSize h))
      (b0, b1, b2, b3) dirfact gain n i out = Some out'
    ∧ (∀ j, (Z.to_nat i ≤ j < Z.to_nat i + n)%nat →
         ∃ cl cr, mix_of (coeffs h) cl ∧ mix_of (coeffs h) cr
           ∧ out' !! j = Some ((lerp 0 cl dirfact * gain * (1 / 32767))%Q,
                               (lerp 0 cr dirfact * gain * (1 / 32767))%Q))
    ∧ (∀ j, (j < Z.to_nat i ∨ Z.to_nat i + n ≤ j)%nat → out' !! j = out !! j).
Proof.
  induction n as [|n IH]; intros i out Hv Hl Hr B0 B1 B2 B3 Hsum Hi Hn Hlen.
  - exists out. split; [done|]. split; [lia|done].
  - cbn [lerp_coeffs].
    destruct (lerp_coeff_mix h lidx ridx b0 b1 b2 b3 dirfact gain 0%Q i out)
      as (cl & cr & Hcl & Hcr & ->); try done; try lia.
    cbn [mbind option_bind].
    set (p := ((lerp 0 cl dirfact * gain * (1 / 32767))%Q, _)).
    destruct (IH (i + 1) (<[Z.to_nat i := p]> out)) as (out' & Hrun & Hw & Hk);
      try done; try lia; [rewrite length_insert; lia|].
    exists out'. split; [done|]. split.
    + intros j Hj. destruct (decide (j = Z.to_nat i)) as [->|Hne].
      * exists cl, cr. split; [done|]. split; [done|].
        rewrite Hk by lia. apply list_lookup_insert_eq. lia.
      * apply Hw. lia.
    + intros j Hj. rewrite Hk by lia. apply list_lookup_insert_ne. lia.
Qed.

Lemma GetLerpedHrtfCoeffs_mixes h elevation azimuth spread gain out :
  Hrtf_valid h → (0 < F_PI)%Q →
  (- F_PI_2 <= elevation)%Q → (elevation <= F_PI_2)%Q →
  (Z.to_nat (irSize h) ≤ length out)%nat → Qle_bool gain 0.0001 = false →
  let dirfact := (1 - spread / F_TAU)%Q in
  ∃ out' d,
    GetLerpedHrtfCoeffs h elevation azimuth spread gain out = Some (out', d)
    ∧ (∃ cl cr, mix_of (coeffs h) cl ∧ mix_of (coeffs h) cr
         ∧ out' !! 0%nat
           = Some ((lerp PassthruCoeff cl dirfact * gain * (1 / 32767))%Q,
                   (lerp PassthruCoeff cr dirfact * gain * (1 / 32767))%Q))
    ∧ (∀ j, (1 ≤ j < Z.to_nat (irSize h))%nat →
         ∃ cl cr, mix_of (coeffs h) cl ∧ mix_of (coeffs h) cr
           ∧ out' !! j = Some ((lerp 0 cl dirfact * gain * (1 / 32767))%Q,
                               (lerp 0 cr dirfact * gain * (1 / 32767))%Q)).
Proof.
  intros Hv Hpi Hel0 Hel1 Hout Hgain dirfact.
  pose proof (valid_evCount h Hv) as Hec. unfold MIN_EV_COUNT, MAX_EV_COUNT in Hec.
  pose proof (valid_irSize h Hv) as [Hsz _]. unfold MIN_IR_SIZE, MAX_IR_SIZE in Hsz.
  destruct (CalcEvIndices_range (evCount h) elevation)
    as (e0 & e1 & mu2 & Hev & He0 & He1 & Hmu2a & Hmu2b); [done|lia|done|done|].
  destruct (lerp_indices_spec h azimuth e0 Hv He0)
    as (l0 & l1 & r0 & r1 & mu0 & Hi0 & Hl0 & Hl1 & Hr0 & Hr1 & Hmu0a & Hmu0b).
  destruct (lerp_indices_spec h azimuth e1 Hv He1)
    as (l2 & l3 & r2 & r3 & mu1 & Hi1 & Hl2 & Hl3 & Hr2 & Hr3 & Hmu1a & Hmu1b).
  destruct (blend_weights mu0 mu1 mu2) as (B0 & B1 & B2 & B3 & Bsum); try lra.
  unfold GetLerpedHrtfCoeffs. rewrite Hev, Hi0. cbn [mbind option_bind].
  rewrite Hi1. cbn [mbind option_bind]. rewrite Hgain. fold dirfact.
  assert (Hlc : cells_ok h (l0, l1, l2, l3)) by done.
  assert (Hrc : cells_ok h (r0, r1, r2, r3)) by done.
  destruct (lerp_delay_spec h (l0, l1, l2, l3)
              ((1 - mu0) * (1 - mu2), mu0 * (1 - mu2), (1 - mu1) * mu2, mu1 * mu2)%Q
              dirfact Hv Hlc) as (k0 & -> & _).
  destruct (lerp_delay_spec h (r0, r1, r2, r3)
              ((1 - mu0) * (1 - mu2), mu0 * (1 - mu2), (1 - mu1) * mu2, mu1 * mu2)%Q
              dirfact Hv Hrc) as (k1 & -> & _).
  cbn [mbind option_bind].
  destruct (lerp_coeff_mix h (l0, l1, l2, l3) (r0, r1, r2, r3) _ _ _ _ dirfact gain
              PassthruCoeff 0 out Hv Hlc Hrc B0 B1 B2 B3 Bsum)
    as (cl & cr & Hcl & Hcr & ->); [lia|lia|].
  cbn [mbind option_bind].
  set (p := ((lerp PassthruCoeff cl dirfact * gain * (1 / 32767))%Q, _)).
  destruct (lerp_coeffs_mix h (l0, l1, l2, l3) (r0, r1, r2, r3) _ _ _ _ dirfact gain
              (Z.to_nat (irSize h - 1)) 1 (<[Z.to_nat 0 := p]> out)
              Hv Hlc Hrc B0 B1 B2 B3 Bsum)
    as (out' & -> & Hw & Hk); [lia|lia|rewrite length_insert; lia|].
  cbn [mbind option_bind]. eexists out', _. split; [reflexivity|]. split.
  - exists cl, cr. split; [done|]. split; [done|].
    rewrite Hk by lia. apply list_lookup_insert_eq. lia.
  - intros j Hj. apply Hw. lia.
Qed.

Lemma lerp_range (base c dirfact lo hi : Q) :
  (lo <= base)%Q → (base <= hi)%Q → (lo <= c)%Q → (c <= hi)%Q →
  (0 <= dirfact)%Q → (dirfact <= 1)%Q →
  (lo <= lerp base c dirfact)%Q ∧ (lerp base c dirfact <= hi)%Q.
Proof.
  intros Hb0 Hb1 Hc0 Hc1 Hd0 Hd1. unfold lerp.
  assert (H1 : (0 <= (c - lo) * dirfact)%Q) by (apply Qmult_le_0_compat; lra).
  assert (H2 : (0 <= (hi - c) * dirfact)%Q) by (apply Qmult_le_0_compat; lra).
  assert (H3 : (0 <= (base - lo) * (1 - dirfact))%Q) by (apply Qmult_le_0_compat; lra).
  assert (H4 : (0 <= (hi - base) * (1 - dirfact))%Q) by (apply Qmult_le_0_compat; lra).
  split.
  - setoid_replace (base + (c - base) * dirfact)%Q
      with (lo + ((c - lo) * dirfact + (base - lo) * (1 - dirfact)))%Q
      using relation Qeq by ring. lra.
  - setoid_replace (base + (c - base) * dirfact)%Q
      with (hi - ((hi - c) * dirfact + (hi - base) * (1 - dirfact)))%Q
      using relation Qeq by ring. lra.
Qed.

Lemma scaled_range (L gain : Q) :
  (-32768 <= L)%Q → (L <= 32767)%Q → (0 <= gain)%Q →
  (- (gain * (32768 / 32767)) <= L * gain * (1 / 32767))%Q
  ∧ (L * gain * (1 / 32767) <= gain * (32768 / 32767))%Q.
Proof.
  intros H0 H1 Hg.
  assert (E1 : (1 / 32767 == 1 # 32767)%Q) by reflexivity.
  assert (E2 : (32768 / 32767 == 32768 # 32767)%Q) by reflexivity.
  rewrite E1, E2.
  assert (A : (0 <= (L + 32768) * gain)%Q) by (apply Qmult_le_0_compat; lra).
  assert (B : (0 <= (32767 - L) * gain)%Q) by (apply Qmult_le_0_compat; lra).
  split; lra.
Qed.

(** * The decoders and the layout of the formats *)

(** X8: [LoadHrtf01] returns a data set exactly when the v1 layout read
    off the whole buffer, [layout01], describes one, and it returns that
    one: the header and the ring sizes must be in range, the buffer must
    hold the ring sizes and [2*irSize*irCount + irCount] bytes after
    them, and no delay may exceed [maxDelay]. *)
Theorem LoadHrtf01_follows_layout (buf : list byte) (name : string) (h : Hrtf) :
  LoadHrtf01 buf name = Loaded h ↔ layout01 buf name = Some h.
Proof. apply LoadHrtf01_is_layout01. Qed.

(** X9: [LoadHrtf00] returns a data set exactly when the v0 layout read
    off the whole buffer, [layout00], describes one, and it returns that
    one: the ring sizes are the differences of the offsets narrowed to
    eight bits, and the first offset is not checked. *)
Theorem LoadHrtf00_follows_layout (buf : list byte) (name : string) (h : Hrtf) :
  LoadHrtf00 buf name = Loaded h ↔ layout00 buf name = Some h.
Proof. apply LoadHrtf00_is_layout00. Qed.

(** X10: bytes that follow the delays are ignored: a buffer that either
    decoder accepts is accepted, with the same data set, whatever is
    appended to it. *)
Theorem trailing_bytes_ignored (buf extra : list byte) (name : string) (h : Hrtf) :
  (LoadHrtf00 buf name = Loaded h → LoadHrtf00 (buf ++ extra) name = Loaded h)
  ∧ (LoadHrtf01 buf name = Loaded h → LoadHrtf01 (buf ++ extra) name = Loaded h).
Proof.
  split; intros H.
  - apply LoadHrtf00_is_layout00. now apply layout00_app, LoadHrtf00_is_layout00.
  - apply LoadHrtf01_is_layout01. now apply layout01_app, LoadHrtf01_is_layout01.
Qed.

(** X11: a data set returned by either decoder carries the file name it
    was called with, a sample rate below [2^32], and coefficients that are
    signed 16-bit values. *)
Theorem loaded_fields_in_range (buf : list byte) (name : string) (h : Hrtf) :
  LoadHrtf00 buf name = Loaded h ∨ LoadHrtf01 buf name = Loaded h →
  filename h = name
  ∧ 0 ≤ sampleRate h < 2 ^ 32
  ∧ Forall (λ c, -32768 ≤ c ≤ 32767) (coeffs h).
Proof.
  intros H. split; [now apply (Loaded_filename buf)|].
  destruct (Loaded_ranges buf name h H). done.
Qed.

(** * The catalogue *)

(** X12: [AddBuiltInEntry] returns, keeps the catalogue invariant, and
    changes the catalogue and the registry in one of three ways only:
    nothing is added; an entry for the file is appended; or an entry is
    appended and its data set is pushed on the registry. *)
Theorem AddBuiltInEntry_keeps_catalogue (entries : list HrtfEntry)
    (data : list byte) (fname : string) (R : registry) :
  catalogue_ok entries R →
  ∃ entries' R',
    AddBuiltInEntry entries data fname R = Some (entries', R')
    ∧ catalogue_ok entries' R'
    ∧ (entries' = entries ∧ LoadedHrtfs R' = LoadedHrtfs R
       ∨ ∃ e, entries' = entries ++ [e] ∧ filename (hrtf e) = fname
              ∧ (LoadedHrtfs R' = LoadedHrtfs R
                 ∨ LoadedHrtfs R' = hrtf e :: LoadedHrtfs R)).
Proof. apply AddBuiltInEntry_spec. Qed.

(** X13: the same for [AddFileEntry], whatever the file system holds. *)
Theorem AddFileEntry_keeps_catalogue (fs : string → option (list byte))
    (entries : list HrtfEntry) (fname : string) (R : registry) :
  catalogue_ok entries R →
  ∃ entries' R',
    AddFileEntry fs entries fname R = Some (entries', R')
    ∧ catalogue_ok entries' R'
    ∧ (entries' = entries ∧ LoadedHrtfs R' = LoadedHrtfs R
       ∨ ∃ e, entries' = entries ++ [e] ∧ filename (hrtf e) = fname
              ∧ (LoadedHrtfs R' = LoadedHrtfs R
                 ∨ LoadedHrtfs R' = hrtf e :: LoadedHrtfs R)).
Proof. apply AddFileEntry_spec. Qed.

(** X14: a file is decoded once.  After [AddFileEntry] has listed a file,
    a later call for the same file name, for any catalogue that does not
    list it yet and whatever the file holds by then, lists the very same
    data set, leaves the registry as it is, and logs only that the load is
    skipped and the entry added. *)
Theorem same_file_is_loaded_once (fs fs' : string → option (list byte))
    (entries entries2 : list HrtfEntry) (fname : string) (R R1 : registry)
    (e : HrtfEntry) :
  catalogue_ok entries R →
  AddFileEntry fs entries fname R = Some (entries ++ [e], R1) →
  fname ∉ files entries2 →
  ∃ n,
    AddFileEntry fs' entries2 fname R1
    = Some (entries2 ++ [mkHrtfEntry n (hrtf e)],
            mkRegistry (LoadedHrtfs R1)
              (lines R1 ++ [SkippingLoad fname; AddingEntry n fname])).
Proof.
  intros Hok Hrun Hnew.
  destruct (AddFileEntry_spec fs entries fname R Hok) as (entries' & R' & Hrun' & Hok' & Hgrow).
  rewrite Hrun in Hrun'. injection Hrun' as <- <-.
  destruct Hgrow as [[Heq _]|(e0 & Heq & Hf & _)].
  { apply (f_equal length) in Heq. rewrite length_app in Heq. simpl in Heq. lia. }
  apply app_inv_head in Heq. injection Heq as <-.
  destruct Hok' as [_ _ Hl Hnd _]. apply Forall_app in Hl as [_ Hl].
  rewrite Forall_singleton in Hl. now apply AddFileEntry_cached.
Qed.

(** X15: data without a marker adds nothing.  For a file name that is
    neither listed nor loaded and data that starts with neither marker,
    both functions leave the catalogue and the registry as they are.
    [AddBuiltInEntry] stops after the line about short data, where
    [AddFileEntry] goes on to log that the load failed; a file that cannot
    be opened is logged as such. *)
Theorem unrecognised_data_adds_nothing (fs : string → option (list byte))
    (entries : list HrtfEntry) (data : list byte) (fname : string) (R : registry) :
  fname ∉ files entries → fname ∉ (filename <$> LoadedHrtfs R) →
  memcmp_eq data magicMarker01 8 = false → memcmp_eq data magicMarker00 8 = false →
  let len := Z.of_nat (length data) in
  AddBuiltInEntry entries data fname R
  = Some (entries,
          mkRegistry (LoadedHrtfs R)
            (lines R ++ Loading fname ::
               (if len <? 8 then [TooShort fname len]
                else [InvalidHeader fname (take 8 data); FailedToLoad fname])))
  ∧ (fs fname = Some data →
     AddFileEntry fs entries fname R
     = Some (entries,
             mkRegistry (LoadedHrtfs R)
               (lines R ++ [Loading fname;
                            (if len <? 8 then TooShort fname len
                             else InvalidHeader fname (take 8 data));
                            FailedToLoad fname])))
  ∧ (fs fname = None →
     AddFileEntry fs entries fname R
     = Some (entries,
             mkRegistry (LoadedHrtfs R) (lines R ++ [Loading fname; CouldNotOpen fname]))).
Proof.
  intros Hfile Hload H01 H00 len.
  apply find_fname_None in Hfile. apply find_loaded_None in Hload.
  assert (Hdetect : ∀ R0, detect_format data fname R0
                          = Some (None, say (InvalidHeader fname (take 8 data)) R0)).
  { intros R0. unfold detect_format. now rewrite H01, H00. }
  split; [|split].
  - unfold AddBuiltInEntry. rewrite Hfile, Hload. cbv zeta. fold len.
    destruct (len <? 8).
    + rewrite say_say. reflexivity.
    + rewrite Hdetect. cbn [mbind option_bind]. rewrite !say_say.
      unfold say. cbn [lines LoadedHrtfs]. rewrite <- app_assoc. reflexivity.
  - intros Hfs. unfold AddFileEntry. rewrite Hfile, Hload, Hfs. cbv zeta. fold len.
    destruct (len <? 8).
    + cbn [mbind option_bind]. rewrite !say_say.
      unfold say. cbn [lines LoadedHrtfs]. rewrite <- app_assoc. reflexivity.
    + rewrite Hdetect. cbn [mbind option_bind]. rewrite !say_say.
      unfold say. cbn [lines LoadedHrtfs]. rewrite <- app_assoc. reflexivity.
  - intros Hfs. unfold AddFileEntry. rewrite Hfile, Hload, Hfs. cbv zeta.
    rewrite say_say. reflexivity.
Qed.

(** X16: the naming loop ends within one round more than there are
    entries, and the name it picks is the first of [base], [base #2],
    [base #3], ... that no entry has. *)
Theorem pick_name_least (base : string) (entries : list HrtfEntry) :
  ∃ k, (k ≤ length entries)%nat
       ∧ pick_name (S (length entries)) base entries 0 = Some (numbered base k)
       ∧ (numbered base k ∉ (name <$> entries))
       ∧ ∀ j, (j < k)%nat → numbered base j ∈ (name <$> entries).
Proof.
  destruct (pick_name_spec base entries (S (length entries)) 0)
    as (k & _ & Hk & Hrun & Hfree & Hleast); [lia|lia|]. exists k. done.
Qed.

(** X17: the display name of a path [dir/file.ext] is [file], when
    [file] and [ext] hold no ['/'] and [ext] holds no ['.']; without an
    extension it is what follows the last ['/']. *)
Theorem display_name_of_path (dir file ext : string) :
  "/"%char ∉ String.list_ascii_of_string file →
  (("/"%char ∉ String.list_ascii_of_string ext) →
   ("."%char ∉ String.list_ascii_of_string ext) →
   display_name (dir +:+ "/" +:+ file +:+ "." +:+ ext) = file)
  ∧ (("."%char ∉ String.list_ascii_of_string file) →
     display_name (dir +:+ "/" +:+ file) = file).
Proof.
  intros Hfile. split.
  - intros Hext Hdot. unfold display_name.
    rewrite !list_ascii_app.
    change (String.list_ascii_of_string "/") with ["/"%char].
    change (String.list_ascii_of_string ".") with ["."%char].
    set (f := String.list_ascii_of_string file) in *.
    set (x := String.list_ascii_of_string ext) in *.
    cbn [app]. rewrite strrchr_app.
    2:{ rewrite elem_of_app, elem_of_cons. intros [?|[?|?]]; done. }
    cbn [drop]. rewrite drop_0, strrchr_app by done.
    rewrite range_app. apply String.string_of_list_ascii_of_string.
  - intros Hdot. unfold display_name.
    rewrite !list_ascii_app.
    change (String.list_ascii_of_string "/") with ["/"%char].
    set (f := String.list_ascii_of_string file) in *.
    cbn [app]. rewrite strrchr_app by done.
    cbn [drop]. rewrite drop_0. apply strrchr_None in Hdot. rewrite Hdot.
    apply String.string_of_list_ascii_of_string.
Qed.

(** X18: the loop over [hrtf-paths] ends within one round more than the
    string has characters; it applies [act] to the comma-separated fields
    of the string, trimmed and without the empty ones, in order, and
    leaves [usedefaults] true only if nothing but white space follows the
    last comma. *)
Theorem scan_paths_follows_fields {St} (act : string → St → option St)
    (p : list ascii) (usedefaults : bool) (s : St) :
  scan_paths act (S (length p)) (Some p) usedefaults s
  = (s' ← run_all act (paths_of p) s; Some (s', usedefaults && blank_tail p)).
Proof. apply scan_paths_fields. lia. Qed.

(** X19: every path the loop hands on is not empty, holds no comma, and
    neither starts nor ends with white space. *)
Theorem scanned_paths_are_trimmed (p : list ascii) (items : list string) (b : bool) :
  scan_paths (λ n l, Some (l ++ [n])) (S (length p)) (Some p) true [] = Some (items, b) →
  Forall (λ n, ∃ c r,
            String.list_ascii_of_string n = c :: r
            ∧ Ascii.is_space c = false
            ∧ (∃ c', last (c :: r) = Some c' ∧ Ascii.is_space c' = false)
            ∧ ","%char ∉ c :: r) items.
Proof.
  rewrite scan_paths_fields by lia.
  assert (Hrun : ∀ l s, run_all (λ n l, Some (l ++ [n])) l s = Some (s ++ l)).
  { induction l as [|n l IH]; intros s; cbn [run_all]; [now rewrite app_nil_r|].
    cbn [mbind option_bind]. rewrite IH, <- app_assoc. done. }
  rewrite Hrun. cbn. intros [= <- _]. apply paths_of_wellformed.
Qed.

(** X20: the preferred entry is the first entry of that name; it is
    moved to the front and the entries before it keep their order.  When
    no entry has the name the catalogue is unchanged and a warning is
    logged; the same warning is logged when the entry is at the front
    already. *)
Theorem prefer_moves_to_front (entries : list HrtfEntry) (d : string) (R : registry) :
  ((d ∉ (name <$> entries))
   ∧ prefer entries d R = (entries, say (DefaultNotFound d) R))
  ∨ ∃ i e,
      entries !! i = Some e ∧ name e = d
      ∧ (∀ j e', (j < i)%nat → entries !! j = Some e' → name e' ≠ d)
      ∧ prefer entries d R
        = (e :: delete i entries,
           if decide (i = 0%nat) then say (DefaultNotFound d) R else R).
Proof.
  destruct (prefer_spec entries d R) as (i & e & [H|H]); [now left|].
  right. exists i, e. done.
Qed.

(** X21: [EnumerateHrtf] returns, whatever the configuration, the file
    system and the embedded resources are; the catalogue it returns has
    pairwise distinct display names and file names, every entry refers to
    a valid data set of the registry, and the registry still holds the data
    sets it held before. *)
Theorem EnumerateHrtf_keeps_catalogue
    (MapFileToMem : string → option (list byte))
    (SearchDataFiles : string → string → list string)
    (ConfigValueStr : string → string → option string)
    (ConfigValueExists : string → string → bool)
    (GetResource : Z → option (list byte))
    (devname : string) (R : registry) :
  catalogue_ok [] R →
  ∃ entries' R',
    EnumerateHrtf MapFileToMem SearchDataFiles ConfigValueStr ConfigValueExists
      GetResource devname R = Some (entries', R')
    ∧ catalogue_ok entries' R'
    ∧ LoadedHrtfs R `suffix_of` LoadedHrtfs R'.
Proof. apply EnumerateHrtf_spec. Qed.

(** * More on the interpolator *)

(** X22: for a loaded data set and an elevation in [-π/2, π/2],
    [GetLerpedHrtfCoeffs] returns for any azimuth, spread and gain, and it
    writes the first [irSize] pairs of the caller's buffer only: the
    buffer keeps its length and every pair from [irSize] on. *)
Theorem GetLerpedHrtfCoeffs_frame (h : Hrtf) (elevation azimuth spread gain : Q)
    (out : list (Q * Q)) :
  Hrtf_valid h → (0 < F_PI)%Q →
  (- F_PI_2 <= elevation)%Q → (elevation <= F_PI_2)%Q →
  (Z.to_nat (irSize h) ≤ length out)%nat →
  ∃ out' d,
    GetLerpedHrtfCoeffs h elevation azimuth spread gain out = Some (out', d)
    ∧ length out' = length out
    ∧ ∀ j, (Z.to_nat (irSize h) ≤ j)%nat → out' !! j = out !! j.
Proof.
  intros Hv Hpi Hel0 Hel1 Hout.
  destruct (GetLerpedHrtfCoeffs_spec h elevation azimuth spread gain out)
    as (out' & k0 & k1 & Hrun & Hlen & Hzero & _); try done.
  eexists out', _. split; [exact Hrun|]. split; [done|].
  destruct (Qle_bool gain 0.0001) eqn:Hgain.
  - apply Hzero. done.
  - destruct (GetLerpedHrtfCoeffs_values h elevation azimuth spread gain out)
      as (out2 & d0 & d1 & Hrun2 & _ & _ & Hkeep); try done.
    rewrite Hrun in Hrun2. injection Hrun2 as <- _ _. done.
Qed.

(** X23: for a loaded data set whose coefficients are signed 16-bit
    values, an elevation in [-π/2, π/2], a spread in [0, 2π] and a gain
    that is not negative, no coefficient that [GetLerpedHrtfCoeffs] writes
    exceeds [gain * 32768/32767] in magnitude (exact arithmetic). *)
Theorem lerped_coefficients_bounded (h : Hrtf) (elevation azimuth spread gain : Q)
    (out : list (Q * Q)) :
  Hrtf_valid h → Forall (λ c, -32768 ≤ c ≤ 32767) (coeffs h) → (0 < F_PI)%Q →
  (- F_PI_2 <= elevation)%Q → (elevation <= F_PI_2)%Q →
  (0 <= spread)%Q → (spread <= F_TAU)%Q → (0 <= gain)%Q →
  (Z.to_nat (irSize h) ≤ length out)%nat →
  ∃ out' d,
    GetLerpedHrtfCoeffs h elevation azimuth spread gain out = Some (out', d)
    ∧ ∀ j, (j < Z.to_nat (irSize h))%nat →
        ∃ l r, out' !! j = Some (l, r)
          ∧ (- (gain * (32768 / 32767)) <= l)%Q ∧ (l <= gain * (32768 / 32767))%Q
          ∧ (- (gain * (32768 / 32767)) <= r)%Q ∧ (r <= gain * (32768 / 32767))%Q.
Proof.
  intros Hv Hrange Hpi Hel0 Hel1 Hs0 Hs1 Hg Hout.
  assert (Hbound : (0 <= gain * (32768 / 32767))%Q).
  { apply Qmult_le_0_compat; [done|]. apply Qle_bool_imp_le. reflexivity. }
  destruct (Qle_bool gain 0.0001) eqn:Hgain.
  - destruct (GetLerpedHrtfCoeffs_spec h elevation azimuth spread gain out)
      as (out' & k0 & k1 & Hrun & _ & Hzero & _); try done.
    destruct (Hzero Hgain) as [Hz _].
    eexists out', _. split; [exact Hrun|]. intros j Hj.
    exists 0%Q, 0%Q. split; [now apply Hz|]. repeat split; lra.
  - destruct (GetLerpedHrtfCoeffs_mixes h elevation azimuth spread gain out)
      as (out' & d & Hrun & (cl & cr & Hcl & Hcr & H0) & Hrest); try done.
    pose proof (F_TAU_pos Hpi) as Ht.
    assert (Hd : (0 <= 1 - spread / F_TAU)%Q ∧ (1 - spread / F_TAU <= 1)%Q).
    { assert (H1 : (0 <= spread / F_TAU)%Q) by (apply Qle_shift_div_l; lra).
      assert (H2 : (spread / F_TAU <= 1)%Q) by (apply Qle_shift_div_r; lra).
      split; lra. }
    destruct Hd as [Hd0 Hd1].
    assert (Hpass : (-32768 <= PassthruCoeff)%Q ∧ (PassthruCoeff <= 32767)%Q).
    { split; apply Qle_bool_imp_le; reflexivity. }
    assert (Hone : ∀ base c,
              (-32768 <= base)%Q → (base <= 32767)%Q → mix_of (coeffs h) c →
              (- (gain * (32768 / 32767))
               <= lerp base c (1 - spread / F_TAU) * gain * (1 / 32767))%Q
              ∧ (lerp base c (1 - spread / F_TAU) * gain * (1 / 32767)
                 <= gain * (32768 / 32767))%Q).
    { intros base c Hb0 Hb1 Hc.
      destruct (mix_of_range (coeffs h) (-32768) 32767 c Hrange Hc) as [Hc0 Hc1].
      change (inject_Z (-32768)) with (-32768)%Q in Hc0.
      change (inject_Z 32767) with 32767%Q in Hc1.
      destruct (lerp_range base c (1 - spread / F_TAU) (-32768) 32767) as [Hl0 Hl1];
        try done.
      now apply scaled_range. }
    exists out', d. split; [exact Hrun|]. intros j Hj.
    destruct j as [|j].
    + eexists _, _. split; [exact H0|]. destruct Hpass.
      destruct (Hone PassthruCoeff cl) as [? ?]; try done.
      destruct (Hone PassthruCoeff cr) as [? ?]; try done.
    + destruct (Hrest (S j)) as (cl' & cr' & Hcl' & Hcr' & Hj'); [lia|].
      eexists _, _. split; [exact Hj'|].
      destruct (Hone 0%Q cl') as [? ?]; try done; try lra.
      destruct (Hone 0%Q cr') as [? ?]; try done; try lra.
Qed.


(** X24: every entry of the catalogue [EnumerateHrtf] returns refers to a
    file the search reported for a directory of the configured path list,
    or, when the defaults are in use (no path list, or a path list whose
    last field is blank), to a file the search reported for
    [openal/hrtf] or to an embedded resource that is present.  With a path
    list whose last field is not blank neither the default directory nor
    the embedded resources contribute. *)
Theorem entries_come_from_the_search
    (MapFileToMem : string → option (list byte))
    (SearchDataFiles : string → string → list string)
    (ConfigValueStr : string → string → option string)
    (ConfigValueExists : string → string → bool)
    (GetResource : Z → option (list byte))
    (devname : string) (R : registry) :
  catalogue_ok [] R →
  ∃ entries' R',
    EnumerateHrtf MapFileToMem SearchDataFiles ConfigValueStr ConfigValueExists
      GetResource devname R = Some (entries', R')
    ∧ Forall (λ e,
        match ConfigValueStr devname "hrtf-paths" with
        | Some pathlist =>
            found_in SearchDataFiles
              (paths_of (String.list_ascii_of_string pathlist)) (filename (hrtf e))
            ∨ (blank_tail (String.list_ascii_of_string pathlist) = true
               ∧ (found_in SearchDataFiles ["openal/hrtf"] (filename (hrtf e))
                  ∨ built_in GetResource (filename (hrtf e))))
        | None =>
            found_in SearchDataFiles ["openal/hrtf"] (filename (hrtf e))
            ∨ built_in GetResource (filename (hrtf e))
        end) entries'.
Proof. apply EnumerateHrtf_origin. Qed.

(** X25: when the [default-hrtf] option names an entry of the catalogue
    [EnumerateHrtf] returns, that catalogue starts with an entry of that
    name. *)
Theorem preferred_entry_comes_first
    (MapFileToMem : string → option (list byte))
    (SearchDataFiles : string → string → list string)
    (ConfigValueStr : string → string → option string)
    (ConfigValueExists : string → string → bool)
    (GetResource : Z → option (list byte))
    (devname : string) (R : registry)
    (entries' : list HrtfEntry) (R' : registry) (d : string) :
  EnumerateHrtf MapFileToMem SearchDataFiles ConfigValueStr ConfigValueExists
    GetResource devname R = Some (entries', R') →
  ConfigValueStr devname "default-hrtf" = Some d →
  d ∈ (name <$> entries') →
  ∃ e rest, entries' = e :: rest ∧ name e = d.
Proof. apply EnumerateHrtf_preferred. Qed.


End Hrtf.

(** * The theorems at concrete inputs

    The parameters take the values of the upstream headers:
    [HRTF_HISTORY_LENGTH] 64, [HRTFDELAY_BITS] 20, [HRIR_LENGTH] 128, and
    [F_PI] the binary32 number next to π. *)

Lemma v1_example_loaded : LoadHrtf01 64 v1_example "example" = Loaded hrtf_example.
Proof. vm_compute. reflexivity. Qed.

Lemma v1_graded_loaded : LoadHrtf01 64 v1_graded "graded" = Loaded hrtf_graded.
Proof. vm_compute. reflexivity. Qed.

Lemma hrtf_example_valid : Hrtf_valid 64 hrtf_example.
Proof. exact (LoadHrtf01_valid 64 _ _ _ v1_example_loaded). Qed.

Lemma hrtf_graded_valid : Hrtf_valid 64 hrtf_graded.
Proof. exact (LoadHrtf01_valid 64 _ _ _ v1_graded_loaded). Qed.

Lemma pi32_pos : (0 < pi32)%Q.
Proof. reflexivity. Qed.

(** C1 at the failing input: [LoadHrtf00] accepts a buffer whose first two
    offsets are 0 and 257 and derives the ring size 1 for the first ring. *)
Lemma LoadHrtf00_wide_ring :
  ∃ h, LoadHrtf00 64 v0_wide "wide" = Loaded h
       ∧ evOffset h = [0; 257; 258; 259; 260]
       ∧ azCount h = [1; 1; 1; 1; 1].
Proof. eexists. vm_compute. repeat split. Qed.

(** C2 at the failing input: [LoadHrtf00] accepts a buffer whose first
    offset is 3. *)
Lemma LoadHrtf00_first_offset :
  ∃ h, LoadHrtf00 64 v0_shifted "shifted" = Loaded h ∧ evOffset h !! 0%nat = Some 3.
Proof. eexists. vm_compute. repeat split. Qed.

(** C9 at the failing input: [LoadHrtf00] accepts a buffer with [irCount]
    261 whose last offset is 4 and derives the ring size 1 for the last
    ring. *)
Lemma LoadHrtf00_wide_last_ring :
  ∃ h, LoadHrtf00 64 v0_wide_last "last" = Loaded h
       ∧ evOffset h !! 4%nat = Some 4 ∧ azCount h !! 4%nat = Some 1
       ∧ irCount h = 261.
Proof. eexists. vm_compute. repeat split. Qed.



Lemma irSize_bounds_checked_witness :
  (∃ l, LoadHrtf00 64 v0_bad_size "bad" = Rejected (UnsupportedIrSize 7 :: l))
  ∧ bad_irSize 8 = false.
Proof.
  pose proof (irSize_bounds_checked 64
    (byte_of_Z 68) (byte_of_Z 172) (byte_of_Z 0) (byte_of_Z 0)
    (byte_of_Z 8) (byte_of_Z 0) (byte_of_Z 7) (byte_of_Z 0) (byte_of_Z 8)
    (byte_of_Z 5) [] "bad") as (H00 & _ & _ & H01).
  split.
  - apply H00. change (le16 _ _) with 7. apply list_elem_of_here.
  - apply H01. change (ubyte _) with 8. apply list_elem_of_here.
Defined.



Lemma gain_gate_zeroes_witness :
  ∃ out' d,
    GetLerpedHrtfCoeffs 20 pi32 hrtf_graded 0 1 0 (5 # 100000) out8 = Some (out', d)
    ∧ ∀ j, (j < 8)%nat → out' !! j = Some (0%Q, 0%Q).
Proof.
  destruct (gain_gate_zeroes 64 20 pi32 hrtf_graded 0 1 0 (5 # 100000) out8)
    as [Hzero Hruns].
  { apply Qle_bool_imp_le. vm_compute. reflexivity. }
  destruct Hruns as [[out' d] Hrun].
  - exact hrtf_graded_valid.
  - exact pi32_pos.
  - apply Qle_bool_imp_le. vm_compute. reflexivity.
  - apply Qle_bool_imp_le. vm_compute. reflexivity.
  - vm_compute. lia.
  - exists out', d. split; [exact Hrun|]. intros j Hj. apply (Hzero _ _ Hrun).
    vm_compute. vm_compute in Hj. exact Hj.
Defined.




Lemma lerped_delays_bounded_witness :
  ∃ out' k0 k1,
    GetLerpedHrtfCoeffs 20 pi32 hrtf_graded 0 1 (1 # 2) 1 out8
    = Some (out', (u32 (Z.shiftl k0 20), u32 (Z.shiftl k1 20)))
    ∧ 0 ≤ k0 ≤ 63 ∧ 0 ≤ k1 ≤ 63.
Proof.
  destruct (lerped_delays_bounded 64 20 pi32 hrtf_graded 0 1 (1 # 2) 1 out8)
    as (out' & k0 & k1 & Hrun & Hk0 & Hk1 & _).
  - exact hrtf_graded_valid.
  - apply Forall_forall. intros d Hd. unfold hrtf_graded in Hd. cbn [delays] in Hd.
    repeat (apply elem_of_cons in Hd as [->|Hd]; [lia|]). now apply elem_of_nil in Hd.
  - exact pi32_pos.
  - apply Qle_bool_imp_le. vm_compute. reflexivity.
  - apply Qle_bool_imp_le. vm_compute. reflexivity.
  - apply Qle_bool_imp_le. vm_compute. reflexivity.
  - apply Qle_bool_imp_le. vm_compute. reflexivity.
  - vm_compute. lia.
  - exists out', k0, k1. split; [exact Hrun|]. split; [exact Hk0|exact Hk1].
Defined.

(** X4: the example of the spec.  The v1 buffer with [evCount = 5],
    [azCount = [4,8,8,8,4]] and [irSize = 8] decodes to [irCount = 32] and
    [evOffset = [0,4,12,20,28]]. *)
Lemma v1_example_decodes :
  ∃ h, LoadHrtf01 64 v1_example "example" = Loaded h
       ∧ evCount h = 5 ∧ azCount h = [4; 8; 8; 8; 4] ∧ irSize h = 8
       ∧ irCount h = 32 ∧ evOffset h = [0; 4; 12; 20; 28].
Proof. eexists. vm_compute. repeat split. Qed.

Lemma loaded_is_valid_witness : Hrtf_valid 64 hrtf_graded.
Proof.
  apply (loaded_is_valid 64 v1_graded "graded" hrtf_graded).
  right. exact v1_graded_loaded.
Defined.

Lemma valid_indices_in_bounds_witness :
  0 ≤ 4 + 3 < irCount hrtf_example
  ∧ 0 ≤ 4 + (8 - 3) mod 8 < irCount hrtf_example
  ∧ is_Some (at_ (delays hrtf_example) (4 + 3))
  ∧ is_Some (at_ (coeffs hrtf_example) ((4 + 3) * 8 + 7)).
Proof.
  destruct (valid_indices_in_bounds 64 hrtf_example 1 3)
    as (az & off & Haz & Hoff & Hin).
  - exact hrtf_example_valid.
  - vm_compute. split; [discriminate|reflexivity].
  - vm_compute in Haz, Hoff. injection Haz as <-. injection Hoff as <-.
    destruct Hin as (Hl & Hr & Hdl & _ & Hc); [lia|].
    split; [exact Hl|]. split; [exact Hr|]. split; [exact Hdl|].
    apply (Hc 7). vm_compute. split; [discriminate|reflexivity].
Defined.

Lemma LoadHrtf01_offsets_witness :
  evOffset hrtf_example !! 0%nat = Some 0
  ∧ irCount hrtf_example = 28 + 4.
Proof.
  destruct (LoadHrtf01_offsets 64 v1_example "example" hrtf_example)
    as (H0 & _ & Hlast).
  - exact v1_example_loaded.
  - split; [exact H0|]. apply Hlast; reflexivity.
Defined.

Lemma fully_diffuse_is_impulse_witness :
  ∃ out',
    GetLerpedHrtfCoeffs 20 pi32 hrtf_graded 0 1 (F_TAU pi32) 1 out8 = Some (out', (0, 0))
    ∧ (∃ p, out' !! 0%nat = Some p
            ∧ pair_eq p ((PassthruCoeff * 1 * (1 / 32767))%Q,
                         (PassthruCoeff * 1 * (1 / 32767))%Q))
    ∧ ∀ j, (1 ≤ j < Z.to_nat (irSize hrtf_graded))%nat →
        ∃ p, out' !! j = Some p ∧ pair_eq p (0%Q, 0%Q).
Proof.
  apply (fully_diffuse_is_impulse 64 20 pi32 hrtf_graded 0 1 1 out8).
  - exact hrtf_graded_valid.
  - exact pi32_pos.
  - apply Qle_bool_imp_le. vm_compute. reflexivity.
  - apply Qle_bool_imp_le. vm_compute. reflexivity.
  - vm_compute. lia.
  - vm_compute. reflexivity.
Defined.


Lemma BuildBFormatHrtf_returns_witness :
  ∃ out' len,
    BuildBFormatHrtf 64 128 pi32 hrtf_graded bank128 4 = Some (out', len)
    ∧ bank_ok 128 out' ∧ irSize hrtf_graded ≤ len ≤ 128.
Proof.
  apply (BuildBFormatHrtf_returns 64 128 pi32 hrtf_graded bank128).
  - exact hrtf_graded_valid.
  - lia.
  - vm_compute. discriminate.
  - split; [reflexivity|]. apply Forall_replicate. reflexivity.
Defined.

(** * The catalogue and the layout at concrete inputs *)

Lemma empty_catalogue_ok : catalogue_ok 64 [] empty_registry.
Proof. split; cbn; constructor. Qed.

Lemma file_is_listed :
  AddFileEntry 64 one_file [] "dir/example.mhr" empty_registry
  = Some ([] ++ [file_entry], file_registry).
Proof. vm_compute. reflexivity. Qed.

Lemma trailing_bytes_ignored_witness :
  LoadHrtf01 64 (v1_example ++ [x00; x01]%byte) "example" = Loaded hrtf_example.
Proof.
  destruct (trailing_bytes_ignored 64 v1_example [x00; x01]%byte "example" hrtf_example)
    as [_ H].
  apply H. exact v1_example_loaded.
Defined.

Lemma loaded_fields_in_range_witness :
  filename hrtf_example = "example"
  ∧ 0 ≤ sampleRate hrtf_example < 2 ^ 32
  ∧ Forall (λ c, -32768 ≤ c ≤ 32767) (coeffs hrtf_example).
Proof.
  apply (loaded_fields_in_range 64 v1_example "example" hrtf_example).
  right. exact v1_example_loaded.
Defined.

Lemma AddBuiltInEntry_keeps_catalogue_witness :
  ∃ entries' R',
    AddBuiltInEntry 64 [] (magicMarker01 ++ v1_example) "Built-In" empty_registry
    = Some (entries', R')
    ∧ catalogue_ok 64 entries' R'
    ∧ (entries' = [] ∧ LoadedHrtfs R' = LoadedHrtfs empty_registry
       ∨ ∃ e, entries' = [] ++ [e] ∧ filename (hrtf e) = "Built-In"
              ∧ (LoadedHrtfs R' = LoadedHrtfs empty_registry
                 ∨ LoadedHrtfs R' = hrtf e :: LoadedHrtfs empty_registry)).
Proof.
  apply (AddBuiltInEntry_keeps_catalogue 64 [] (magicMarker01 ++ v1_example)
           "Built-In" empty_registry).
  exact empty_catalogue_ok.
Defined.

Lemma AddFileEntry_keeps_catalogue_witness :
  ∃ entries' R',
    AddFileEntry 64 one_file [] "dir/example.mhr" empty_registry = Some (entries', R')
    ∧ catalogue_ok 64 entries' R'
    ∧ (entries' = [] ∧ LoadedHrtfs R' = LoadedHrtfs empty_registry
       ∨ ∃ e, entries' = [] ++ [e] ∧ filename (hrtf e) = "dir/example.mhr"
              ∧ (LoadedHrtfs R' = LoadedHrtfs empty_registry
                 ∨ LoadedHrtfs R' = hrtf e :: LoadedHrtfs empty_registry)).
Proof.
  apply (AddFileEntry_keeps_catalogue 64 one_file [] "dir/example.mhr" empty_registry).
  exact empty_catalogue_ok.
Defined.

Lemma same_file_is_loaded_once_witness :
  ∃ n,
    AddFileEntry 64 no_file [] "dir/example.mhr" file_registry
    = Some ([] ++ [mkHrtfEntry n (hrtf file_entry)],
            mkRegistry (LoadedHrtfs file_registry)
              (lines file_registry
               ++ [SkippingLoad "dir/example.mhr"; AddingEntry n "dir/example.mhr"])).
Proof.
  apply (same_file_is_loaded_once 64 one_file no_file [] [] "dir/example.mhr"
           empty_registry file_registry file_entry).
  - exact empty_catalogue_ok.
  - exact file_is_listed.
  - apply not_elem_of_nil.
Defined.

Lemma unrecognised_data_adds_nothing_witness :
  AddBuiltInEntry 64 [] [x4d; x69; x6e]%byte "short" empty_registry
  = Some ([], mkRegistry [] [Loading "short"; TooShort "short" 3])
  ∧ AddFileEntry 64 no_file [] "short" empty_registry
    = Some ([], mkRegistry [] [Loading "short"; CouldNotOpen "short"]).
Proof.
  destruct (unrecognised_data_adds_nothing 64 no_file [] [x4d; x69; x6e]%byte "short"
              empty_registry) as (H1 & _ & H3).
  - apply not_elem_of_nil.
  - apply not_elem_of_nil.
  - vm_compute. reflexivity.
  - vm_compute. reflexivity.
  - split; [exact H1|]. apply H3. reflexivity.
Defined.

Lemma display_name_of_path_witness :
  display_name ("dir" +:+ "/" +:+ "example" +:+ "." +:+ "mhr") = "example".
Proof.
  destruct (display_name_of_path "dir" "example" "mhr") as [H _].
  - apply (bool_decide_unpack _). vm_compute. exact I.
  - apply H; apply (bool_decide_unpack _); vm_compute; exact I.
Defined.

Lemma scanned_paths_are_trimmed_witness :
  Forall (λ n, ∃ c r,
            String.list_ascii_of_string n = c :: r
            ∧ Ascii.is_space c = false
            ∧ (∃ c', last (c :: r) = Some c' ∧ Ascii.is_space c' = false)
            ∧ ","%char ∉ c :: r) ["a b"; "c"].
Proof.
  apply (scanned_paths_are_trimmed (String.list_ascii_of_string " a b , ,c ")
           ["a b"; "c"] false).
  vm_compute. reflexivity.
Defined.

Lemma EnumerateHrtf_keeps_catalogue_witness :
  ∃ entries' R',
    EnumerateHrtf 64 one_file one_dir no_config no_option one_resource "device"
      empty_registry = Some (entries', R')
    ∧ catalogue_ok 64 entries' R'
    ∧ LoadedHrtfs empty_registry `suffix_of` LoadedHrtfs R'.
Proof.
  apply (EnumerateHrtf_keeps_catalogue 64 one_file one_dir no_config no_option
           one_resource "device" empty_registry).
  exact empty_catalogue_ok.
Defined.

Lemma GetLerpedHrtfCoeffs_frame_witness :
  ∃ out' d,
    GetLerpedHrtfCoeffs 20 pi32 hrtf_graded 0 1 (1 # 2) 1 (out8 ++ [(5%Q, 5%Q)])
    = Some (out', d)
    ∧ length out' = 9%nat
    ∧ ∀ j, (Z.to_nat (irSize hrtf_graded) ≤ j)%nat →
        out' !! j = (out8 ++ [(5%Q, 5%Q)]) !! j.
Proof.
  apply (GetLerpedHrtfCoeffs_frame 64 20 pi32 hrtf_graded 0 1 (1 # 2) 1
           (out8 ++ [(5%Q, 5%Q)])).
  - exact hrtf_graded_valid.
  - exact pi32_pos.
  - apply Qle_bool_imp_le. vm_compute. reflexivity.
  - apply Qle_bool_imp_le. vm_compute. reflexivity.
  - vm_compute. lia.
Defined.

Lemma lerped_coefficients_bounded_witness :
  ∃ out' d,
    GetLerpedHrtfCoeffs 20 pi32 hrtf_graded 0 1 (1 # 2) 2 out8 = Some (out', d)
    ∧ ∀ j, (j < Z.to_nat (irSize hrtf_graded))%nat →
        ∃ l r, out' !! j = Some (l, r)
          ∧ (- (2 * (32768 / 32767)) <= l)%Q ∧ (l <= 2 * (32768 / 32767))%Q
          ∧ (- (2 * (32768 / 32767)) <= r)%Q ∧ (r <= 2 * (32768 / 32767))%Q.
Proof.
  apply (lerped_coefficients_bounded 64 20 pi32 hrtf_graded 0 1 (1 # 2) 2 out8).
  - exact hrtf_graded_valid.
  - unfold hrtf_graded. cbn [coeffs]. apply Forall_replicate. lia.
  - exact pi32_pos.
  - apply Qle_bool_imp_le. vm_compute. reflexivity.
  - apply Qle_bool_imp_le. vm_compute. reflexivity.
  - apply Qle_bool_imp_le. vm_compute. reflexivity.
  - apply Qle_bool_imp_le. vm_compute. reflexivity.
  - apply Qle_bool_imp_le. vm_compute. reflexivity.
  - vm_compute. lia.
Defined.

Lemma entries_come_from_the_search_witness :
  ∃ entries' R',
    EnumerateHrtf 64 one_file one_dir only_dir no_option one_resource "device"
      empty_registry = Some (entries', R')
    ∧ Forall (λ e,
        match only_dir "device" "hrtf-paths" with
        | Some pathlist =>
            found_in one_dir
              (paths_of (String.list_ascii_of_string pathlist)) (filename (hrtf e))
            ∨ (blank_tail (String.list_ascii_of_string pathlist) = true
               ∧ (found_in one_dir ["openal/hrtf"] (filename (hrtf e))
                  ∨ built_in one_resource (filename (hrtf e))))
        | None =>
            found_in one_dir ["openal/hrtf"] (filename (hrtf e))
            ∨ built_in one_resource (filename (hrtf e))
        end) entries'.
Proof.
  apply (entries_come_from_the_search 64 one_file one_dir only_dir no_option
           one_resource "device" empty_registry).
  exact empty_catalogue_ok.
Defined.

Lemma preferred_entry_comes_first_witness :
  ∃ e rest,
    fst <$> EnumerateHrtf 64 one_file one_dir prefer_built_in no_option one_resource
              "device" empty_registry = Some (e :: rest)
    ∧ name e = "Built-In 44100hz".
Proof.
  destruct (EnumerateHrtf 64 one_file one_dir prefer_built_in no_option one_resource
              "device" empty_registry) as [[entries' R']|] eqn:Hrun.
  - destruct (preferred_entry_comes_first 64 one_file one_dir prefer_built_in no_option
                one_resource "device" empty_registry entries' R' "Built-In 44100hz" Hrun)
      as (e & rest & -> & Hn).
    + reflexivity.
    + vm_compute in Hrun. injection Hrun as <- _. vm_compute.
      apply list_elem_of_here.
    + exists e, rest. split; [reflexivity|exact Hn].
  - vm_compute in Hrun. discriminate Hrun.
Defined.
